(** * Roomflow: the normalisation-and-matching engine of [src/code.ts]

    A shallow embedding of the pure core of the plugin (token normaliser,
    keyword catalog, filename resolver, title deriver) and of the block
    auto-seeder, which mutates the names and fills of scene nodes.

    Strings.  A JavaScript string is a sequence of UTF-16 code units.  The
    embedding covers the strings whose code units are all below 256: one
    [ascii] of a Rocq [string] is one code unit (its Latin-1 value).  On that
    domain [toLowerCase], [trim], the classes [\s] and [\d] and the [i] flag of
    a regular expression are written out below exactly.

    Regular expressions.  Each regular expression of the source is embedded
    as the function that computes what the backtracking matcher computes for
    it (leftmost match, greedy quantifiers, alternatives in order); the
    expression is quoted next to the function. *)

From Stdlib Require Import String Ascii List Bool Arith ZArith QArith Lia.
From Stdlib Require Import DecimalString DecimalNat DecimalFacts.
From Stdlib Require Import Sorting.Sorted Sorting.Permutation.
From stdpp Require Import base gmap.
Import ListNotations.

Local Open Scope string_scope.
Local Open Scope nat_scope.
Set Warnings "-register-all".

(** ** Characters *)

Module Char.

Definition code (c : ascii) : nat := nat_of_ascii c.

Definition in_range (lo hi : nat) (c : ascii) : bool :=
  (lo <=? code c) && (code c <=? hi).

(** [\d], that is [0-9]. *)
Definition is_digit (c : ascii) : bool := in_range 48 57 c.

(** [a-z] and [A-Z]. *)
Definition is_lower (c : ascii) : bool := in_range 97 122 c.
Definition is_upper (c : ascii) : bool := in_range 65 90 c.

(** [a-z0-9], the class negated in [normalizeToken]. *)
Definition is_lower_alnum (c : ascii) : bool := is_lower c || is_digit c.

(** [a-zA-Z0-9], the class negated in the fallback of
    [deriveRoomTokenFromText]. *)
Definition is_alnum (c : ascii) : bool :=
  is_lower c || is_upper c || is_digit c.

Definition is_underscore (c : ascii) : bool := Ascii.eqb c "_".
Definition is_dot (c : ascii) : bool := Ascii.eqb c ".".
Definition is_slash (c : ascii) : bool := Ascii.eqb c "/".
Definition is_newline (c : ascii) : bool := Ascii.eqb c "010".

(** White space and line terminators below 256: TAB, LF, VT, FF, CR, SP and
    NBSP.  This is both what [String.prototype.trim] removes and what [\s]
    matches. *)
Definition is_space (c : ascii) : bool :=
  in_range 9 13 c || (code c =? 32) || (code c =? 160).

(** Latin-1 capitals with a lower-case partner 32 places up: [A-Z] and
    U+00C0..U+00DE without the multiplication sign U+00D7. *)
Definition has_lower (c : ascii) : bool :=
  is_upper c || (in_range 192 222 c && negb (code c =? 215)).

(** [toLowerCase] on one code unit. *)
Definition to_lower (c : ascii) : ascii :=
  if has_lower c then ascii_of_nat (code c + 32) else c.

(** The [Canonicalize] step of a regular expression with the [i] flag and
    without the [u] flag: the upper-case partner when it is a single code
    unit.  U+00B5 and U+00FF have their partner above 255 and U+00DF has an
    upper case of two code units; no other code unit below 256 shares their
    canonical form, so they are left as they are. *)
Definition has_upper (c : ascii) : bool :=
  is_lower c || (in_range 224 254 c && negb (code c =? 247)).

Definition canonicalize (c : ascii) : ascii :=
  if has_upper c then ascii_of_nat (code c - 32) else c.

(** Equality of two code units under the [i] flag. *)
Definition eqb_ci (a b : ascii) : bool :=
  Ascii.eqb (canonicalize a) (canonicalize b).

End Char.

(** ** String primitives *)

Module Str.

Fixpoint map (f : ascii -> ascii) (s : string) : string :=
  match s with
  | EmptyString => EmptyString
  | String c r => String (f c) (map f r)
  end.

Fixpoint all (P : ascii -> bool) (s : string) : bool :=
  match s with
  | EmptyString => true
  | String c r => P c && all P r
  end.

Definition is_empty (s : string) : bool :=
  match s with EmptyString => true | _ => false end.

(** The rest of [s] after its longest prefix of characters in [P]. *)
Fixpoint drop_while (P : ascii -> bool) (s : string) : string :=
  match s with
  | EmptyString => EmptyString
  | String c r => if P c then drop_while P r else s
  end.

(** The longest prefix of [s] of characters in [P]: what a greedy [P+] or
    [P*] consumes at the start of [s]. *)
Fixpoint take_while (P : ascii -> bool) (s : string) : string :=
  match s with
  | EmptyString => EmptyString
  | String c r => if P c then String c (take_while P r) else EmptyString
  end.

(** [s] cut where a non-empty run of [P] reaches the end of the string:
    [s.replace(/P+$/, '')], the leftmost place from which [P+$] matches. *)
Fixpoint drop_trailing (P : ascii -> bool) (s : string) : string :=
  match s with
  | EmptyString => EmptyString
  | String c r => if all P s then EmptyString else String c (drop_trailing P r)
  end.

(** [s.replace(/P+/g, rep)]: every maximal run of characters in [P] is
    replaced by [rep].  [in_run] tells that the previous character was in
    [P], so that the run was already replaced. *)
Fixpoint replace_runs_from (P : ascii -> bool) (rep : string)
    (in_run : bool) (s : string) : string :=
  match s with
  | EmptyString => EmptyString
  | String c r =>
      if P c then
        if in_run then replace_runs_from P rep true r
        else rep ++ replace_runs_from P rep true r
      else String c (replace_runs_from P rep false r)
  end.

Definition replace_runs (P : ascii -> bool) (rep s : string) : string :=
  replace_runs_from P rep false s.

(** [s.toLowerCase()]. *)
Definition toLowerCase (s : string) : string := map Char.to_lower s.

(** [s.trim()]. *)
Definition trim (s : string) : string :=
  drop_trailing Char.is_space (drop_while Char.is_space s).

(** [s.split('\n')[0]]: the text before the first line feed. *)
Definition first_line (s : string) : string :=
  take_while (fun c => negb (Char.is_newline c)) s.

(** What is left of [s] when [lit] matches at its start under the [i] flag
    (on lower-case text this is the plain prefix test). *)
Fixpoint strip_prefix_ci (lit s : string) : option string :=
  match lit with
  | EmptyString => Some s
  | String a lit' =>
      match s with
      | EmptyString => None
      | String b s' =>
          if Char.eqb_ci a b then strip_prefix_ci lit' s' else None
      end
  end.

(** [s.includes(sub)] (case-sensitive). *)
Fixpoint strip_prefix (lit s : string) : option string :=
  match lit with
  | EmptyString => Some s
  | String a lit' =>
      match s with
      | EmptyString => None
      | String b s' => if Ascii.eqb a b then strip_prefix lit' s' else None
      end
  end.

Fixpoint includes (sub s : string) : bool :=
  match strip_prefix sub s with
  | Some _ => true
  | None => match s with
            | EmptyString => false
            | String _ r => includes sub r
            end
  end.

(** [s.substring(n)]. *)
Fixpoint drop (n : nat) (s : string) : string :=
  match n, s with
  | O, _ => s
  | S n', String _ r => drop n' r
  | S _, EmptyString => EmptyString
  end.

(** The decimal rendering of a number in a template literal. *)
Definition of_nat (n : nat) : string := NilZero.string_of_uint (Nat.to_uint n).

End Str.

(** ** The keyword list *)

Definition ROOM_KEYWORDS : list string :=
  [ "Owners_Bath"; "Owners_WIC"; "Owners"; "Kitchen"; "Kitchenette";
    "Dining"; "Great"; "Living"; "Family";
    "Bed2"; "Bed3"; "Bed4"; "Bed5"; "Bedroom";
    "Bath2"; "Bath3"; "Bath4"; "Bath";
    "Powder"; "Laundry"; "Garage"; "Entry"; "Foyer"; "Office"; "Study";
    "WIC"; "Suite"; "Den"; "Loft"; "Bonus"; "Media"; "Game"; "Gym"; "Flex";
    "CoveredPatio"; "Deck"; "Patio"; "Nook" ].

Record RoomKeywordInfo : Type := mkInfo { raw : string; norm : string }.

(** ** Normalisation *)

(** [[^/.]+$] at the start of [s]: [s] is not empty and holds neither a slash
    nor a dot. *)
Definition is_extension_body (s : string) : bool :=
  negb (Str.is_empty s)
  && Str.all (fun c => negb (Char.is_slash c || Char.is_dot c)) s.

(** [name.replace(/\.[^/.]+$/, '')]: the text before the leftmost dot from
    which the pattern reaches the end of the string. *)
Fixpoint stripExtension (name : string) : string :=
  match name with
  | EmptyString => EmptyString
  | String c r =>
      if Char.is_dot c && is_extension_body r then EmptyString
      else String c (stripExtension r)
  end.

(** [.replace(/^_+|_+$/g, '')]: the first alternative matches the leading
    run of underscores (at offset 0 only), the second the run that reaches
    the end. *)
Definition strip_underscores (s : string) : string :=
  Str.drop_trailing Char.is_underscore (Str.drop_while Char.is_underscore s).

Definition normalizeToken (raw : string) : string :=
  strip_underscores
    (Str.replace_runs Char.is_underscore "_"
       (Str.replace_runs (fun c => negb (Char.is_lower_alnum c)) "_"
          (stripExtension (Str.toLowerCase raw)))).

(** ** [Array.prototype.sort] *)

(** The sort of an array by a comparator [cmp] that returns a number: [a]
    goes before [b] when [cmp a b] is negative, and elements that compare
    equal keep their order (the sort is stable since ECMAScript 2019).  It is
    embedded as the stable insertion sort. *)
Section ArraySort.
Context {A : Type} (cmp : A -> A -> Z).

Fixpoint sort_insert (x : A) (l : list A) : list A :=
  match l with
  | [] => [x]
  | y :: l' => if (cmp x y <=? 0)%Z then x :: l else y :: sort_insert x l'
  end.

Fixpoint Array_sort (l : list A) : list A :=
  match l with
  | [] => []
  | x :: l' => sort_insert x (Array_sort l')
  end.
End ArraySort.

(** ** The keyword catalog *)

Definition by_norm_length_desc (a b : RoomKeywordInfo) : Z :=
  (Z.of_nat (String.length (norm b)) - Z.of_nat (String.length (norm a)))%Z.

Definition ROOM_KEYWORD_INFO : list RoomKeywordInfo :=
  Array_sort by_norm_length_desc
    (List.map (fun raw => mkInfo raw (normalizeToken raw)) ROOM_KEYWORDS).

(** ** The boundary pattern [(^|_)norm($|_)] with the [i] flag

    [norm] is spliced into the pattern as it is; the norms of the catalog
    hold letters, digits and underscores only, so each stands for itself. *)

(** [norm($|_)] at the start of [s]: the number of characters matched. *)
Definition match_keyword_end (norm s : string) : option nat :=
  match Str.strip_prefix_ci norm s with
  | Some EmptyString => Some (String.length norm)
  | Some (String c _) =>
      if Char.eqb_ci "_" c then Some (String.length norm + 1) else None
  | None => None
  end.

(** The whole pattern at one offset; [at_start] tells that the offset is 0,
    where [^] matches.  The alternatives of [(^|_)] are tried in order. *)
Definition match_boundary_at (norm : string) (at_start : bool) (s : string)
    : option nat :=
  match (if at_start then match_keyword_end norm s else None) with
  | Some len => Some len
  | None =>
      match s with
      | String c r =>
          if Char.eqb_ci "_" c
          then option_map S (match_keyword_end norm r)
          else None
      | EmptyString => None
      end
  end.

(** The leftmost match from [offset] on: its index and its length. *)
Fixpoint search_boundary (norm : string) (at_start : bool) (offset : nat)
    (s : string) : option (nat * nat) :=
  match match_boundary_at norm at_start s with
  | Some len => Some (offset, len)
  | None =>
      match s with
      | EmptyString => None
      | String _ r => search_boundary norm false (S offset) r
      end
  end.

(** [normalized.match(pattern)]: [index] and [[0].length] of the match. *)
Definition keyword_match (norm normalized : string) : option (nat * nat) :=
  search_boundary norm true 0 normalized.

(** [pattern.test(normalized)]. *)
Definition keyword_test (norm normalized : string) : bool :=
  match keyword_match norm normalized with Some _ => true | None => false end.

(** The [for] loop over the catalog with its [break]. *)
Definition first_matching_keyword (normalized : string)
    : option RoomKeywordInfo :=
  List.find (fun info => keyword_test (norm info) normalized) ROOM_KEYWORD_INFO.

(** ** The index patterns *)

(** [^_?] before a digit group: an underscore at the start is consumed. *)
Definition skip_underscore (s : string) : string :=
  match s with
  | String c r => if Char.is_underscore c then r else s
  | EmptyString => EmptyString
  end.

(** The look-ahead [(?=_?of\d+)]. *)
Definition lookahead_of (s : string) : bool :=
  match Str.strip_prefix "of" (skip_underscore s) with
  | Some (String d _) => Char.is_digit d
  | _ => false
  end.

(** [afterKeyword.match(/^_?(\d+)(?=_?of\d+)/)], group 1.  The digit group
    is the longest one: after a shorter one the look-ahead meets a digit. *)
Definition ofMatch (afterKeyword : string) : option string :=
  let s := skip_underscore afterKeyword in
  let digits := Str.take_while Char.is_digit s in
  if Str.is_empty digits then None
  else if lookahead_of (Str.drop_while Char.is_digit s) then Some digits
  else None.

(** [afterKeyword.match(/^_?(\d+)(?:_|$)/)], group 1. *)
Definition underscoreMatch (afterKeyword : string) : option string :=
  let s := skip_underscore afterKeyword in
  let digits := Str.take_while Char.is_digit s in
  if Str.is_empty digits then None
  else match Str.drop_while Char.is_digit s with
       | EmptyString => Some digits
       | String c _ => if Char.is_underscore c then Some digits else None
       end.

(** [!index] for [index : string | null]: [null] and the empty string. *)
Definition falsy (index : option string) : bool :=
  match index with
  | None => true
  | Some s => Str.is_empty s
  end.

(** The two attempts of lines 116-123 on the text after the keyword. *)
Definition extract_index (afterKeyword : string) : option string :=
  let index := ofMatch afterKeyword in
  if falsy index then underscoreMatch afterKeyword else index.

(** ** The filename resolver *)

Definition parseFilenameToTargetLayer (name : string) : option string :=
  let base := stripExtension name in
  let normalized := normalizeToken base in
  match first_matching_keyword normalized with
  | None => None
  | Some matchedKeyword =>
      let index :=
        match keyword_match (norm matchedKeyword) normalized with
        | Some (match_index, match_length) =>
            let keywordEndIndex := match_index + match_length in
            let afterKeyword := Str.drop keywordEndIndex normalized in
            extract_index afterKeyword
        | None => None
        end in
      let index :=
        match index with
        | Some i => if falsy index then "1" else i
        | None => "1"
        end in
      Some (raw matchedKeyword ++ "_" ++ index)
  end.

(** ** The title deriver *)

Definition isOwnersSuiteTitle (title : string) : bool :=
  let lower := Str.toLowerCase title in
  Str.includes "owner" lower && Str.includes "suite" lower.

(** [\s*(\d+)] at the start of [s], group 2 of the room patterns. *)
Definition match_spaces_digits (s : string) : option string :=
  let digits := Str.take_while Char.is_digit (Str.drop_while Char.is_space s) in
  if Str.is_empty digits then None else Some digits.

(** [word(room)?\s*(\d+)] with the [i] flag at the start of [s]: the optional
    group is tried first with [room], then without. *)
Definition match_room_number_at (word s : string) : option string :=
  match Str.strip_prefix_ci word s with
  | None => None
  | Some r =>
      match Str.strip_prefix_ci "room" r with
      | Some r' =>
          match match_spaces_digits r' with
          | Some digits => Some digits
          | None => match_spaces_digits r
          end
      | None => match_spaces_digits r
      end
  end.

(** [firstLine.match(/word(room)?\s*(\d+)/i)], group 2 of the leftmost
    match. *)
Fixpoint search_room_number (word s : string) : option string :=
  match match_room_number_at word s with
  | Some digits => Some digits
  | None =>
      match s with
      | EmptyString => None
      | String _ r => search_room_number word r
      end
  end.

(** [/lit/i.test(s)]. *)
Fixpoint test_ci (lit s : string) : bool :=
  match Str.strip_prefix_ci lit s with
  | Some _ => true
  | None =>
      match s with
      | EmptyString => false
      | String _ r => test_ci lit r
      end
  end.

Definition deriveRoomTokenFromText (raw_text : string) : option string :=
  let trimmed := Str.trim raw_text in
  if Str.is_empty trimmed then None
  else
    let firstLine := Str.trim (Str.first_line trimmed) in
    match search_room_number "bed" firstLine with
    | Some digits => Some ("Bed" ++ digits)
    | None =>
        match search_room_number "bath" firstLine with
        | Some digits => Some ("Bath" ++ digits)
        | None =>
            if test_ci "game" firstLine then Some "Game"
            else
              let normalized := normalizeToken firstLine in
              match first_matching_keyword normalized with
              | Some info => Some (raw info)
              | None =>
                  let fallback :=
                    Str.replace_runs (fun c => negb (Char.is_alnum c)) ""
                      firstLine in
                  if Str.is_empty fallback then None else Some fallback
              end
        end
    end.

(** ** The scene graph

    What the plugin reads of a node and never writes ([type], [x], [y],
    [characters], whether it has a [fills] property, its [children]) is held
    in the tree.  What it writes ([name], [fills]) is held in a store keyed by
    the identity of the node, so that a node reached along two paths is one
    object.  Coordinates are only compared, so integers stand for them. *)

Inductive NodeType : Type :=
  | RECTANGLE | ELLIPSE | POLYGON | STAR | VECTOR | BOOLEAN_OPERATION | LINE
  | TEXT | FRAME | GROUP | COMPONENT | INSTANCE | SLICE.

Inductive Paint : Type :=
  | SOLID (r g b : Q)
  | IMAGE (imageHash : string).

Inductive SceneNode : Type :=
  mkNode (id : nat) (type : NodeType) (x y : Z) (characters : string)
         (has_fills : bool) (children : option (list SceneNode)).

Definition node_id (n : SceneNode) : nat :=
  match n with mkNode id _ _ _ _ _ _ => id end.
Definition node_type (n : SceneNode) : NodeType :=
  match n with mkNode _ type _ _ _ _ _ => type end.
Definition node_x (n : SceneNode) : Z :=
  match n with mkNode _ _ x _ _ _ _ => x end.
Definition node_y (n : SceneNode) : Z :=
  match n with mkNode _ _ _ y _ _ _ => y end.
Definition node_characters (n : SceneNode) : string :=
  match n with mkNode _ _ _ _ characters _ _ => characters end.
Definition node_has_fills (n : SceneNode) : bool :=
  match n with mkNode _ _ _ _ _ has_fills _ => has_fills end.
Definition node_children (n : SceneNode) : option (list SceneNode) :=
  match n with mkNode _ _ _ _ _ _ children => children end.

Record Scene : Type := mkScene {
  names : gmap nat string;
  fills : gmap nat (list Paint)
}.

(** [node.name]. *)
Definition name_of (sc : Scene) (n : SceneNode) : string :=
  default EmptyString (names sc !! node_id n).

(** The descendants of a node in document order, parents before children:
    the order in which [findOne] and [findAll] visit them. *)
Fixpoint descendants (n : SceneNode) : list SceneNode :=
  match n with
  | mkNode _ _ _ _ _ _ (Some cs) =>
      (fix walk (l : list SceneNode) : list SceneNode :=
         match l with
         | [] => []
         | c :: l' => c :: descendants c ++ walk l'
         end) cs
  | mkNode _ _ _ _ _ _ None => []
  end.

Definition findOne (root : SceneNode) (p : SceneNode -> bool)
    : option SceneNode :=
  List.find p (descendants root).

Definition findAll (root : SceneNode) (p : SceneNode -> bool)
    : list SceneNode :=
  List.filter p (descendants root).

(** ['children' in node]. *)
Definition has_children (n : SceneNode) : bool :=
  match node_children n with Some _ => true | None => false end.

Definition hasFills (n : SceneNode) : bool := node_has_fills n.

Definition isImageLayer (n : SceneNode) : bool :=
  if negb (hasFills n) then false
  else match node_type n with
       | RECTANGLE | ELLIPSE | POLYGON | STAR | VECTOR
       | BOOLEAN_OPERATION | LINE => true
       | _ => false
       end.

Definition is_text (n : SceneNode) : bool :=
  match node_type n with TEXT => true | _ => false end.

(** ** The auto-seeder *)

Record AutoSeedResult : Type := mkResult {
  renamedLayers : nat;
  processedBlocks : nat;
  issues : list string
}.

(** The local variables of [autoSeedRoomNames] together with the scene it
    mutates. *)
Record SeedState : Type := mkSeed {
  seed_result : AutoSeedResult;
  seed_scene : Scene
}.

Definition dquote : string := String "034" EmptyString.

Definition push_issue (msg : string) (st : SeedState) : SeedState :=
  let r := seed_result st in
  mkSeed (mkResult (renamedLayers r) (processedBlocks r) (issues r ++ [msg]))
         (seed_scene st).

Definition count_block (st : SeedState) : SeedState :=
  let r := seed_result st in
  mkSeed (mkResult (renamedLayers r) (processedBlocks r + 1) (issues r))
         (seed_scene st).

(** The placeholder colour [{ r: 0.53, g: 0.73, b: 0.93 }]. *)
Definition placeholder_fills : list Paint :=
  [SOLID (53 # 100) (73 # 100) (93 # 100)].

(** The body shared by the two renaming loops: [img.name = new_name],
    [img.fills = [placeholder]], [renamedLayers += 1]. *)
Definition rename_layer (img : SceneNode) (new_name : string)
    (st : SeedState) : SeedState :=
  let r := seed_result st in
  let sc := seed_scene st in
  mkSeed (mkResult (renamedLayers r + 1) (processedBlocks r) (issues r))
         (mkScene (<[node_id img := new_name]> (names sc))
                  (<[node_id img := placeholder_fills]> (fills sc))).

(** The comparator of [imageNodes.sort]: top to bottom, then left to
    right. *)
Definition by_position (a b : SceneNode) : Z :=
  if negb (node_y a =? node_y b)%Z then (node_y a - node_y b)%Z
  else (node_x a - node_x b)%Z.

Definition owners_pattern : list string :=
  [ "Owners_1"; "Owners_2"; "Owners_Bath_1"; "Owners_Bath_2"; "Owners_WIC_1" ].

(** The name given at position [i] of an Owners-Suite block. *)
Definition owners_name (i : nat) : string :=
  if i <? List.length owners_pattern
  then nth i owners_pattern EmptyString
  else "Owners_" ++ Str.of_nat (i + 1).

(** [for (let i = 0; i < imageNodes.length; i++)], from index [i] on. *)
Fixpoint seed_owners (i : nat) (imageNodes : list SceneNode)
    (st : SeedState) : SeedState :=
  match imageNodes with
  | [] => st
  | img :: rest => seed_owners (S i) rest (rename_layer img (owners_name i) st)
  end.

(** [for (const img of imageNodes)] with its counter [index]. *)
Fixpoint seed_default (token : string) (index : nat)
    (imageNodes : list SceneNode) (st : SeedState) : SeedState :=
  match imageNodes with
  | [] => st
  | img :: rest =>
      seed_default token (index + 1) rest
        (rename_layer img (token ++ "_" ++ Str.of_nat index) st)
  end.

Definition block_issue (sc : Scene) (block : SceneNode) (what : string)
    : string :=
  "Block " ++ dquote ++ name_of sc block ++ dquote ++ what.

(** One iteration of the loop over the blocks. *)
Definition seed_block (block : SceneNode) (st : SeedState) : SeedState :=
  match findOne block is_text with
  | None =>
      push_issue
        (block_issue (seed_scene st) block
           ": no text node found for room title.") st
  | Some titleNode =>
      let title := Str.trim (node_characters titleNode) in
      if Str.is_empty title then
        push_issue
          (block_issue (seed_scene st) block ": title text is empty.") st
      else
        let imageNodes := findAll block isImageLayer in
        if List.length imageNodes =? 0 then
          push_issue
            (block_issue (seed_scene st) block
               ": no image layers found to rename.") st
        else
          let imageNodes := Array_sort by_position imageNodes in
          if isOwnersSuiteTitle title then
            count_block (seed_owners 0 imageNodes st)
          else
            match deriveRoomTokenFromText title with
            | None =>
                push_issue
                  (block_issue (seed_scene st) block
                     (": could not derive room token from " ++ dquote
                      ++ title ++ dquote ++ "."))
                  st
            | Some token =>
                if Str.is_empty token then
                  push_issue
                    (block_issue (seed_scene st) block
                       (": could not derive room token from " ++ dquote
                        ++ title ++ dquote ++ "."))
                    st
                else count_block (seed_default token 1 imageNodes st)
            end
    end.

Fixpoint seed_blocks (blocks : list SceneNode) (st : SeedState) : SeedState :=
  match blocks with
  | [] => st
  | block :: rest => seed_blocks rest (seed_block block st)
  end.

(** [container.children.filter((node) => 'children' in node)]; the type of
    [container] says that it has children. *)
Definition blocks_of (container : SceneNode) : list SceneNode :=
  List.filter has_children (default [] (node_children container)).

Definition autoSeedRoomNames (container : SceneNode) (sc : Scene)
    : AutoSeedResult * Scene :=
  let st := mkSeed (mkResult 0 0 []) sc in
  let blocks := blocks_of container in
  if List.length blocks =? 0 then
    (mkResult 0 0
       ["No room blocks found. Expected child groups/frames under the selected node."],
     sc)
  else
    let st := seed_blocks blocks st in
    (seed_result st, seed_scene st).

(** ** Layers by name *)

Definition namesMatch (a b : string) : bool :=
  String.eqb (normalizeToken a) (normalizeToken b).

(** [container.findOne(...)]: the first descendant that has fills and whose
    name, as the scene has it now, normalises like the target. *)
Definition findLayerByName (container : SceneNode) (sc : Scene)
    (targetName : string) : option SceneNode :=
  let targetNorm := normalizeToken targetName in
  findOne container
    (fun node =>
       if negb (hasFills node) then false
       else String.eqb (normalizeToken (name_of sc node)) targetNorm).

(** ** The selection *)

(** [figma.currentPage.selection] is given as the list of selected nodes; the
    result is the error text or the container.  The last branch of the [match]
    stands for [selection[0]] of an empty array and is never reached. *)
Definition getSelectedContainer (selection : list SceneNode)
    : string + SceneNode :=
  if List.length selection =? 0 then
    inl "No frame selected. Please select a single frame (or group/component) containing your room layout and try again."
  else if 1 <? List.length selection then
    inl "Multiple nodes selected. Please select a single frame (or group/component) containing your room layout and try again."
  else
    match selection with
    | node :: _ =>
        if has_children node then inr node
        else
          inl "Selected node cannot contain layers. Please select a frame, group, component, or instance that contains the image layers."
    | [] => inl EmptyString
    end.

(** ** The upload of images

    What the host provides: [figma.createImage], which returns an image with
    its hash or throws, and the [locked] property of the nodes, which the
    plugin reads and never writes (false where the property is absent).  A
    node is told from another by its id. *)

Record UploaderImage : Type := mkImage {
  image_name : string;
  image_data : list Byte.byte
}.

Inductive CreateImageResult : Type :=
  | ImageHandle (hash : string)
  | ImageFailure (err : string).

Record Host : Type := mkHost {
  createImage : list Byte.byte -> CreateImageResult;
  locked : nat -> bool
}.

(** The local variables of the upload loop together with the scene. *)
Record UploadState : Type := mkUpload {
  updatedCount : nat;
  notFoundLayers : list string;
  upload_scene : Scene
}.

(** The arrow of the diagnostics, U+2192 between two spaces.  Its code unit
    is above 255; it stands here as its three UTF-8 bytes.  The plugin writes
    it and never reads it. *)
Definition arrow : string :=
  String " " (String "226" (String "134" (String "146" (String " " ""))))%char.

Definition push_not_found (msg : string) (st : UploadState) : UploadState :=
  mkUpload (updatedCount st) (notFoundLayers st ++ [msg]) (upload_scene st).

(** [n] is among the children of [p]. *)
Definition is_child_of (n p : SceneNode) : bool :=
  match node_children p with
  | Some cs => existsb (fun c => node_id c =? node_id n) cs
  | None => false
  end.

(** [node.parent] for a node under [root]. *)
Definition parent_of (root n : SceneNode) : option SceneNode :=
  List.find (is_child_of n) (root :: descendants root).

Definition set_fills (n : SceneNode) (paints : list Paint) (sc : Scene)
    : Scene :=
  mkScene (names sc) (<[node_id n := paints]> (fills sc)).

Definition set_name (n : SceneNode) (new_name : string) (sc : Scene)
    : Scene :=
  mkScene (<[node_id n := new_name]> (names sc)) (fills sc).

(** The body of the [try] once the image exists. *)
Definition apply_image (container matchingNode : SceneNode)
    (name targetLayerName imageHash : string) (sc : Scene) : Scene :=
  let sc := set_fills matchingNode [IMAGE imageHash] sc in
  let newName := stripExtension name in
  let sc := set_name matchingNode newName sc in
  match parent_of container matchingNode with
  | Some parent =>
      if namesMatch (name_of sc parent) targetLayerName
      then set_name parent newName sc
      else sc
  | None => sc
  end.

(** One iteration of the loop over the images. *)
Definition upload_image (host : Host) (container : SceneNode)
    (imageData : UploaderImage) (st : UploadState) : UploadState :=
  let name := image_name imageData in
  let data := image_data imageData in
  let sc := upload_scene st in
  match parseFilenameToTargetLayer name with
  | None =>
      push_not_found
        (name ++ arrow
         ++ "No room keyword found (expected something like Kitchen, Owners, Bed2, Bath3, Game, CoveredPatio, Patio, etc.).")
        st
  | Some targetLayerName =>
      if Str.is_empty targetLayerName then
        push_not_found
          (name ++ arrow
           ++ "No room keyword found (expected something like Kitchen, Owners, Bed2, Bath3, Game, CoveredPatio, Patio, etc.).")
          st
      else
        match findLayerByName container sc targetLayerName with
        | None =>
            push_not_found
              (name ++ arrow ++ "Could not find layer " ++ dquote
               ++ targetLayerName ++ dquote ++ " in the selected frame.")
              st
        | Some matchingNode =>
            if negb (hasFills matchingNode) then
              push_not_found
                (name ++ arrow ++ "Layer " ++ dquote
                 ++ name_of sc matchingNode ++ dquote
                 ++ " cannot accept image fills.")
                st
            else if locked host (node_id matchingNode) then
              push_not_found
                (name ++ arrow ++ "Layer " ++ dquote
                 ++ name_of sc matchingNode ++ dquote
                 ++ " is locked in Figma.")
                st
            else
              match createImage host data with
              | ImageHandle imageHash =>
                  mkUpload (updatedCount st + 1) (notFoundLayers st)
                    (apply_image container matchingNode name targetLayerName
                       imageHash sc)
              | ImageFailure err =>
                  push_not_found
                    (name ++ arrow ++ "Failed to apply image to " ++ dquote
                     ++ name_of sc matchingNode ++ dquote ++ ". Error: "
                     ++ err)
                    st
              end
        end
  end.

Fixpoint upload_loop (host : Host) (container : SceneNode)
    (images : list UploaderImage) (st : UploadState) : UploadState :=
  match images with
  | [] => st
  | imageData :: rest =>
      upload_loop host container rest (upload_image host container imageData st)
  end.

(** ** The message handler *)

(** What the UI sends: [msg.type] and, for an upload, [msg.images], which may
    be missing. *)
Inductive UiMessage : Type :=
  | UploadImages (images : option (list UploaderImage))
  | AutoSeedRoomNamesRequest
  | OtherMessage.

(** What the plugin posts back. *)
Inductive PluginMessage : Type :=
  | UploadComplete (updated total : nat) (notFound : list string)
  | AutoSeedComplete (renamed processed : nat) (issueList : list string).

Definition handle_upload (host : Host) (selection : list SceneNode)
    (msg_images : option (list UploaderImage)) (sc : Scene)
    : PluginMessage * Scene :=
  let images := default [] msg_images in
  let totalImages := List.length images in
  if totalImages =? 0 then
    (UploadComplete 0 totalImages ["No images received from the UI."], sc)
  else
    match getSelectedContainer selection with
    | inl error => (UploadComplete 0 totalImages [error], sc)
    | inr container =>
        let st := upload_loop host container images (mkUpload 0 [] sc) in
        (UploadComplete (updatedCount st) totalImages (notFoundLayers st),
         upload_scene st)
    end.

Definition handle_auto_seed (selection : list SceneNode) (sc : Scene)
    : PluginMessage * Scene :=
  match getSelectedContainer selection with
  | inl error => (AutoSeedComplete 0 0 [error], sc)
  | inr container =>
      let '(result, sc') := autoSeedRoomNames container sc in
      (AutoSeedComplete (renamedLayers result) (processedBlocks result)
         (issues result),
       sc')
  end.

(** [figma.ui.onmessage]: the message posted back, if any, and the scene. *)
Definition onmessage (host : Host) (selection : list SceneNode)
    (msg : UiMessage) (sc : Scene) : option PluginMessage * Scene :=
  match msg with
  | UploadImages msg_images =>
      let '(response, sc') := handle_upload host selection msg_images sc in
      (Some response, sc')
  | AutoSeedRoomNamesRequest =>
      let '(response, sc') := handle_auto_seed selection sc in
      (Some response, sc')
  | OtherMessage => (None, sc)
  end.

(** * The vocabulary of the statements

    The definitions below are used to state and to prove the properties;
    they are not part of the program. *)

(** ** Characters and tokens *)

(** The 256 code units of the embedding. *)
Definition all_ascii : list ascii := List.map ascii_of_nat (List.seq 0 256).

(** A token character: a lower-case letter, a digit or an underscore. *)
Definition is_token_char (c : ascii) : bool :=
  Char.is_lower_alnum c || Char.is_underscore c.

(** No two underscores in a row. *)
Fixpoint no_double_underscore (s : string) : bool :=
  match s with
  | EmptyString => true
  | String a r =>
      match r with
      | EmptyString => true
      | String b _ =>
          negb (Char.is_underscore a && Char.is_underscore b)
          && no_double_underscore r
      end
  end.

(** No underscore at the start. *)
Definition no_leading_underscore (s : string) : bool :=
  match s with
  | EmptyString => true
  | String c _ => negb (Char.is_underscore c)
  end.

(** No underscore at the end. *)
Fixpoint no_trailing_underscore (s : string) : bool :=
  match s with
  | EmptyString => true
  | String c EmptyString => negb (Char.is_underscore c)
  | String _ r => no_trailing_underscore r
  end.

(** A normalised token: words of [a-z0-9] joined by single underscores. *)
Definition is_normal (s : string) : bool :=
  Str.all is_token_char s
  && no_double_underscore s
  && no_leading_underscore s
  && no_trailing_underscore s.

(** ** The sort and the catalog *)

(** [a] may stand before [b] in the array sorted by [cmp]. *)
Definition before {A : Type} (cmp : A -> A -> Z) (a b : A) : Prop :=
  (cmp a b <= 0)%Z.

(** The catalog before it is sorted, in the order of declaration. *)
Definition declared_catalog : list RoomKeywordInfo :=
  List.map (fun raw => mkInfo raw (normalizeToken raw)) ROOM_KEYWORDS.

(** The key of the catalog sort. *)
Definition norm_length (info : RoomKeywordInfo) : nat :=
  String.length (norm info).

(** ** The resolver *)

(** From the words of the specification: [kw] occurs in [s] as a whole
    underscore-delimited token, that is between the start of [s] or an
    underscore and the end of [s] or an underscore. *)
Definition whole_token (kw s : string) : Prop :=
  exists pre post,
    s = pre ++ kw ++ post
    /\ (pre = "" \/ exists p, pre = p ++ "_")
    /\ (post = "" \/ exists q, post = "_" ++ q).

(** The right boundary [($|_)] after the keyword. *)
Definition right_boundary (post : string) : Prop :=
  post = "" \/ exists q, post = "_" ++ q.

(** A non-empty group of decimal digits. *)
Definition digit_group (n : string) : Prop :=
  n <> "" /\ Str.all Char.is_digit n = true.

(** [_?]: nothing or one underscore. *)
Definition optional_underscore (u : string) : Prop := u = "" \/ u = "_".

(** [s] is empty or starts outside of [P]. *)
Definition starts_outside (P : ascii -> bool) (s : string) : bool :=
  match s with
  | EmptyString => true
  | String c _ => negb (P c)
  end.

(** From the words of the specification: [<RawKeyword>_<index>] with the
    index a positive integer rendered without leading zeros. *)
Definition is_target_layer_identifier (target : string) : Prop :=
  exists kw n,
    In kw ROOM_KEYWORDS /\ 0 < n /\ target = kw ++ "_" ++ Str.of_nat n.

(** ** The title deriver *)

(** The line on which the deriver works: the first line of the trimmed text,
    trimmed. *)
Definition title_line (text : string) : string :=
  Str.trim (Str.first_line (Str.trim text)).

(** ** The auto-seeder *)

(** What one renaming does to the scene. *)
Definition repaint (img : SceneNode) (new_name : string) (sc : Scene) : Scene :=
  mkScene (<[node_id img := new_name]> (names sc))
          (<[node_id img := placeholder_fills]> (fills sc)).

(** What a renaming loop does to the scene: the node at position [i] of the
    loop gets the name [name_at (k + i)]. *)
Fixpoint repaint_all (name_at : nat -> string) (k : nat)
    (imageNodes : list SceneNode) (sc : Scene) : Scene :=
  match imageNodes with
  | [] => sc
  | img :: rest => repaint_all name_at (S k) rest (repaint img (name_at k) sc)
  end.

(** The name given at counter [index] of the default branch. *)
Definition default_name (token : string) (index : nat) : string :=
  token ++ "_" ++ Str.of_nat index.

(** A result with more renamed layers, processed blocks and issues. *)
Definition add_counts (renamed processed : nat) (new_issues : list string)
    (r : AutoSeedResult) : AutoSeedResult :=
  mkResult (renamedLayers r + renamed) (processedBlocks r + processed)
           (issues r ++ new_issues).

(** The title of a block: the trimmed text of its first text node. *)
Definition block_title (block : SceneNode) : option string :=
  option_map (fun titleNode => Str.trim (node_characters titleNode))
    (findOne block is_text).

(** The image nodes of a block in visual reading order. *)
Definition sorted_image_nodes (block : SceneNode) : list SceneNode :=
  Array_sort by_position (findAll block isImageLayer).

(** The token of the default branch, when there is one. *)
Definition usable_token (title : string) : option string :=
  match deriveRoomTokenFromText title with
  | Some token => if Str.is_empty token then None else Some token
  | None => None
  end.

(** The block reaches a renaming branch. *)
Definition block_processed (block : SceneNode) : bool :=
  match block_title block with
  | None => false
  | Some title =>
      negb (Str.is_empty title)
      && negb (List.length (findAll block isImageLayer) =? 0)
      && (isOwnersSuiteTitle title
          || match usable_token title with Some _ => true | None => false end)
  end.

(** The issue of the block that reaches the default branch without a
    token. *)
Definition no_token_issue (sc : Scene) (block : SceneNode) (title : string)
    : string :=
  block_issue sc block
    (": could not derive room token from " ++ dquote ++ title ++ dquote ++ ".").

(** [a] is above [b], or level with it and not to its right. *)
Definition reading_order (a b : SceneNode) : Prop :=
  (node_y a < node_y b)%Z
  \/ (node_y a = node_y b /\ (node_x a <= node_x b)%Z).

(** The number of image nodes of a block. *)
Definition image_count (block : SceneNode) : nat :=
  List.length (findAll block isImageLayer).

(** The state at the start of [autoSeedRoomNames] on the scene [sc]. *)
Definition zero_state (sc : Scene) : SeedState := mkSeed (mkResult 0 0 []) sc.

(** ** Scenes for the concrete instances *)

(** An Owners-Suite block: a title and six rectangles laid out in two rows
    of three, listed out of reading order. *)
Definition owners_block_example : SceneNode :=
  mkNode 10 FRAME 0 0 "" true
    (Some [ mkNode 11 TEXT 0 0 "Owner's Suite" true None;
            mkNode 12 RECTANGLE 200 100 "" true None;
            mkNode 13 RECTANGLE 0 0 "" true None;
            mkNode 14 RECTANGLE 100 100 "" true None;
            mkNode 15 RECTANGLE 200 0 "" true None;
            mkNode 16 RECTANGLE 0 100 "" true None;
            mkNode 17 RECTANGLE 100 0 "" true None ]).

(** The start of a run on a scene without names and fills. *)
Definition empty_seed_state : SeedState :=
  mkSeed (mkResult 0 0 []) (mkScene ∅ ∅).

(** A container with an Owners-Suite block, a block without a title and a
    child that is no block. *)
Definition container_example : SceneNode :=
  mkNode 1 FRAME 0 0 "" true
    (Some [ owners_block_example;
            mkNode 20 GROUP 0 0 "" false
              (Some [ mkNode 21 RECTANGLE 0 0 "" true None ]);
            mkNode 30 RECTANGLE 0 0 "" true None ]).

(** A block with a title of punctuation only and two image nodes. *)
Definition punctuation_block_example : SceneNode :=
  mkNode 40 FRAME 0 0 "" true
    (Some [ mkNode 41 TEXT 0 0 "---" true None;
            mkNode 42 RECTANGLE 0 0 "" true None;
            mkNode 43 ELLIPSE 50 0 "" true None ]).

(** A block titled Great Room with three image nodes. *)
Definition great_room_block_example : SceneNode :=
  mkNode 50 FRAME 0 0 "" true
    (Some [ mkNode 51 TEXT 0 0 "Great Room" true None;
            mkNode 52 RECTANGLE 0 50 "" true None;
            mkNode 53 RECTANGLE 50 0 "" true None;
            mkNode 54 RECTANGLE 0 0 "" true None ]).

(** ** More vocabulary: names, titles and uploads *)

(** Every underscore of [s] is followed by a lower-case letter. *)
Fixpoint underscores_before_letters (s : string) : bool :=
  match s with
  | EmptyString => true
  | String c r =>
      (if Char.is_underscore c
       then match r with
            | String d _ => Char.is_lower d
            | EmptyString => false
            end
       else true)
      && underscores_before_letters r
  end.

(** [s] starts with a lower-case letter, and so does each of its words. *)
Definition letter_led (s : string) : bool :=
  match s with
  | String c _ => Char.is_lower c
  | EmptyString => false
  end
  && underscores_before_letters s.

(** Some character of [s] is in [P]. *)
Fixpoint some_char (P : ascii -> bool) (s : string) : bool :=
  match s with
  | EmptyString => false
  | String c r => P c || some_char P r
  end.

(** The image nodes of the blocks that reach a renaming branch, in the
    order in which the loops rename them. *)
Definition renamed_nodes (blocks : list SceneNode) : list SceneNode :=
  List.flat_map sorted_image_nodes (List.filter block_processed blocks).

(** The scene after the loop over the blocks. *)
Definition seeded_scene (blocks : list SceneNode) (sc : Scene) : Scene :=
  seed_scene (seed_blocks blocks (zero_state sc)).

(** A separator: a character that is no letter [a-z], [A-Z], no digit, no
    dot and no slash. *)
Definition is_separator (c : ascii) : bool :=
  negb (Char.is_alnum c) && negb (Char.is_dot c) && negb (Char.is_slash c).

(** Two characters that are the same up to case, or two separators. *)
Definition char_alike (a b : ascii) : bool :=
  Ascii.eqb (Char.to_lower a) (Char.to_lower b)
  || (is_separator a && is_separator b).

(** Two texts of one length with characters alike at each place. *)
Fixpoint alike (s t : string) : bool :=
  match s, t with
  | EmptyString, EmptyString => true
  | String a s', String b t' => char_alike a b && alike s' t'
  | _, _ => false
  end.

(** ** The renamings of a run *)

(** The name that the loop of a block gives to the image node at position
    [i] of its list: the name of the Owners-Suite pattern, or the token of
    the title with the counter, which starts at 1. *)
Definition seed_name (block : SceneNode) (i : nat) : string :=
  match block_title block with
  | Some title =>
      if isOwnersSuiteTitle title then owners_name i
      else match usable_token title with
           | Some token => default_name token (1 + i)
           | None => EmptyString
           end
  | None => EmptyString
  end.

(** The nodes of a list, each with the name of its position, counted from
    [k]. *)
Fixpoint name_nodes (name_at : nat -> string) (k : nat)
    (imageNodes : list SceneNode) : list (SceneNode * string) :=
  match imageNodes with
  | [] => []
  | img :: rest => (img, name_at k) :: name_nodes name_at (S k) rest
  end.

(** The renamings of a block that reaches a renaming branch, in the order of
    its loop. *)
Definition block_writes (block : SceneNode) : list (SceneNode * string) :=
  name_nodes (seed_name block) 0 (sorted_image_nodes block).

(** The renamings of a run over the blocks, in the order in which they are
    made. *)
Definition seed_writes (blocks : list SceneNode)
    : list (SceneNode * string) :=
  List.flat_map block_writes (List.filter block_processed blocks).

(** The scene after a list of renamings. *)
Definition apply_writes (writes : list (SceneNode * string)) (sc : Scene)
    : Scene :=
  List.fold_left (fun sc w => repaint (fst w) (snd w) sc) writes sc.

(** The id of the node of a renaming. *)
Definition written_id (w : SceneNode * string) : nat := node_id (fst w).

(** The normal form of the name of a renaming. *)
Definition written_norm (w : SceneNode * string) : string :=
  normalizeToken (snd w).

(** * Properties *)

(** ** Facts about single characters, checked on all 256 of them *)

Lemma forall_ascii (P : ascii -> bool) :
  forallb P all_ascii = true -> forall c, P c = true.
Proof.
  intros H c. rewrite forallb_forall in H. apply H.
  unfold all_ascii. rewrite <- (ascii_nat_embedding c).
  apply in_map, in_seq. pose proof (nat_ascii_bounded c). lia.
Qed.

(** [check_chars] turns a goal [forall c, P c = true] into one evaluation. *)
Ltac check_chars := apply forall_ascii; vm_compute; reflexivity.

Lemma token_char_cases c :
  is_token_char c = true ->
  (Char.is_lower_alnum c = true /\ Char.is_underscore c = false)
  \/ (Char.is_lower_alnum c = false /\ c = "_"%char).
Proof.
  unfold is_token_char, Char.is_underscore.
  destruct (Ascii.eqb_spec c "_") as [->|Hne]; [right; split; reflexivity|].
  rewrite orb_false_r. intros H. left. split; [exact H | reflexivity].
Qed.

Lemma to_lower_token_char c :
  is_token_char c = true -> Char.to_lower c = c.
Proof.
  intros H.
  assert (G : forall c, implb (is_token_char c)
                          (Ascii.eqb (Char.to_lower c) c) = true)
    by check_chars.
  specialize (G c). rewrite H in G. now apply Ascii.eqb_eq.
Qed.

Lemma token_char_not_dot c :
  is_token_char c = true -> Char.is_dot c = false.
Proof.
  intros H.
  assert (G : forall c, implb (is_token_char c) (negb (Char.is_dot c)) = true)
    by check_chars.
  specialize (G c). rewrite H in G. now apply negb_true_iff.
Qed.

Lemma lower_alnum_not_underscore c :
  Char.is_lower_alnum c = true -> Char.is_underscore c = false.
Proof.
  intros H.
  assert (G : forall c, implb (Char.is_lower_alnum c)
                          (negb (Char.is_underscore c)) = true)
    by check_chars.
  specialize (G c). rewrite H in G. now apply negb_true_iff.
Qed.

Lemma underscore_is_token_char : is_token_char "_" = true.
Proof. reflexivity. Qed.

Lemma lower_alnum_is_token_char c :
  Char.is_lower_alnum c = true -> is_token_char c = true.
Proof. unfold is_token_char. intros ->. reflexivity. Qed.

(** ** The normal form of a token *)

Lemma append_cons c s t : String c s ++ t = String c (s ++ t).
Proof. reflexivity. Qed.

Lemma append_empty s : EmptyString ++ s = s.
Proof. reflexivity. Qed.

Lemma no_double_cons c s :
  no_double_underscore (String c s) = true ->
  no_double_underscore s = true
  /\ (Char.is_underscore c = true -> no_leading_underscore s = true).
Proof.
  simpl. destruct s as [|b r]; [intros _; split; reflexivity|].
  intros H. apply andb_true_iff in H as [H1 H2]. split; [exact H2|].
  intros Hc. rewrite Hc in H1. simpl in *. exact H1.
Qed.

Lemma no_double_cons_intro c s :
  no_double_underscore s = true ->
  (Char.is_underscore c = true -> no_leading_underscore s = true) ->
  no_double_underscore (String c s) = true.
Proof.
  intros H1 H2. simpl. destruct s as [|b r]; [reflexivity|].
  rewrite H1, andb_true_r. simpl in H2.
  destruct (Char.is_underscore c); [|reflexivity].
  simpl. now apply H2.
Qed.

(** *** Every stage of [normalizeToken] on its own *)

Section ReplaceRuns.
Variable P : ascii -> bool.

(** When [P] holds exactly of the characters that are not [a-z0-9], the
    replacement yields token characters with single underscores. *)
Hypothesis P_complement :
  forall c, P c = false -> Char.is_lower_alnum c = true.

Lemma replace_runs_token_chars b s :
  Str.all is_token_char (Str.replace_runs_from P "_" b s) = true.
Proof.
  revert b. induction s as [|c r IH]; intros b; simpl; [reflexivity|].
  destruct (P c) eqn:Hc.
  - destruct b; rewrite ?append_cons, ?append_empty; simpl;
      rewrite ?IH; reflexivity.
  - simpl. rewrite IH, (lower_alnum_is_token_char c); auto.
Qed.

Lemma replace_runs_no_double b s :
  no_double_underscore (Str.replace_runs_from P "_" b s) = true
  /\ (b = true ->
      no_leading_underscore (Str.replace_runs_from P "_" b s) = true).
Proof.
  revert b. induction s as [|c r IH]; intros b; simpl; [split; reflexivity|].
  destruct (P c) eqn:Hc.
  - destruct b.
    + apply IH.
    + split; [|discriminate].
      rewrite append_cons, append_empty.
      apply no_double_cons_intro; [apply IH|]. intros _. now apply IH.
  - pose proof (lower_alnum_not_underscore c (P_complement c Hc)) as Hu.
    split.
    + apply no_double_cons_intro; [apply IH|]. rewrite Hu. discriminate.
    + intros _. simpl. now rewrite Hu.
Qed.
End ReplaceRuns.

Section ReplaceRunsIdentity.
Variable P : ascii -> bool.

(** On token characters [P] holds of the underscore only. *)
Hypothesis P_underscore :
  forall c, is_token_char c = true -> P c = Char.is_underscore c.

Lemma replace_runs_identity b s :
  Str.all is_token_char s = true ->
  no_double_underscore s = true ->
  (b = true -> no_leading_underscore s = true) ->
  Str.replace_runs_from P "_" b s = s.
Proof.
  revert b. induction s as [|c r IH]; intros b Ht Hd Hl; [reflexivity|].
  simpl in Ht. apply andb_true_iff in Ht as [Hc Ht].
  apply no_double_cons in Hd as [Hd Hd'].
  simpl. rewrite (P_underscore c Hc).
  destruct (Char.is_underscore c) eqn:Hu.
  - destruct b.
    + specialize (Hl eq_refl). simpl in Hl. now rewrite Hu in Hl.
    + unfold Char.is_underscore in Hu. apply Ascii.eqb_eq in Hu. subst c.
      rewrite append_cons, append_empty. f_equal. apply IH; auto.
  - f_equal. apply IH; auto; discriminate.
Qed.
End ReplaceRunsIdentity.

Lemma all_drop_while P Q s :
  Str.all Q s = true -> Str.all Q (Str.drop_while P s) = true.
Proof.
  induction s as [|c r IH]; [reflexivity|]. intros H. simpl.
  destruct (P c); [|exact H].
  simpl in H. apply andb_true_iff in H as [_ H]. auto.
Qed.

Lemma all_drop_trailing P Q s :
  Str.all Q s = true -> Str.all Q (Str.drop_trailing P s) = true.
Proof.
  induction s as [|c r IH]; [reflexivity|]. intros H.
  cbn [Str.drop_trailing]. destruct (Str.all P (String c r)); [reflexivity|].
  simpl in *. apply andb_true_iff in H as [H1 H2]. now rewrite H1, IH.
Qed.

Lemma no_double_drop_while P s :
  no_double_underscore s = true ->
  no_double_underscore (Str.drop_while P s) = true.
Proof.
  induction s as [|c r IH]; [reflexivity|]. intros H. simpl.
  destruct (P c); [|exact H]. apply no_double_cons in H as [H _]. auto.
Qed.

Lemma no_leading_drop_trailing P s :
  no_leading_underscore s = true ->
  no_leading_underscore (Str.drop_trailing P s) = true.
Proof.
  destruct s as [|c r]; [reflexivity|]. intros H.
  cbn [Str.drop_trailing]. destruct (Str.all P (String c r)); [reflexivity|].
  exact H.
Qed.

Lemma no_double_drop_trailing P s :
  no_double_underscore s = true ->
  no_double_underscore (Str.drop_trailing P s) = true.
Proof.
  induction s as [|c r IH]; [reflexivity|]. intros H.
  cbn [Str.drop_trailing]. destruct (Str.all P (String c r)); [reflexivity|].
  apply no_double_cons in H as [H H'].
  apply no_double_cons_intro; [auto|].
  intros Hc. apply no_leading_drop_trailing. auto.
Qed.

Lemma no_leading_drop_while s :
  no_leading_underscore (Str.drop_while Char.is_underscore s) = true.
Proof.
  induction s as [|c r IH]; [reflexivity|]. simpl.
  destruct (Char.is_underscore c) eqn:Hc; [exact IH|]. simpl. now rewrite Hc.
Qed.

Lemma no_trailing_drop_trailing s :
  no_trailing_underscore (Str.drop_trailing Char.is_underscore s) = true.
Proof.
  induction s as [|c r IH]; [reflexivity|].
  cbn [Str.drop_trailing].
  destruct (Str.all Char.is_underscore (String c r)) eqn:Ha; [reflexivity|].
  destruct r as [|d r'].
  - simpl in *. rewrite andb_true_r in Ha. now rewrite Ha.
  - cbn [Str.drop_trailing] in *.
    destruct (Str.all Char.is_underscore (String d r')) eqn:Hr.
    + simpl. simpl in Ha. simpl in Hr. rewrite Hr, andb_true_r in Ha.
      now rewrite Ha.
    + exact IH.
Qed.

Lemma drop_while_identity s :
  no_leading_underscore s = true -> Str.drop_while Char.is_underscore s = s.
Proof.
  destruct s as [|c r]; [reflexivity|]. simpl.
  now destruct (Char.is_underscore c).
Qed.

Lemma all_underscore_trailing s :
  Str.all Char.is_underscore s = true -> s <> EmptyString ->
  no_trailing_underscore s = false.
Proof.
  induction s as [|c r IH]; [congruence|]. intros H _.
  simpl in H. apply andb_true_iff in H as [Hc Hr].
  destruct r as [|d r']; [simpl; now rewrite Hc|].
  change (no_trailing_underscore (String d r') = false).
  apply IH; [exact Hr | discriminate].
Qed.

Lemma drop_trailing_identity s :
  no_trailing_underscore s = true ->
  Str.drop_trailing Char.is_underscore s = s.
Proof.
  induction s as [|c r IH]; [reflexivity|]. intros H.
  cbn [Str.drop_trailing].
  destruct (Str.all Char.is_underscore (String c r)) eqn:Ha.
  - rewrite all_underscore_trailing in H; [discriminate|exact Ha|discriminate].
  - f_equal. apply IH. destruct r; [reflexivity|exact H].
Qed.

Lemma strip_underscores_normal s :
  Str.all is_token_char s = true ->
  no_double_underscore s = true ->
  is_normal (strip_underscores s) = true.
Proof.
  intros Ht Hd. unfold is_normal, strip_underscores.
  rewrite all_drop_trailing by now apply all_drop_while.
  rewrite no_double_drop_trailing by now apply no_double_drop_while.
  rewrite no_leading_drop_trailing by apply no_leading_drop_while.
  now rewrite no_trailing_drop_trailing.
Qed.

Lemma toLowerCase_identity s :
  Str.all is_token_char s = true -> Str.toLowerCase s = s.
Proof.
  induction s as [|c r IH]; [reflexivity|]. simpl. intros H.
  apply andb_true_iff in H as [Hc Hr].
  unfold Str.toLowerCase in *. simpl.
  now rewrite to_lower_token_char, IH.
Qed.

Lemma stripExtension_identity s :
  Str.all is_token_char s = true -> stripExtension s = s.
Proof.
  induction s as [|c r IH]; [reflexivity|]. simpl. intros H.
  apply andb_true_iff in H as [Hc Hr].
  now rewrite token_char_not_dot, IH.
Qed.

Lemma non_lower_alnum_complement c :
  negb (Char.is_lower_alnum c) = false -> Char.is_lower_alnum c = true.
Proof. now destruct (Char.is_lower_alnum c). Qed.

Lemma non_lower_alnum_underscore c :
  is_token_char c = true ->
  negb (Char.is_lower_alnum c) = Char.is_underscore c.
Proof.
  intros H. destruct (token_char_cases c H) as [[-> ->]|[-> ->]]; reflexivity.
Qed.

(** The result of [normalizeToken] is a normalised token. *)
Lemma normalizeToken_normal x : is_normal (normalizeToken x) = true.
Proof.
  unfold normalizeToken, Str.replace_runs.
  set (a := Str.replace_runs_from _ "_" false (stripExtension _)).
  assert (Ha : Str.all is_token_char a = true)
    by apply replace_runs_token_chars, non_lower_alnum_complement.
  assert (Hd : no_double_underscore a = true)
    by apply replace_runs_no_double, non_lower_alnum_complement.
  rewrite (replace_runs_identity Char.is_underscore) by auto || discriminate.
  now apply strip_underscores_normal.
Qed.

(** [normalizeToken] leaves a normalised token as it is. *)
Lemma normalizeToken_fixpoint y :
  is_normal y = true -> normalizeToken y = y.
Proof.
  unfold is_normal. intros H.
  apply andb_true_iff in H as [H Htr].
  apply andb_true_iff in H as [H Hle].
  apply andb_true_iff in H as [Ht Hd].
  unfold normalizeToken, Str.replace_runs, strip_underscores.
  rewrite toLowerCase_identity, stripExtension_identity by assumption.
  rewrite (replace_runs_identity (fun c => negb (Char.is_lower_alnum c)))
    by (auto using non_lower_alnum_underscore || discriminate).
  rewrite (replace_runs_identity Char.is_underscore)
    by (auto || discriminate).
  now rewrite drop_while_identity, drop_trailing_identity.
Qed.

(** C6.  The normaliser is idempotent: normalising a normalised text changes
    nothing, for every input; and the empty text normalises to the empty
    text. *)
Theorem normalizeToken_idempotent :
  (forall x, normalizeToken (normalizeToken x) = normalizeToken x)
  /\ normalizeToken "" = "".
Proof.
  split; [|reflexivity].
  intros x. apply normalizeToken_fixpoint, normalizeToken_normal.
Qed.

(** ** The sort *)

Section ArraySortFacts.
Context {A : Type} (cmp : A -> A -> Z).

Lemma sort_insert_perm x l : Permutation (x :: l) (sort_insert cmp x l).
Proof.
  induction l as [|y l IH]; simpl; [reflexivity|].
  destruct (cmp x y <=? 0)%Z; [reflexivity|].
  rewrite perm_swap. now apply perm_skip.
Qed.

Lemma Array_sort_perm l : Permutation l (Array_sort cmp l).
Proof.
  induction l as [|x l IH]; simpl; [reflexivity|].
  rewrite <- sort_insert_perm. now apply perm_skip.
Qed.

Lemma Array_sort_length l : List.length (Array_sort cmp l) = List.length l.
Proof. symmetry. apply Permutation_length, Array_sort_perm. Qed.

(** Elements of one class of ties keep their order, whatever the class. *)
Section Stable.
Variable tie : A -> bool.
Hypothesis tie_before :
  forall a b, tie a = true -> tie b = true -> before cmp a b.

Lemma sort_insert_filter x l :
  List.filter tie (sort_insert cmp x l) = List.filter tie (x :: l).
Proof.
  induction l as [|y l IH]; [reflexivity|].
  cbn [sort_insert].
  destruct (cmp x y <=? 0)%Z eqn:Hc; [reflexivity|].
  cbn [List.filter] in *. rewrite IH.
  destruct (tie x) eqn:Hx, (tie y) eqn:Hy; try reflexivity.
  apply Z.leb_gt in Hc. specialize (tie_before x y Hx Hy).
  unfold before in tie_before. lia.
Qed.

Lemma Array_sort_stable l :
  List.filter tie (Array_sort cmp l) = List.filter tie l.
Proof.
  induction l as [|x l IH]; [reflexivity|].
  cbn [Array_sort]. rewrite sort_insert_filter.
  cbn [List.filter]. now rewrite IH.
Qed.
End Stable.

Section Sorted.
Hypothesis cmp_total : forall a b, (0 < cmp a b)%Z -> before cmp b a.
Hypothesis cmp_trans :
  forall a b c, before cmp a b -> before cmp b c -> before cmp a c.

Lemma sort_insert_sorted x l :
  StronglySorted (before cmp) l ->
  StronglySorted (before cmp) (sort_insert cmp x l).
Proof.
  induction 1 as [|y l Hs IH Hy]; simpl.
  - constructor; constructor.
  - destruct (cmp x y <=? 0)%Z eqn:Hc.
    + apply Z.leb_le in Hc. constructor.
      * now constructor.
      * constructor; [exact Hc|].
        eapply List.Forall_impl; [|exact Hy]. intros z. now apply cmp_trans.
    + apply Z.leb_gt in Hc. constructor; [exact IH|].
      eapply Permutation_Forall; [apply sort_insert_perm|].
      constructor; [now apply cmp_total | exact Hy].
Qed.

Lemma Array_sort_sorted l : StronglySorted (before cmp) (Array_sort cmp l).
Proof.
  induction l as [|x l IH]; simpl; [constructor|].
  now apply sort_insert_sorted.
Qed.
End Sorted.
End ArraySortFacts.

Lemma StronglySorted_weaken {A : Type} (R R' : A -> A -> Prop) l :
  (forall a b, R a b -> R' a b) ->
  StronglySorted R l -> StronglySorted R' l.
Proof.
  intros HR. induction 1 as [|x l Hs IH Hx]; constructor; [exact IH|].
  eapply List.Forall_impl; [|exact Hx]. intros b. apply HR.
Qed.

(** ** The catalog *)

Lemma catalog_sorted :
  StronglySorted (fun a b => norm_length b <= norm_length a) ROOM_KEYWORD_INFO.
Proof.
  apply (StronglySorted_weaken (before by_norm_length_desc)).
  - unfold before, by_norm_length_desc, norm_length. intros a b. lia.
  - apply Array_sort_sorted.
    + unfold before, by_norm_length_desc. intros a b. lia.
    + unfold before, by_norm_length_desc. intros a b c. lia.
Qed.

Lemma catalog_stable n :
  List.filter (fun i => norm_length i =? n) ROOM_KEYWORD_INFO
  = List.filter (fun i => norm_length i =? n) declared_catalog.
Proof.
  apply Array_sort_stable. intros a b Ha Hb.
  apply Nat.eqb_eq in Ha, Hb.
  unfold before, by_norm_length_desc, norm_length in *. lia.
Qed.

Lemma catalog_perm : Permutation declared_catalog ROOM_KEYWORD_INFO.
Proof. apply Array_sort_perm. Qed.

Lemma catalog_in info :
  In info ROOM_KEYWORD_INFO ->
  In (raw info) ROOM_KEYWORDS /\ norm info = normalizeToken (raw info).
Proof.
  intros H. apply (Permutation_in _ (Permutation_sym catalog_perm)) in H.
  unfold declared_catalog in H. apply in_map_iff in H as (r & <- & Hr).
  split; [exact Hr | reflexivity].
Qed.

(** C2, as stated: the claim that no two entries of the catalog have
    normalised forms of equal length fails; [Owners_Bath] and [Kitchenette]
    both have length 11. *)
Lemma catalog_equal_lengths_occur :
  ~ (forall a b, In a ROOM_KEYWORD_INFO -> In b ROOM_KEYWORD_INFO ->
                 a <> b -> norm_length a <> norm_length b).
Proof.
  intros H.
  apply (H (mkInfo "Owners_Bath" "owners_bath")
           (mkInfo "Kitchenette" "kitchenette")).
  - vm_compute. tauto.
  - vm_compute. tauto.
  - discriminate.
  - reflexivity.
Qed.

(** C2, amended.  The catalog holds the keywords of the list, each with its
    normalised form; it is sorted by descending length of the normalised
    form; entries of equal length (there are some) stand in their order of
    declaration; and no two entries have the same normalised form. *)
Theorem catalog_ordering :
  Permutation declared_catalog ROOM_KEYWORD_INFO
  /\ (forall info, In info ROOM_KEYWORD_INFO ->
        In (raw info) ROOM_KEYWORDS /\ norm info = normalizeToken (raw info))
  /\ StronglySorted (fun a b => norm_length b <= norm_length a)
       ROOM_KEYWORD_INFO
  /\ (forall n,
        List.filter (fun i => norm_length i =? n) ROOM_KEYWORD_INFO
        = List.filter (fun i => norm_length i =? n) declared_catalog)
  /\ List.NoDup (List.map norm ROOM_KEYWORD_INFO)
  /\ (exists a b, In a ROOM_KEYWORD_INFO /\ In b ROOM_KEYWORD_INFO
                  /\ a <> b /\ norm_length a = norm_length b).
Proof.
  split; [exact catalog_perm|].
  split; [exact catalog_in|].
  split; [exact catalog_sorted|].
  split; [exact catalog_stable|].
  split.
  - apply (proj2 (List.NoDup_count_occ' string_dec _)). intros x Hx.
    vm_compute in Hx.
    repeat (destruct Hx as [<-|Hx]; [vm_compute; reflexivity|]).
    destruct Hx.
  - exists (mkInfo "Owners_Bath" "owners_bath"),
           (mkInfo "Kitchenette" "kitchenette").
    repeat split; [vm_compute; tauto | vm_compute; tauto | discriminate].
Qed.

(** ** The boundary pattern finds whole tokens *)

Lemma in_all_ascii c : In c all_ascii.
Proof.
  unfold all_ascii. rewrite <- (ascii_nat_embedding c).
  apply in_map, in_seq. pose proof (nat_ascii_bounded c). lia.
Qed.

(** On token characters the [i] flag changes nothing. *)
Lemma eqb_ci_token_char a b :
  is_token_char a = true -> is_token_char b = true ->
  Char.eqb_ci a b = Ascii.eqb a b.
Proof.
  intros Ha Hb.
  assert (G : forall a,
             forallb (fun b =>
               implb (is_token_char a && is_token_char b)
                     (Bool.eqb (Char.eqb_ci a b) (Ascii.eqb a b)))
               all_ascii = true) by check_chars.
  specialize (G a). rewrite forallb_forall in G.
  specialize (G b (in_all_ascii b)). rewrite Ha, Hb in G. simpl in G.
  now apply Bool.eqb_prop.
Qed.

Lemma strip_prefix_ci_spec kw s r :
  Str.all is_token_char kw = true -> Str.all is_token_char s = true ->
  (Str.strip_prefix_ci kw s = Some r <-> s = kw ++ r).
Proof.
  revert s. induction kw as [|a kw IH]; intros s Hk Hs; simpl.
  - split; [intros [= ->]; reflexivity | intros ->; reflexivity].
  - simpl in Hk. apply andb_true_iff in Hk as [Ha Hk].
    destruct s as [|b s]; [split; discriminate|].
    simpl in Hs. apply andb_true_iff in Hs as [Hb Hs].
    rewrite eqb_ci_token_char by assumption.
    rewrite append_cons.
    destruct (Ascii.eqb_spec a b) as [->|Hne].
    + rewrite IH by assumption. split; [intros ->; reflexivity|].
      intros [= ->]. reflexivity.
    + split; [discriminate|]. intros [= E _]. congruence.
Qed.

Lemma all_append P s t :
  Str.all P (s ++ t) = Str.all P s && Str.all P t.
Proof.
  induction s as [|c s IH]; [reflexivity|].
  rewrite append_cons. simpl. now rewrite IH, andb_assoc.
Qed.

Lemma append_assoc s t u : (s ++ t) ++ u = s ++ t ++ u.
Proof.
  induction s as [|c s IH]; [reflexivity|].
  rewrite !append_cons. now rewrite IH.
Qed.

Lemma append_empty_r s : s ++ "" = s.
Proof.
  induction s as [|c s IH]; [reflexivity|]. rewrite append_cons. now rewrite IH.
Qed.

Lemma length_append s t :
  String.length (s ++ t) = String.length s + String.length t.
Proof.
  induction s as [|c s IH]; [reflexivity|].
  rewrite append_cons. simpl. now rewrite IH.
Qed.

Lemma match_keyword_end_spec kw s :
  Str.all is_token_char kw = true -> Str.all is_token_char s = true ->
  (match_keyword_end kw s <> None
   <-> exists post, s = kw ++ post /\ right_boundary post).
Proof.
  intros Hk Hs. unfold match_keyword_end.
  destruct (Str.strip_prefix_ci kw s) as [r|] eqn:E.
  - apply strip_prefix_ci_spec in E; [|assumption..]. subst s.
    rewrite all_append in Hs. apply andb_true_iff in Hs as [_ Hr].
    destruct r as [|c r].
    + split; [|discriminate]. intros _. exists "". split; [reflexivity|].
      now left.
    + simpl in Hr. apply andb_true_iff in Hr as [Hc _].
      rewrite eqb_ci_token_char by (assumption || reflexivity).
      destruct (Ascii.eqb_spec "_" c) as [<-|Hne].
      * split; [|discriminate]. intros _. exists (String "_" r).
        split; [reflexivity|]. right. now exists r.
      * split; [congruence|]. intros (post & Hp & Hb).
        assert (Ep : String c r = post).
        { clear -Hp. induction kw as [|a kw IH]; [exact Hp|].
          rewrite !append_cons in Hp. injection Hp as Hp. auto. }
        subst post. destruct Hb as [Hb|[q Hq]]; [discriminate|].
        rewrite append_cons in Hq. congruence.
  - split; [congruence|]. intros (post & Hp & _).
    apply (strip_prefix_ci_spec kw s post Hk Hs) in Hp. congruence.
Qed.

(** The pattern at one offset: after the start of the text (when the offset
    is 0) or after an underscore. *)
Lemma match_boundary_at_spec kw b s :
  Str.all is_token_char kw = true -> Str.all is_token_char s = true ->
  (match_boundary_at kw b s <> None
   <-> (b = true /\ exists post, s = kw ++ post /\ right_boundary post)
       \/ (exists post, s = "_" ++ kw ++ post /\ right_boundary post)).
Proof.
  intros Hk Hs. unfold match_boundary_at.
  assert (Alt2 :
    match s with
    | String c r =>
        if Char.eqb_ci "_" c then option_map S (match_keyword_end kw r)
        else None
    | EmptyString => None
    end <> None
    <-> exists post, s = "_" ++ kw ++ post /\ right_boundary post).
  { destruct s as [|c r].
    - split; [congruence|]. intros (post & Hp & _). discriminate.
    - simpl in Hs. apply andb_true_iff in Hs as [Hc Hr].
      rewrite eqb_ci_token_char by (assumption || reflexivity).
      destruct (Ascii.eqb_spec "_" c) as [<-|Hne].
      + pose proof (match_keyword_end_spec kw r Hk Hr) as M.
        destruct (match_keyword_end kw r); simpl.
        * split; [|discriminate]. intros _.
          destruct (proj1 M) as (post & -> & Hb); [discriminate|].
          exists post. split; [reflexivity | exact Hb].
        * split; [congruence|]. intros (post & Hp & Hb).
          rewrite append_cons, append_empty in Hp. injection Hp as ->.
          exfalso. apply (proj2 M); [|reflexivity]. now exists post.
      + split; [congruence|]. intros (post & Hp & _).
        rewrite append_cons in Hp. congruence. }
  destruct b.
  - pose proof (match_keyword_end_spec kw s Hk Hs) as M.
    destruct (match_keyword_end kw s).
    + split; [|discriminate]. intros _. left. split; [reflexivity|].
      apply M. discriminate.
    + rewrite Alt2. split; [now right|].
      intros [[_ H]|H]; [|exact H].
      exfalso. apply (proj2 M); [exact H | reflexivity].
  - rewrite Alt2. split; [now right|].
    intros [[H _]|H]; [discriminate | exact H].
Qed.

Lemma match_boundary_at_mono kw s :
  match_boundary_at kw false s <> None -> match_boundary_at kw true s <> None.
Proof.
  unfold match_boundary_at. now destruct (match_keyword_end kw s).
Qed.

Lemma search_boundary_complete kw post p :
  Str.all is_token_char kw = true ->
  Str.all is_token_char (p ++ "_" ++ kw ++ post) = true ->
  right_boundary post ->
  forall b off,
    search_boundary kw b off (p ++ "_" ++ kw ++ post) <> None.
Proof.
  intros Hk Hs Hb. induction p as [|c p IH]; intros b off.
  - rewrite append_empty in *.
    assert (M : match_boundary_at kw false ("_" ++ kw ++ post) <> None).
    { apply match_boundary_at_spec; [assumption..|]. right. now exists post. }
    assert (M' : match_boundary_at kw b ("_" ++ kw ++ post) <> None)
      by (destruct b; [apply match_boundary_at_mono|]; exact M).
    rewrite append_cons, append_empty in *. simpl.
    destruct (match_boundary_at kw b _); congruence.
  - rewrite append_cons in *. simpl in Hs.
    apply andb_true_iff in Hs as [_ Hs]. simpl.
    destruct (match_boundary_at kw b _); [discriminate|]. now apply IH.
Qed.

Lemma search_boundary_sound kw :
  Str.all is_token_char kw = true ->
  forall s b off,
    Str.all is_token_char s = true ->
    search_boundary kw b off s <> None ->
    (b = true /\ exists post, s = kw ++ post /\ right_boundary post)
    \/ exists p post, s = p ++ "_" ++ kw ++ post /\ right_boundary post.
Proof.
  intros Hk. induction s as [|c s IH]; intros b off Hs H.
  - simpl in H.
    destruct (match_boundary_at kw b "") eqn:E; [|congruence].
    assert (M : match_boundary_at kw b "" <> None) by congruence.
    apply match_boundary_at_spec in M; [|assumption..].
    destruct M as [M|(post & Hp & Hb)]; [now left|].
    right. exists "", post. now rewrite append_empty.
  - simpl in H.
    destruct (match_boundary_at kw b (String c s)) eqn:E.
    + assert (M : match_boundary_at kw b (String c s) <> None) by congruence.
      apply match_boundary_at_spec in M; [|assumption..].
      destruct M as [M|(post & Hp & Hb)]; [now left|].
      right. exists "", post. now rewrite append_empty.
    + simpl in Hs. apply andb_true_iff in Hs as [_ Hs].
      apply IH in H; [|exact Hs].
      destruct H as [[? _]|(p & post & -> & Hb)]; [discriminate|].
      right. exists (String c p), post. now rewrite append_cons.
Qed.

(** The test of the loop holds exactly of the keywords that occur as a whole
    token. *)
Lemma keyword_test_whole_token kw s :
  Str.all is_token_char kw = true -> Str.all is_token_char s = true ->
  (keyword_test kw s = true <-> whole_token kw s).
Proof.
  intros Hk Hs. unfold keyword_test, keyword_match, whole_token.
  split.
  - intros H.
    destruct (search_boundary kw true 0 s) as [found|] eqn:E; [|discriminate].
    assert (M : search_boundary kw true 0 s <> None) by congruence.
    apply search_boundary_sound in M; [|assumption..].
    destruct M as [[_ (post & -> & Hb)]|(pre & post & -> & Hb)].
    + exists "", post. split; [reflexivity|]. split; [now left | exact Hb].
    + exists (pre ++ "_"), post. rewrite append_assoc.
      split; [reflexivity|]. split; [right; now exists pre | exact Hb].
  - intros (pre & post & -> & [->|[p ->]] & Hb).
    + rewrite append_empty in *.
      assert (M : match_boundary_at kw true (kw ++ post) <> None).
      { apply match_boundary_at_spec; [assumption..|]. left.
        split; [reflexivity|]. now exists post. }
      destruct (kw ++ post); simpl;
        destruct (match_boundary_at kw true _); congruence.
    + rewrite append_assoc in *.
      pose proof (search_boundary_complete kw post p Hk Hs Hb true 0) as M.
      now destruct (search_boundary kw true 0 _).
Qed.

Lemma is_normal_token_chars s :
  is_normal s = true -> Str.all is_token_char s = true.
Proof.
  unfold is_normal. intros H.
  apply andb_true_iff in H as [H _].
  apply andb_true_iff in H as [H _].
  now apply andb_true_iff in H as [H _].
Qed.

Lemma catalog_norm_token_chars info :
  In info ROOM_KEYWORD_INFO -> Str.all is_token_char (norm info) = true.
Proof.
  intros H. apply catalog_in in H as [_ ->].
  apply is_normal_token_chars, normalizeToken_normal.
Qed.

(** [List.find] returns the first element that passes the test. *)
Lemma find_first {A : Type} (f : A -> bool) l x :
  List.find f l = Some x ->
  exists pre post,
    l = (pre ++ x :: post)%list /\ f x = true
    /\ forall y, In y pre -> f y = false.
Proof.
  induction l as [|a l IH]; [discriminate|]. simpl.
  destruct (f a) eqn:Ha.
  - intros [= ->]. exists [], l. repeat split; [exact Ha|]. intros y [].
  - intros H. destruct (IH H) as (pre & post & -> & Hx & Hpre).
    exists (a :: pre), post. repeat split; [exact Hx|].
    intros y [<-|Hy]; [exact Ha | now apply Hpre].
Qed.

(** ** The filename resolver *)

(** C1.  For every filename the resolver returns no-match exactly when no
    entry of the catalog occurs in the normalised name as a whole
    underscore-delimited token; otherwise the result is built on the first
    entry, in catalog order, that does.  [Owners_Bath_1.png] resolves to
    [Owners_Bath_1] although [owners] is a whole token of its normalised name
    too. *)
Theorem resolver_first_whole_token_wins :
  (forall name,
     let normalized := normalizeToken (stripExtension name) in
     match parseFilenameToTargetLayer name with
     | None =>
         forall info, In info ROOM_KEYWORD_INFO ->
                      ~ whole_token (norm info) normalized
     | Some target =>
         exists earlier info later index,
           ROOM_KEYWORD_INFO = (earlier ++ info :: later)%list
           /\ whole_token (norm info) normalized
           /\ (forall j, In j earlier -> ~ whole_token (norm j) normalized)
           /\ target = raw info ++ "_" ++ index
     end)
  /\ whole_token "owners" (normalizeToken (stripExtension "Owners_Bath_1.png"))
  /\ parseFilenameToTargetLayer "Owners_Bath_1.png" = Some "Owners_Bath_1".
Proof.
  split; [|split].
  - intros name normalized.
    assert (Hn : Str.all is_token_char normalized = true)
      by apply is_normal_token_chars, normalizeToken_normal.
    unfold parseFilenameToTargetLayer. fold normalized.
    unfold first_matching_keyword.
    destruct (List.find _ ROOM_KEYWORD_INFO) as [info|] eqn:E.
    + apply find_first in E as (earlier & later & Hsplit & Hx & Hpre).
      eexists earlier, info, later, _.
      split; [exact Hsplit|].
      assert (Hin : forall j, In j (earlier ++ [info])%list ->
                              In j ROOM_KEYWORD_INFO).
      { intros j Hj. rewrite Hsplit.
        apply in_app_iff in Hj as [Hj|[<-|[]]]; apply in_app_iff;
          [left; exact Hj | right; now left]. }
      split; [|split; [|reflexivity]].
      * apply keyword_test_whole_token; [|exact Hn|exact Hx].
        apply catalog_norm_token_chars, Hin, in_app_iff. right. now left.
      * intros j Hj Hw.
        apply keyword_test_whole_token in Hw; [|
          apply catalog_norm_token_chars, Hin, in_app_iff; now left | exact Hn].
        rewrite (Hpre j Hj) in Hw. discriminate.
    + intros info Hin Hw.
      apply keyword_test_whole_token in Hw;
        [| now apply catalog_norm_token_chars | exact Hn].
      pose proof (find_none _ _ E info Hin) as Hf. simpl in Hf.
      rewrite Hw in Hf. discriminate.
  - exists "", "_bath_1". vm_compute. split; [reflexivity|].
    split; [now left | right; now exists "bath_1"].
  - vm_compute. reflexivity.
Qed.

(** *** The index *)

Lemma take_drop_while_append P n t :
  Str.all P n = true -> starts_outside P t = true ->
  Str.take_while P (n ++ t) = n /\ Str.drop_while P (n ++ t) = t.
Proof.
  intros Hn Ht. induction n as [|c n IH].
  - rewrite append_empty. destruct t as [|d t]; [split; reflexivity|].
    simpl in *. apply negb_true_iff in Ht. rewrite Ht. split; reflexivity.
  - simpl in Hn. apply andb_true_iff in Hn as [Hc Hn].
    rewrite append_cons. simpl. rewrite Hc.
    destruct (IH Hn) as [-> ->]. split; reflexivity.
Qed.

Lemma take_while_all P s : Str.all P (Str.take_while P s) = true.
Proof.
  induction s as [|c s IH]; [reflexivity|]. simpl.
  destruct (P c) eqn:Hc; [|reflexivity]. simpl. now rewrite Hc.
Qed.

Lemma is_empty_false s : Str.is_empty s = false <-> s <> "".
Proof. destruct s; simpl; split; congruence. Qed.

Lemma skip_optional_underscore u t :
  optional_underscore u ->
  starts_outside Char.is_underscore t = true ->
  skip_underscore (u ++ t) = t.
Proof.
  intros [->| ->] Ht.
  - rewrite append_empty. destruct t as [|c t]; [reflexivity|].
    simpl in *. apply negb_true_iff in Ht. now rewrite Ht.
  - reflexivity.
Qed.

Lemma digit_not_underscore c :
  Char.is_digit c = true -> Char.is_underscore c = false.
Proof.
  intros H. apply lower_alnum_not_underscore.
  unfold Char.is_lower_alnum. rewrite H. apply orb_true_r.
Qed.

Lemma digit_group_starts n t :
  digit_group n -> starts_outside Char.is_underscore (n ++ t) = true.
Proof.
  intros [Hne Hd]. destruct n as [|c n]; [congruence|].
  simpl in Hd. apply andb_true_iff in Hd as [Hc _].
  rewrite append_cons. simpl. now rewrite digit_not_underscore.
Qed.

(** The first pattern: [N], an optional underscore, [of], [M]. *)
Lemma ofMatch_of_pattern u1 n u2 m rest :
  optional_underscore u1 -> digit_group n ->
  optional_underscore u2 -> digit_group m ->
  ofMatch (u1 ++ n ++ u2 ++ "of" ++ m ++ rest) = Some n.
Proof.
  intros Hu1 Hn Hu2 Hm. unfold ofMatch.
  rewrite skip_optional_underscore by (auto using digit_group_starts).
  assert (Ho : starts_outside Char.is_digit (u2 ++ "of" ++ m ++ rest) = true)
    by (destruct Hu2 as [->| ->]; reflexivity).
  destruct (take_drop_while_append Char.is_digit n _ (proj2 Hn) Ho)
    as [-> ->].
  destruct Hn as [Hne _]. apply is_empty_false in Hne. rewrite Hne.
  unfold lookahead_of.
  rewrite skip_optional_underscore by (assumption || reflexivity).
  destruct Hm as [Hme Hmd]. destruct m as [|d m]; [congruence|].
  simpl in Hmd. apply andb_true_iff in Hmd as [Hd _].
  rewrite !append_cons, append_empty. simpl. now rewrite Hd.
Qed.

(** An index that either pattern extracts is a group of digits: the digits
    that follow the optional underscore. *)
Lemma extract_index_digits tail index :
  extract_index tail = Some index ->
  digit_group index
  /\ index = Str.take_while Char.is_digit (skip_underscore tail).
Proof.
  unfold extract_index, ofMatch, underscoreMatch, digit_group.
  set (s := skip_underscore tail).
  destruct (Str.is_empty (Str.take_while Char.is_digit s)) eqn:He;
    [discriminate|].
  apply is_empty_false in He.
  assert (G : forall o, (o = Some (Str.take_while Char.is_digit s)
                         \/ o = None) ->
                        o = Some index ->
                        (index <> "" /\ Str.all Char.is_digit index = true)
                        /\ index = Str.take_while Char.is_digit s).
  { intros o [->| ->]; [|discriminate]. intros [= <-].
    repeat split; [exact He | apply take_while_all]. }
  destruct (lookahead_of _).
  - simpl. apply is_empty_false in He. rewrite He.
    apply G. now left.
  - simpl. apply G. destruct (Str.drop_while Char.is_digit s) as [|c r];
      [now left|]. destruct (Char.is_underscore c); [now left | now right].
Qed.

Lemma keyword_test_match kw s :
  keyword_test kw s = true -> exists i len, keyword_match kw s = Some (i, len).
Proof.
  unfold keyword_test. destruct (keyword_match kw s) as [[i len]|];
    [|discriminate]. intros _. now exists i, len.
Qed.

(** The shape of every successful resolution: the first matching keyword,
    then the extracted index, or [1] when none is extracted. *)
Lemma parse_matched name info :
  first_matching_keyword (normalizeToken (stripExtension name)) = Some info ->
  exists i len,
    keyword_match (norm info) (normalizeToken (stripExtension name))
    = Some (i, len)
    /\ parseFilenameToTargetLayer name
       = Some (raw info ++ "_"
               ++ default "1"
                    (extract_index
                       (Str.drop (i + len)
                          (normalizeToken (stripExtension name))))).
Proof.
  intros H. unfold parseFilenameToTargetLayer. rewrite H.
  unfold first_matching_keyword in H. apply find_some in H as [_ H].
  apply keyword_test_match in H as (i & len & Hm).
  exists i, len. split; [exact Hm|]. rewrite Hm.
  destruct (extract_index _) as [index|] eqn:E; [|reflexivity].
  apply extract_index_digits in E as [[Hne _] _].
  simpl. apply is_empty_false in Hne. now rewrite Hne.
Qed.

(** C3.  When the text after the matched keyword is a digit group [N], after
    an optional underscore, followed by an optional underscore, [of] and a
    digit group [M], the resolver takes [N] as the index and drops the rest;
    [Kitchen_3of4.png] resolves to [Kitchen_3]. *)
Theorem resolver_of_pattern_keeps_first_group :
  (forall name info i len u1 n u2 m rest,
     let normalized := normalizeToken (stripExtension name) in
     first_matching_keyword normalized = Some info ->
     keyword_match (norm info) normalized = Some (i, len) ->
     Str.drop (i + len) normalized = u1 ++ n ++ u2 ++ "of" ++ m ++ rest ->
     optional_underscore u1 -> digit_group n ->
     optional_underscore u2 -> digit_group m ->
     parseFilenameToTargetLayer name = Some (raw info ++ "_" ++ n))
  /\ parseFilenameToTargetLayer "Kitchen_3of4.png" = Some "Kitchen_3".
Proof.
  split; [|vm_compute; reflexivity].
  intros name info i len u1 n u2 m rest normalized Hf Hm Ht Hu1 Hn Hu2 Hmd.
  destruct (parse_matched name info Hf) as (i' & len' & Hm' & ->).
  fold normalized in Hm' |- *. rewrite Hm in Hm'. injection Hm' as <- <-.
  rewrite Ht. unfold extract_index.
  rewrite ofMatch_of_pattern by assumption.
  destruct Hn as [Hne _]. apply is_empty_false in Hne.
  simpl. now rewrite Hne.
Qed.

Lemma resolver_of_pattern_keeps_first_group_witness :
  first_matching_keyword
    (normalizeToken (stripExtension "Kitchen_12_of7_front.png"))
  = Some (mkInfo "Kitchen" "kitchen")
  /\ Str.drop (0 + 8)
       (normalizeToken (stripExtension "Kitchen_12_of7_front.png"))
     = "" ++ "12" ++ "_" ++ "of" ++ "7" ++ "_front"
  /\ parseFilenameToTargetLayer "Kitchen_12_of7_front.png"
     = Some "Kitchen_12".
Proof.
  split; [vm_compute; reflexivity|].
  split; [vm_compute; reflexivity|].
  apply (proj1 resolver_of_pattern_keeps_first_group
           "Kitchen_12_of7_front.png" (mkInfo "Kitchen" "kitchen") 0 8
           "" "12" "_" "7" "_front").
  - vm_compute; reflexivity.
  - vm_compute; reflexivity.
  - vm_compute; reflexivity.
  - left; reflexivity.
  - split; [discriminate | reflexivity].
  - right; reflexivity.
  - split; [discriminate | reflexivity].
Defined.

Lemma extract_index_not_adjacent u c rest :
  optional_underscore u ->
  Char.is_digit c = false -> Char.is_underscore c = false ->
  extract_index (u ++ String c rest) = None.
Proof.
  intros Hu Hd Hc. unfold extract_index, ofMatch, underscoreMatch.
  rewrite skip_optional_underscore by (simpl; now rewrite ?Hc).
  simpl. rewrite Hd. reflexivity.
Qed.

(** C4.  When the text after the matched keyword starts, after an optional
    separator underscore, with a character that is no digit (as in [_F2]),
    neither index pattern matches and the index is 1; [Bath3_F2.png] resolves
    to [Bath3_1]. *)
Theorem resolver_defaults_when_digits_not_adjacent :
  (forall name info i len u c rest,
     let normalized := normalizeToken (stripExtension name) in
     first_matching_keyword normalized = Some info ->
     keyword_match (norm info) normalized = Some (i, len) ->
     Str.drop (i + len) normalized = u ++ String c rest ->
     optional_underscore u ->
     Char.is_digit c = false -> Char.is_underscore c = false ->
     ofMatch (Str.drop (i + len) normalized) = None
     /\ underscoreMatch (Str.drop (i + len) normalized) = None
     /\ parseFilenameToTargetLayer name = Some (raw info ++ "_" ++ "1"))
  /\ parseFilenameToTargetLayer "Bath3_F2.png" = Some "Bath3_1".
Proof.
  split; [|vm_compute; reflexivity].
  intros name info i len u c rest normalized Hf Hm Ht Hu Hd Hc.
  destruct (parse_matched name info Hf) as (i' & len' & Hm' & ->).
  fold normalized in Hm' |- *. rewrite Hm in Hm'. injection Hm' as <- <-.
  pose proof (extract_index_not_adjacent u c rest Hu Hd Hc) as E.
  rewrite Ht, E.
  unfold extract_index in E.
  destruct (ofMatch (u ++ String c rest)) as [d|] eqn:Eo.
  - exfalso. simpl in E. destruct (Str.is_empty d); [|discriminate].
    unfold ofMatch in Eo.
    destruct (Str.is_empty (Str.take_while _ _)) eqn:He; [discriminate|].
    unfold underscoreMatch in E. rewrite He in E.
    destruct (lookahead_of _); [|discriminate].
    injection Eo as <-. simpl in He.
    rewrite skip_optional_underscore in He by (simpl; now rewrite ?Hc).
    simpl in He. rewrite Hd in He. discriminate.
  - simpl in E. now rewrite E.
Qed.

Lemma resolver_defaults_when_digits_not_adjacent_witness :
  first_matching_keyword (normalizeToken (stripExtension "Bath3_F2.png"))
  = Some (mkInfo "Bath3" "bath3")
  /\ Str.drop (0 + 6) (normalizeToken (stripExtension "Bath3_F2.png"))
     = "" ++ String "f" "2"
  /\ parseFilenameToTargetLayer "Bath3_F2.png" = Some "Bath3_1".
Proof.
  split; [vm_compute; reflexivity|].
  split; [vm_compute; reflexivity|].
  apply (proj1 resolver_defaults_when_digits_not_adjacent
           "Bath3_F2.png" (mkInfo "Bath3" "bath3") 0 6 "" "f"%char "2").
  - vm_compute; reflexivity.
  - vm_compute; reflexivity.
  - vm_compute; reflexivity.
  - left; reflexivity.
  - vm_compute; reflexivity.
  - vm_compute; reflexivity.
Defined.

(** *** The form of the result *)

(** Reading back the decimal rendering of a number gives the number. *)
Lemma of_nat_read_back n :
  option_map Nat.of_uint (NilZero.uint_of_string (Str.of_nat n)) = Some n.
Proof.
  unfold Str.of_nat.
  pose proof (DecimalNat.Unsigned.of_to n) as R.
  destruct (Nat.to_uint n) eqn:En;
    try (rewrite NilZero.usu by discriminate; simpl; now rewrite R).
  rewrite <- R. reflexivity.
Qed.

(** C5, as stated: the index of a result need not be a positive integer
    without leading zeros; [Kitchen_03.png] resolves to [Kitchen_03]. *)
Lemma resolver_index_keeps_leading_zero :
  ~ (forall name target,
       parseFilenameToTargetLayer name = Some target ->
       is_target_layer_identifier target).
Proof.
  intros H.
  destruct (H "Kitchen_03.png" "Kitchen_03") as (kw & n & Hin & Hpos & E);
    [vm_compute; reflexivity|].
  assert (G : Str.of_nat n <> "03").
  { intros E'. pose proof (of_nat_read_back n) as R. rewrite E' in R.
    injection R as <-. vm_compute in E'. discriminate. }
  unfold ROOM_KEYWORDS in Hin. simpl in Hin.
  repeat (destruct Hin as [<-|Hin];
          [ cbv [String.append] in E;
            first [ discriminate E | injection E as E; congruence ] |]).
  destruct Hin.
Qed.

(** C5, amended.  Every result of the resolver is the raw keyword of a
    catalog entry, an underscore and an index; the index is a non-empty group
    of decimal digits: either the digits that follow the keyword in the
    normalised name, as they stand, or [1] when no index is extracted. *)
Theorem resolver_target_shape name target :
  parseFilenameToTargetLayer name = Some target ->
  exists info index i len,
    In info ROOM_KEYWORD_INFO
    /\ In (raw info) ROOM_KEYWORDS
    /\ target = raw info ++ "_" ++ index
    /\ digit_group index
    /\ keyword_match (norm info) (normalizeToken (stripExtension name))
       = Some (i, len)
    /\ let tail :=
         Str.drop (i + len) (normalizeToken (stripExtension name)) in
       (extract_index tail = Some index
        /\ index = Str.take_while Char.is_digit (skip_underscore tail))
       \/ (extract_index tail = None /\ index = "1").
Proof.
  intros H.
  destruct (first_matching_keyword (normalizeToken (stripExtension name)))
    as [info|] eqn:Hf.
  - destruct (parse_matched name info Hf) as (i & len & Hm & Hp).
    rewrite Hp in H. injection H as <-.
    unfold first_matching_keyword in Hf.
    pose proof (find_some _ _ Hf) as [Hin _].
    eexists info, _, i, len.
    split; [exact Hin|].
    split; [apply catalog_in, Hin|].
    split; [reflexivity|].
    destruct (extract_index _) as [index|] eqn:E; simpl.
    + pose proof (extract_index_digits _ _ E) as [Hd Ht].
      split; [exact Hd|]. split; [exact Hm|]. left. now split.
    + split; [split; [discriminate|reflexivity]|].
      split; [exact Hm|]. right. now split.
  - unfold parseFilenameToTargetLayer in H. rewrite Hf in H. discriminate.
Qed.

Lemma resolver_target_shape_witness :
  parseFilenameToTargetLayer "Kitchen_03.png" = Some "Kitchen_03"
  /\ exists info index i len,
       In info ROOM_KEYWORD_INFO
       /\ In (raw info) ROOM_KEYWORDS
       /\ "Kitchen_03" = raw info ++ "_" ++ index
       /\ digit_group index
       /\ keyword_match (norm info)
            (normalizeToken (stripExtension "Kitchen_03.png"))
          = Some (i, len)
       /\ let tail :=
            Str.drop (i + len)
              (normalizeToken (stripExtension "Kitchen_03.png")) in
          (extract_index tail = Some index
           /\ index = Str.take_while Char.is_digit (skip_underscore tail))
          \/ (extract_index tail = None /\ index = "1").
Proof.
  split; [vm_compute; reflexivity|].
  apply (resolver_target_shape "Kitchen_03.png" "Kitchen_03").
  vm_compute; reflexivity.
Defined.

(** ** The title deriver *)

Lemma drop_while_starts_outside P s :
  starts_outside P (Str.drop_while P s) = true.
Proof.
  induction s as [|c s IH]; [reflexivity|]. simpl.
  destruct (P c) eqn:Hc; [exact IH|]. simpl. now rewrite Hc.
Qed.

Lemma drop_while_fixed P s :
  starts_outside P s = true -> Str.drop_while P s = s.
Proof.
  destruct s as [|c s]; [reflexivity|]. simpl. now destruct (P c).
Qed.

Lemma drop_trailing_starts_outside P s :
  starts_outside P s = true -> starts_outside P (Str.drop_trailing P s) = true.
Proof.
  destruct s as [|c s]; [reflexivity|]. intros H.
  cbn [Str.drop_trailing]. now destruct (Str.all P (String c s)).
Qed.

Lemma drop_trailing_all P s :
  Str.all P (Str.drop_trailing P s) = true -> Str.all P s = true.
Proof.
  induction s as [|c s IH]; [reflexivity|].
  cbn [Str.drop_trailing].
  destruct (Str.all P (String c s)) eqn:Ha; [reflexivity|].
  simpl. intros H. apply andb_true_iff in H as [Hc Hs].
  simpl in Ha. rewrite Hc, (IH Hs) in Ha. discriminate.
Qed.

Lemma drop_trailing_idempotent P s :
  Str.drop_trailing P (Str.drop_trailing P s) = Str.drop_trailing P s.
Proof.
  induction s as [|c s IH]; [reflexivity|].
  cbn [Str.drop_trailing].
  destruct (Str.all P (String c s)) eqn:Ha; [reflexivity|].
  cbn [Str.drop_trailing].
  destruct (Str.all P (String c (Str.drop_trailing P s))) eqn:Hb.
  - simpl in Ha, Hb. apply andb_true_iff in Hb as [Hc Hs].
    rewrite Hc, (drop_trailing_all P s Hs) in Ha. discriminate.
  - now rewrite IH.
Qed.

Lemma trim_idempotent s : Str.trim (Str.trim s) = Str.trim s.
Proof.
  unfold Str.trim.
  rewrite (drop_while_fixed _ (Str.drop_trailing _ _))
    by apply drop_trailing_starts_outside, drop_while_starts_outside.
  apply drop_trailing_idempotent.
Qed.

Lemma take_while_fixed P s : Str.all P s = true -> Str.take_while P s = s.
Proof.
  induction s as [|c s IH]; [reflexivity|]. simpl. intros H.
  apply andb_true_iff in H as [-> H]. now rewrite IH.
Qed.

Lemma title_line_fixed text : title_line (title_line text) = title_line text.
Proof.
  unfold title_line at 1. rewrite (trim_idempotent _ : Str.trim (title_line text) = _).
  unfold Str.first_line. rewrite take_while_fixed; [apply trim_idempotent|].
  unfold title_line, Str.trim.
  apply all_drop_trailing, all_drop_while, take_while_all.
Qed.

(** C9, as stated: the deriver does not work on the first line of the text
    as it is given.  A text that starts with a line feed has an empty first
    line, and yet its token is derived, from its first line that is not
    blank. *)
Lemma title_first_line_is_of_trimmed_text :
  ~ (forall text,
       deriveRoomTokenFromText text
       = deriveRoomTokenFromText (Str.trim (Str.first_line text))).
Proof.
  intros H. specialize (H (String "010" "Bedroom 2")).
  vm_compute in H. discriminate.
Qed.

(** C9, amended.  The deriver works only on the first line of the trimmed
    text, trimmed again: for every text its token is the token of that
    line. *)
Theorem title_deriver_works_on_title_line text :
  deriveRoomTokenFromText text
  = deriveRoomTokenFromText (Str.trim (Str.first_line (Str.trim text))).
Proof.
  change (Str.trim (Str.first_line (Str.trim text))) with (title_line text).
  unfold deriveRoomTokenFromText at 2.
  change (Str.trim (Str.first_line (Str.trim (title_line text))))
    with (title_line (title_line text)).
  rewrite title_line_fixed.
  replace (Str.trim (title_line text)) with (title_line text)
    by (symmetry; apply trim_idempotent).
  unfold deriveRoomTokenFromText. fold (title_line text).
  destruct (Str.is_empty (Str.trim text)) eqn:He.
  - unfold title_line. destruct (Str.trim text); [|discriminate].
    reflexivity.
  - destruct (title_line text) eqn:El; [|reflexivity].
    vm_compute. reflexivity.
Qed.

(** ** The auto-seeder *)

(** *** The two renaming loops *)

Lemma add_counts_zero r : add_counts 0 0 [] r = r.
Proof.
  destruct r as [a b c]. unfold add_counts. simpl.
  now rewrite !Nat.add_0_r, app_nil_r.
Qed.

Lemma seed_owners_effect imageNodes : forall k st,
  seed_owners k imageNodes st
  = mkSeed (add_counts (List.length imageNodes) 0 [] (seed_result st))
           (repaint_all owners_name k imageNodes (seed_scene st)).
Proof.
  induction imageNodes as [|img rest IH]; intros k st.
  - simpl. rewrite add_counts_zero. now destruct st.
  - cbn [seed_owners repaint_all]. rewrite IH.
    unfold rename_layer, add_counts, repaint. simpl.
    f_equal. f_equal. lia.
Qed.

Lemma seed_default_effect token imageNodes : forall k st,
  seed_default token k imageNodes st
  = mkSeed (add_counts (List.length imageNodes) 0 [] (seed_result st))
           (repaint_all (default_name token) k imageNodes (seed_scene st)).
Proof.
  induction imageNodes as [|img rest IH]; intros k st.
  - simpl. rewrite add_counts_zero. now destruct st.
  - cbn [seed_default repaint_all]. rewrite IH, Nat.add_1_r.
    unfold rename_layer, add_counts, repaint, default_name. simpl.
    f_equal. f_equal. lia.
Qed.

(** A renaming loop leaves the nodes outside of its list alone. *)
Lemma repaint_all_frame name_at imageNodes : forall k sc id,
  ~ In id (List.map node_id imageNodes) ->
  names (repaint_all name_at k imageNodes sc) !! id = names sc !! id
  /\ fills (repaint_all name_at k imageNodes sc) !! id = fills sc !! id.
Proof.
  induction imageNodes as [|img rest IH]; intros k sc id Hid.
  - split; reflexivity.
  - cbn [repaint_all]. simpl in Hid.
    destruct (IH (S k) (repaint img (name_at k) sc) id) as [-> ->];
      [tauto|].
    unfold repaint. simpl.
    rewrite !lookup_insert_ne by tauto. split; reflexivity.
Qed.

(** When the nodes of the list are distinct objects, each ends with the name
    of its position and the placeholder fill. *)
Lemma repaint_all_lookup name_at imageNodes : forall k sc i img,
  List.NoDup (List.map node_id imageNodes) ->
  nth_error imageNodes i = Some img ->
  names (repaint_all name_at k imageNodes sc) !! node_id img
  = Some (name_at (k + i))
  /\ fills (repaint_all name_at k imageNodes sc) !! node_id img
     = Some placeholder_fills.
Proof.
  induction imageNodes as [|a rest IH]; intros k sc i img Hnd Hi.
  - destruct i; discriminate.
  - cbn [repaint_all]. simpl in Hnd. inversion Hnd as [|? ? Hnotin Hnd']. subst.
    destruct i as [|i].
    + simpl in Hi. injection Hi as ->.
      destruct (repaint_all_frame name_at rest (S k)
                  (repaint img (name_at k) sc) (node_id img) Hnotin)
        as [-> ->].
      unfold repaint. simpl. rewrite !lookup_insert_eq, Nat.add_0_r.
      split; reflexivity.
    + simpl in Hi.
      destruct (IH (S k) (repaint a (name_at k) sc) i img Hnd' Hi)
        as [-> ->].
      split; [f_equal; f_equal; lia | reflexivity].
Qed.

(** *** One block *)

Lemma sorted_image_nodes_length block :
  List.length (sorted_image_nodes block)
  = List.length (findAll block isImageLayer).
Proof. apply Array_sort_length. Qed.

(** What a processed block does: it renames all of its image nodes and
    counts itself, and it records no issue. *)
Lemma seed_block_processed block st :
  block_processed block = true ->
  exists name_at k,
    seed_block block st
    = mkSeed (add_counts (List.length (findAll block isImageLayer)) 1 []
                (seed_result st))
             (repaint_all name_at k (sorted_image_nodes block)
                (seed_scene st))
    /\ forall title, block_title block = Some title ->
         if isOwnersSuiteTitle title
         then name_at = owners_name /\ k = 0
         else exists token,
                usable_token title = Some token
                /\ name_at = default_name token /\ k = 1.
Proof.
  unfold block_processed, block_title, seed_block.
  destruct (findOne block is_text) as [titleNode|]; [|discriminate].
  simpl. set (title := Str.trim (node_characters titleNode)).
  intros H. apply andb_true_iff in H as [H Hb].
  apply andb_true_iff in H as [He Hl].
  apply negb_true_iff in He, Hl. rewrite He, Hl.
  destruct (isOwnersSuiteTitle title) eqn:Ho.
  - exists owners_name, 0. split.
    + rewrite seed_owners_effect. unfold count_block, add_counts. simpl.
      fold (sorted_image_nodes block).
      rewrite sorted_image_nodes_length.
      now rewrite Nat.add_0_r.
    + intros t [= <-]. rewrite Ho. split; reflexivity.
  - simpl in Hb. unfold usable_token in *.
    destruct (deriveRoomTokenFromText title) as [token|] eqn:Ed;
      [|discriminate].
    destruct (Str.is_empty token) eqn:Et; [discriminate|].
    exists (default_name token), 1. split.
    + rewrite seed_default_effect. unfold count_block, add_counts. simpl.
      fold (sorted_image_nodes block).
      rewrite sorted_image_nodes_length.
      now rewrite Nat.add_0_r.
    + intros t [= <-]. rewrite Ho. exists token.
      fold title. rewrite Ed, Et. repeat split.
Qed.

(** What any other block does: it records one issue and nothing else. *)
Lemma seed_block_skipped block st :
  block_processed block = false ->
  exists issue,
    seed_block block st = push_issue issue st
    /\ forall title,
         block_title block = Some title ->
         Str.is_empty title = false ->
         findAll block isImageLayer <> [] ->
         issue = no_token_issue (seed_scene st) block title.
Proof.
  unfold block_processed, block_title, seed_block, no_token_issue.
  destruct (findOne block is_text) as [titleNode|];
    [|intros _; eexists; split; [reflexivity|discriminate]].
  simpl. set (title := Str.trim (node_characters titleNode)).
  destruct (Str.is_empty title) eqn:He;
    [intros _; eexists; split; [reflexivity|]; intros t [= <-]; congruence|].
  destruct (List.length (findAll block isImageLayer) =? 0) eqn:Hl.
  { intros _. eexists. split; [reflexivity|]. intros t _ _ Hne.
    apply Nat.eqb_eq in Hl. destruct (findAll block isImageLayer);
      [congruence|discriminate]. }
  simpl. intros H. apply orb_false_iff in H as [Ho Hu]. rewrite Ho.
  unfold usable_token in Hu.
  destruct (deriveRoomTokenFromText title) as [token|].
  - destruct (Str.is_empty token); [|discriminate].
    eexists. split; [reflexivity|]. now intros t [= <-].
  - eexists. split; [reflexivity|]. now intros t [= <-].
Qed.

(** *** Visual reading order *)

Lemma before_by_position a b :
  before by_position a b <-> reading_order a b.
Proof.
  unfold before, by_position, reading_order.
  destruct (Z.eqb_spec (node_y a) (node_y b)); simpl; lia.
Qed.

Lemma sorted_image_nodes_sorted block :
  StronglySorted reading_order (sorted_image_nodes block).
Proof.
  apply (StronglySorted_weaken (before by_position));
    [intros a b; apply before_by_position|].
  apply Array_sort_sorted.
  - intros a b. unfold before, by_position.
    destruct (Z.eqb_spec (node_y a) (node_y b)),
             (Z.eqb_spec (node_y b) (node_y a)); simpl; lia.
  - intros a b c. unfold before, by_position.
    destruct (Z.eqb_spec (node_y a) (node_y b)),
             (Z.eqb_spec (node_y b) (node_y c)),
             (Z.eqb_spec (node_y a) (node_y c)); simpl; lia.
Qed.

Lemma sorted_image_nodes_perm block :
  Permutation (findAll block isImageLayer) (sorted_image_nodes block).
Proof. apply Array_sort_perm. Qed.

Lemma owners_title_not_empty title :
  isOwnersSuiteTitle title = true -> Str.is_empty title = false.
Proof. destruct title; [discriminate | reflexivity]. Qed.

(** C7.  In an Owners-Suite block the image nodes, taken in visual reading
    order, get the names [Owners_1], [Owners_2], [Owners_Bath_1],
    [Owners_Bath_2], [Owners_WIC_1] at the positions 0 to 4 and
    [Owners_<i+1>] at every position [i] from 5 on, each with the placeholder
    fill; with six image nodes the names are exactly the five of the pattern
    and [Owners_6]. *)
Theorem owners_suite_names block title st :
  block_title block = Some title ->
  isOwnersSuiteTitle title = true ->
  List.NoDup (List.map node_id (findAll block isImageLayer)) ->
  let imageNodes := sorted_image_nodes block in
  let scene := seed_scene (seed_block block st) in
  Permutation (findAll block isImageLayer) imageNodes
  /\ StronglySorted reading_order imageNodes
  /\ (forall i img,
        nth_error imageNodes i = Some img ->
        name_of scene img
        = (if i <? 5
           then nth i [ "Owners_1"; "Owners_2"; "Owners_Bath_1";
                        "Owners_Bath_2"; "Owners_WIC_1" ] ""
           else "Owners_" ++ Str.of_nat (i + 1))
        /\ fills scene !! node_id img = Some placeholder_fills)
  /\ (List.length imageNodes = 6 ->
      List.map (name_of scene) imageNodes
      = [ "Owners_1"; "Owners_2"; "Owners_Bath_1"; "Owners_Bath_2";
          "Owners_WIC_1"; "Owners_6" ]).
Proof.
  intros Ht Ho Hnd imageNodes scene.
  split; [apply sorted_image_nodes_perm|].
  split; [apply sorted_image_nodes_sorted|].
  assert (Hnd' : List.NoDup (List.map node_id imageNodes)).
  { eapply Permutation_NoDup; [|exact Hnd].
    apply Permutation_map, sorted_image_nodes_perm. }
  assert (Hall : forall i img,
             nth_error imageNodes i = Some img ->
             names scene !! node_id img = Some (owners_name i)
             /\ fills scene !! node_id img = Some placeholder_fills).
  { intros i img Hi.
    assert (Hp : block_processed block = true).
    { unfold block_processed. rewrite Ht, Ho.
      rewrite (owners_title_not_empty title Ho). simpl.
      rewrite andb_true_r. apply negb_true_iff, Nat.eqb_neq.
      rewrite <- sorted_image_nodes_length. fold imageNodes.
      destruct imageNodes; [destruct i; discriminate | discriminate]. }
    destruct (seed_block_processed block st Hp) as (name_at & k & E & Hk).
    specialize (Hk title Ht). rewrite Ho in Hk. destruct Hk as [-> ->].
    unfold scene. rewrite E. simpl.
    apply (repaint_all_lookup owners_name imageNodes 0 _ i img Hnd' Hi). }
  split.
  - intros i img Hi. destruct (Hall i img Hi) as [Hn Hf].
    split; [|exact Hf]. unfold name_of. rewrite Hn. reflexivity.
  - intros Hlen.
    destruct imageNodes as [|n0 [|n1 [|n2 [|n3 [|n4 [|n5 [|]]]]]]];
      try discriminate.
    unfold name_of. simpl.
    rewrite (proj1 (Hall 0 n0 eq_refl)), (proj1 (Hall 1 n1 eq_refl)),
      (proj1 (Hall 2 n2 eq_refl)), (proj1 (Hall 3 n3 eq_refl)),
      (proj1 (Hall 4 n4 eq_refl)), (proj1 (Hall 5 n5 eq_refl)).
    reflexivity.
Qed.

Lemma owners_suite_names_witness :
  block_title owners_block_example = Some "Owner's Suite"
  /\ List.map node_id (sorted_image_nodes owners_block_example)
     = [13; 17; 15; 16; 14; 12]
  /\ List.map
       (name_of (seed_scene (seed_block owners_block_example empty_seed_state)))
       (sorted_image_nodes owners_block_example)
     = [ "Owners_1"; "Owners_2"; "Owners_Bath_1"; "Owners_Bath_2";
         "Owners_WIC_1"; "Owners_6" ].
Proof.
  split; [vm_compute; reflexivity|].
  split; [vm_compute; reflexivity|].
  apply (owners_suite_names owners_block_example "Owner's Suite"
           empty_seed_state).
  - vm_compute; reflexivity.
  - vm_compute; reflexivity.
  - simpl. repeat (constructor; [simpl; lia|]). constructor.
  - vm_compute; reflexivity.
Defined.

(** *** The loop over the blocks *)

Lemma processed_block_has_images block :
  block_processed block = true -> 1 <= image_count block.
Proof.
  unfold block_processed, image_count.
  destruct (block_title block); [|discriminate]. intros H.
  apply andb_true_iff in H as [H _]. apply andb_true_iff in H as [_ H].
  apply negb_true_iff, Nat.eqb_neq in H. lia.
Qed.

Lemma seed_block_counts block st :
  renamedLayers (seed_result (seed_block block st))
  = renamedLayers (seed_result st)
    + (if block_processed block then image_count block else 0)
  /\ processedBlocks (seed_result (seed_block block st))
     = processedBlocks (seed_result st)
       + (if block_processed block then 1 else 0).
Proof.
  destruct (block_processed block) eqn:Hp.
  - destruct (seed_block_processed block st Hp) as (name_at & k & -> & _).
    simpl. split; reflexivity.
  - destruct (seed_block_skipped block st Hp) as (issue & -> & _).
    simpl. split; lia.
Qed.

Lemma seed_blocks_counts blocks : forall st,
  renamedLayers (seed_result (seed_blocks blocks st))
  = renamedLayers (seed_result st)
    + list_sum (List.map image_count (List.filter block_processed blocks))
  /\ processedBlocks (seed_result (seed_blocks blocks st))
     = processedBlocks (seed_result st)
       + List.length (List.filter block_processed blocks).
Proof.
  induction blocks as [|b blocks IH]; intros st; simpl.
  - split; lia.
  - destruct (IH (seed_block b st)) as [-> ->].
    destruct (seed_block_counts b st) as [-> ->].
    destruct (block_processed b); simpl; split; lia.
Qed.

Lemma list_sum_at_least (l : list nat) :
  (forall n, In n l -> 1 <= n) -> List.length l <= list_sum l.
Proof.
  induction l as [|n l IH]; intros H; simpl; [lia|].
  pose proof (H n (or_introl eq_refl)).
  assert (List.length l <= list_sum l) by (apply IH; intros m Hm; apply H; now right).
  lia.
Qed.

(** *** The renamings of a run *)

Lemma NoDup_map_In_eq {A B : Type} (f : A -> B) l a b :
  List.NoDup (List.map f l) -> In a l -> In b l -> f a = f b -> a = b.
Proof.
  induction l as [|c l IH]; intros Hnd Ha Hb E; [destruct Ha|].
  simpl in Hnd. inversion Hnd as [|? ? Hnotin Hnd']. subst.
  destruct Ha as [->|Ha], Hb as [->|Hb].
  - reflexivity.
  - exfalso. apply Hnotin. rewrite E. now apply in_map.
  - exfalso. apply Hnotin. rewrite <- E. now apply in_map.
  - now apply IH.
Qed.

Lemma NoDup_app_parts {A : Type} (l k : list A) :
  List.NoDup (l ++ k) ->
  List.NoDup l /\ List.NoDup k /\ forall x, In x l -> ~ In x k.
Proof.
  intros H. split; [exact (NoDup_app_remove_r _ _ H)|].
  split; [exact (NoDup_app_remove_l _ _ H)|].
  induction l as [|a l IH]; intros x Hx; [destruct Hx|].
  simpl in H. inversion H as [|? ? Hnotin Hnd]. subst.
  destruct Hx as [->|Hx]; [|now apply IH].
  intros Hk. apply Hnotin, in_app_iff. now right.
Qed.

Lemma name_nodes_nodes name_at imageNodes : forall k,
  List.map fst (name_nodes name_at k imageNodes) = imageNodes.
Proof.
  induction imageNodes as [|img rest IH]; intros k; [reflexivity|].
  simpl. now rewrite IH.
Qed.

Lemma name_nodes_succ name_at imageNodes : forall k,
  name_nodes name_at (S k) imageNodes
  = name_nodes (fun i => name_at (S i)) k imageNodes.
Proof.
  induction imageNodes as [|img rest IH]; intros k; [reflexivity|].
  simpl. now rewrite IH.
Qed.

Lemma name_nodes_ext f g imageNodes : forall k,
  (forall i, f i = g i) ->
  name_nodes f k imageNodes = name_nodes g k imageNodes.
Proof.
  induction imageNodes as [|img rest IH]; intros k E; [reflexivity|].
  simpl. now rewrite E, (IH (S k) E).
Qed.

Lemma name_nodes_nth name_at imageNodes : forall k i img,
  nth_error imageNodes i = Some img ->
  In (img, name_at (k + i)) (name_nodes name_at k imageNodes).
Proof.
  induction imageNodes as [|a rest IH]; intros k i img Hi;
    [destruct i; discriminate|].
  destruct i as [|i]; simpl in Hi.
  - injection Hi as ->. rewrite Nat.add_0_r. now left.
  - right. rewrite <- Nat.add_succ_comm. now apply IH.
Qed.

Lemma name_nodes_In name_at imageNodes : forall k img name,
  In (img, name) (name_nodes name_at k imageNodes) ->
  exists i, nth_error imageNodes i = Some img /\ name = name_at (k + i).
Proof.
  induction imageNodes as [|a rest IH]; intros k img name H; [destruct H|].
  destruct H as [[= <- <-]|H].
  - exists 0. now rewrite Nat.add_0_r.
  - destruct (IH (S k) img name H) as (i & Hi & ->).
    exists (S i). split; [exact Hi|]. now rewrite Nat.add_succ_comm.
Qed.

Lemma repaint_all_writes name_at imageNodes : forall k sc,
  repaint_all name_at k imageNodes sc
  = apply_writes (name_nodes name_at k imageNodes) sc.
Proof.
  induction imageNodes as [|img rest IH]; intros k sc; [reflexivity|].
  cbn [repaint_all]. now rewrite IH.
Qed.

Lemma apply_writes_app ws ws' sc :
  apply_writes (ws ++ ws') sc = apply_writes ws' (apply_writes ws sc).
Proof. apply fold_left_app. Qed.

(** The renamings leave the nodes that they do not name alone. *)
Lemma apply_writes_frame ws : forall sc id,
  ~ In id (List.map written_id ws) ->
  names (apply_writes ws sc) !! id = names sc !! id
  /\ fills (apply_writes ws sc) !! id = fills sc !! id.
Proof.
  induction ws as [|w ws IH]; intros sc id Hid; [now split|].
  simpl in Hid.
  change (apply_writes (w :: ws) sc)
    with (apply_writes ws (repaint (fst w) (snd w) sc)).
  destruct (IH (repaint (fst w) (snd w) sc) id) as [-> ->]; [tauto|].
  unfold repaint. simpl. unfold written_id in Hid.
  rewrite !lookup_insert_ne by tauto. now split.
Qed.

(** A node that is named has, in the end, the name of one of its renamings
    and the placeholder fill. *)
Lemma apply_writes_last ws : forall sc id,
  In id (List.map written_id ws) ->
  exists w,
    In w ws /\ written_id w = id
    /\ names (apply_writes ws sc) !! id = Some (snd w)
    /\ fills (apply_writes ws sc) !! id = Some placeholder_fills.
Proof.
  induction ws as [|w ws IH]; intros sc id Hid; [destruct Hid|].
  change (apply_writes (w :: ws) sc)
    with (apply_writes ws (repaint (fst w) (snd w) sc)).
  destruct (in_dec Nat.eq_dec id (List.map written_id ws)) as [Hr|Hr].
  - destruct (IH (repaint (fst w) (snd w) sc) id Hr) as (w' & Hw & H).
    exists w'. split; [now right | exact H].
  - destruct (apply_writes_frame ws (repaint (fst w) (snd w) sc) id Hr)
      as [En Ef].
    rewrite En, Ef.
    destruct Hid as [E|Hid]; [|contradiction].
    exists w. split; [now left|]. split; [exact E|].
    unfold repaint, written_id in *. simpl. rewrite <- E.
    now rewrite !lookup_insert_eq.
Qed.

(** When no node is named twice, each has the name of its renaming. *)
Lemma apply_writes_lookup ws sc w :
  List.NoDup (List.map written_id ws) -> In w ws ->
  names (apply_writes ws sc) !! written_id w = Some (snd w)
  /\ fills (apply_writes ws sc) !! written_id w = Some placeholder_fills.
Proof.
  intros Hnd Hw.
  destruct (apply_writes_last ws sc (written_id w) (in_map _ _ _ Hw))
    as (w' & Hw' & E & Hn & Hf).
  pose proof (NoDup_map_In_eq written_id ws w w' Hnd Hw Hw' (eq_sym E)) as Ew.
  subst w'. now split.
Qed.

(** The renamings of a block are what its iteration does to the scene. *)
Lemma seed_block_writes block st :
  seed_scene (seed_block block st)
  = apply_writes (if block_processed block then block_writes block else [])
      (seed_scene st).
Proof.
  destruct (block_processed block) eqn:Hp.
  - destruct (seed_block_processed block st Hp) as (f & k & -> & Hk).
    cbn [seed_scene]. rewrite repaint_all_writes. f_equal.
    unfold block_writes.
    assert (Ht : exists title, block_title block = Some title).
    { unfold block_processed in Hp.
      destruct (block_title block) as [title|]; [now exists title|].
      discriminate. }
    destruct Ht as [title Ht]. specialize (Hk title Ht).
    destruct (isOwnersSuiteTitle title) eqn:Ho.
    + destruct Hk as [-> ->]. apply name_nodes_ext. intros i.
      unfold seed_name. now rewrite Ht, Ho.
    + destruct Hk as (token & Hu & -> & ->). rewrite name_nodes_succ.
      apply name_nodes_ext. intros i.
      unfold seed_name. now rewrite Ht, Ho, Hu.
  - destruct (seed_block_skipped block st Hp) as (issue & -> & _).
    reflexivity.
Qed.

Lemma seed_writes_cons block blocks :
  seed_writes (block :: blocks)
  = ((if block_processed block then block_writes block else [])
     ++ seed_writes blocks)%list.
Proof.
  unfold seed_writes. simpl. now destruct (block_processed block).
Qed.

(** The renamings of a run are what the loop over the blocks does to the
    scene. *)
Lemma seed_blocks_writes blocks : forall st,
  seed_scene (seed_blocks blocks st)
  = apply_writes (seed_writes blocks) (seed_scene st).
Proof.
  induction blocks as [|b blocks IH]; intros st; [reflexivity|].
  cbn [seed_blocks].
  now rewrite IH, seed_block_writes, seed_writes_cons, apply_writes_app.
Qed.

Lemma auto_seed_writes container sc :
  snd (autoSeedRoomNames container sc)
  = apply_writes (seed_writes (blocks_of container)) sc.
Proof.
  unfold autoSeedRoomNames.
  destruct (List.length (blocks_of container) =? 0) eqn:E.
  - apply Nat.eqb_eq in E. now destruct (blocks_of container).
  - cbn [snd]. now rewrite seed_blocks_writes.
Qed.

(** A renaming of the run: the node at a position of the list of a processed
    block, with the name of that position. *)
Lemma seed_writes_In blocks w :
  In w (seed_writes blocks) <->
  exists block i,
    In block (List.filter block_processed blocks)
    /\ nth_error (sorted_image_nodes block) i = Some (fst w)
    /\ snd w = seed_name block i.
Proof.
  unfold seed_writes. rewrite in_flat_map. split.
  - intros (block & Hb & Hw). destruct w as [img name].
    apply name_nodes_In in Hw as (i & Hi & ->).
    now exists block, i.
  - intros (block & i & Hb & Hi & Hn). exists block. split; [exact Hb|].
    destruct w as [img name]. simpl in *. subst name.
    exact (name_nodes_nth (seed_name block) _ 0 i img Hi).
Qed.

Lemma seed_writes_nodes blocks :
  List.map fst (seed_writes blocks) = renamed_nodes blocks.
Proof.
  unfold seed_writes, renamed_nodes.
  induction (List.filter block_processed blocks) as [|b l IH]; [reflexivity|].
  simpl. rewrite map_app, IH. unfold block_writes.
  now rewrite name_nodes_nodes.
Qed.

Lemma seed_writes_ids blocks :
  List.map written_id (seed_writes blocks)
  = List.map node_id (renamed_nodes blocks).
Proof. rewrite <- seed_writes_nodes, map_map. reflexivity. Qed.

Lemma renamed_nodes_length blocks :
  List.length (renamed_nodes blocks)
  = list_sum (List.map image_count (List.filter block_processed blocks)).
Proof.
  unfold renamed_nodes.
  induction (List.filter block_processed blocks) as [|b l IH]; [reflexivity|].
  simpl. rewrite length_app, IH. unfold image_count.
  now rewrite sorted_image_nodes_length.
Qed.

(** C10.  For every container the result counts, as [processedBlocks], the
    blocks that reach a renaming branch, each of which has at least one image
    node, and as [renamedLayers] the image nodes of those blocks, which is the
    number of renamings; so [renamedLayers] is at least [processedBlocks], and
    it is 0 when [processedBlocks] is.  Every counted block has renamed its
    image nodes, of which there is a first: after the run each of them has the
    placeholder fill and a name that the run gave to it, which is the name of
    its position in its block when no node is named twice. *)
Theorem auto_seed_counts container sc :
  let result := fst (autoSeedRoomNames container sc) in
  let after := snd (autoSeedRoomNames container sc) in
  let processed := List.filter block_processed (blocks_of container) in
  processedBlocks result = List.length processed
  /\ renamedLayers result = list_sum (List.map image_count processed)
  /\ (forall block, In block processed -> 1 <= image_count block)
  /\ processedBlocks result <= renamedLayers result
  /\ (processedBlocks result = 0 -> renamedLayers result = 0)
  /\ renamedLayers result
     = List.length (renamed_nodes (blocks_of container))
  /\ (forall block, In block processed ->
        exists img, nth_error (sorted_image_nodes block) 0 = Some img)
  /\ (forall block i img,
        In block processed ->
        nth_error (sorted_image_nodes block) i = Some img ->
        In img (findAll block isImageLayer)
        /\ fills after !! node_id img = Some placeholder_fills
        /\ (exists block' i' img',
              In block' processed
              /\ nth_error (sorted_image_nodes block') i' = Some img'
              /\ node_id img' = node_id img
              /\ names after !! node_id img = Some (seed_name block' i'))
        /\ (List.NoDup
              (List.map node_id (renamed_nodes (blocks_of container))) ->
            names after !! node_id img = Some (seed_name block i))).
Proof.
  intros result after processed.
  assert (Hge : forall block, In block processed -> 1 <= image_count block).
  { intros block Hb. apply filter_In in Hb as [_ Hb].
    now apply processed_block_has_images. }
  assert (Hp : processedBlocks result = List.length processed
               /\ renamedLayers result
                  = list_sum (List.map image_count processed)).
  { unfold result, processed, autoSeedRoomNames.
    destruct (List.length (blocks_of container) =? 0) eqn:E.
    - apply Nat.eqb_eq in E. destruct (blocks_of container); [|discriminate].
      simpl. split; reflexivity.
    - simpl.
      destruct (seed_blocks_counts (blocks_of container)
                  (mkSeed (mkResult 0 0 []) sc)) as [-> ->].
      simpl. split; reflexivity. }
  destruct Hp as [Hp Hr].
  assert (Hle : processedBlocks result <= renamedLayers result).
  { rewrite Hp, Hr. rewrite <- (length_map image_count processed).
    apply list_sum_at_least. intros n Hn.
    apply in_map_iff in Hn as (b & <- & Hb). now apply Hge. }
  split; [exact Hp|]. split; [exact Hr|]. split; [exact Hge|].
  split; [exact Hle|]. split.
  { intros H0. rewrite Hr. rewrite Hp in H0.
    destruct processed; [reflexivity | discriminate]. }
  split; [rewrite Hr; symmetry; apply renamed_nodes_length|]. split.
  { intros block Hb. specialize (Hge block Hb). unfold image_count in Hge.
    rewrite <- sorted_image_nodes_length in Hge.
    destruct (sorted_image_nodes block) as [|img l]; [simpl in Hge; lia|].
    now exists img. }
  intros block i img Hb Hi.
  assert (Hw : In (img, seed_name block i)
                 (seed_writes (blocks_of container))).
  { apply seed_writes_In. now exists block, i. }
  split.
  { apply (Permutation_in _ (Permutation_sym (sorted_image_nodes_perm block))).
    exact (nth_error_In _ _ Hi). }
  unfold after. rewrite auto_seed_writes.
  destruct (apply_writes_last (seed_writes (blocks_of container)) sc
              (node_id img) (in_map written_id _ _ Hw))
    as (w & Hin & Hid & Hn & Hf).
  split; [exact Hf|]. split.
  - apply seed_writes_In in Hin as (block' & i' & Hb' & Hi' & Hs).
    exists block', i', (fst w). rewrite <- Hs.
    repeat split; assumption.
  - intros Hnd. rewrite <- seed_writes_ids in Hnd.
    exact (proj1 (apply_writes_lookup _ sc _ Hnd Hw)).
Qed.

Lemma auto_seed_counts_witness :
  let run := autoSeedRoomNames container_example (mkScene ∅ ∅) in
  fst run
  = mkResult 6 1 [ "Block " ++ dquote ++ dquote
                   ++ ": no text node found for room title." ]
  /\ processedBlocks (fst run) <= renamedLayers (fst run)
  /\ names (snd run) !! 14 = Some "Owners_WIC_1"
  /\ fills (snd run) !! 14 = Some placeholder_fills.
Proof.
  intros run. split; [vm_compute; reflexivity|].
  pose proof (auto_seed_counts container_example (mkScene ∅ ∅))
    as (_ & _ & _ & Hle & _ & _ & _ & Hscene).
  split; [exact Hle|].
  destruct (Hscene owners_block_example 4
              (mkNode 14 RECTANGLE 100 100 "" true None))
    as (_ & Hf & _ & Hn).
  - vm_compute. tauto.
  - vm_compute; reflexivity.
  - split; [|exact Hf]. apply Hn.
    vm_compute. repeat (constructor; [simpl; lia|]). constructor.
Defined.

(** *** A block whose title gives no token *)

Lemma seed_blocks_app earlier later st :
  seed_blocks (earlier ++ later) st = seed_blocks later (seed_blocks earlier st).
Proof.
  revert st. induction earlier as [|b earlier IH]; intros st; [reflexivity|].
  simpl. apply IH.
Qed.

Lemma add_counts_add r p i r' p' i' res :
  add_counts r' p' i' (add_counts r p i res)
  = add_counts (r + r') (p + p') (i ++ i') res.
Proof.
  unfold add_counts. simpl. f_equal; try lia. now rewrite app_assoc.
Qed.

Lemma push_issue_frame issue st :
  push_issue issue st
  = mkSeed (add_counts 0 0 [issue] (seed_result st)) (seed_scene st).
Proof.
  unfold push_issue, add_counts. now rewrite !Nat.add_0_r.
Qed.

(** What an iteration does depends on the scene only: it adds to the
    counters and to the issues what it adds from zero. *)
Lemma seed_block_frame block st :
  let st0 := seed_block block (zero_state (seed_scene st)) in
  seed_block block st
  = mkSeed (add_counts (renamedLayers (seed_result st0))
              (processedBlocks (seed_result st0))
              (issues (seed_result st0)) (seed_result st))
           (seed_scene st0).
Proof.
  unfold seed_block, zero_state. simpl.
  destruct (findOne block is_text) as [titleNode|];
    [|rewrite !push_issue_frame; reflexivity].
  destruct (Str.is_empty _); [rewrite !push_issue_frame; reflexivity|].
  destruct (List.length _ =? 0); [rewrite !push_issue_frame; reflexivity|].
  destruct (isOwnersSuiteTitle _).
  - rewrite !seed_owners_effect. unfold count_block, add_counts. simpl.
    f_equal. rewrite app_nil_r. f_equal; lia.
  - destruct (deriveRoomTokenFromText _) as [token|];
      [|rewrite !push_issue_frame; reflexivity].
    destruct (Str.is_empty token); [rewrite !push_issue_frame; reflexivity|].
    rewrite !seed_default_effect. unfold count_block, add_counts. simpl.
    f_equal. rewrite app_nil_r. f_equal; lia.
Qed.

Lemma seed_blocks_frame blocks : forall st,
  let st0 := seed_blocks blocks (zero_state (seed_scene st)) in
  seed_blocks blocks st
  = mkSeed (add_counts (renamedLayers (seed_result st0))
              (processedBlocks (seed_result st0))
              (issues (seed_result st0)) (seed_result st))
           (seed_scene st0).
Proof.
  induction blocks as [|b blocks IH]; intros st; cbn zeta.
  - simpl. rewrite add_counts_zero. now destruct st.
  - cbn [seed_blocks].
    rewrite (IH (seed_block b st)).
    rewrite (IH (seed_block b (zero_state (seed_scene st)))).
    cbn zeta. rewrite (seed_block_frame b st). cbn zeta. simpl.
    rewrite !add_counts_add. simpl. reflexivity.
Qed.

(** C8.  A block that reaches the default branch with a title from which no
    token can be derived adds one issue and nothing else: no counter moves
    and no name or fill of the scene changes.  The other blocks of the
    container are treated as they are without it: the run with the block and
    the run without it end with the same scene and the same counters, and
    their issues differ by that one issue. *)
Theorem block_without_token_is_skipped block title :
  block_title block = Some title ->
  Str.is_empty title = false ->
  findAll block isImageLayer <> [] ->
  isOwnersSuiteTitle title = false ->
  deriveRoomTokenFromText title = None ->
  (forall st,
     seed_scene (seed_block block st) = seed_scene st
     /\ renamedLayers (seed_result (seed_block block st))
        = renamedLayers (seed_result st)
     /\ processedBlocks (seed_result (seed_block block st))
        = processedBlocks (seed_result st)
     /\ issues (seed_result (seed_block block st))
        = (issues (seed_result st)
           ++ [no_token_issue (seed_scene st) block title])%list)
  /\ (forall earlier later st,
        let reached := seed_blocks earlier st in
        let with_block := seed_blocks (earlier ++ block :: later) st in
        let without_block := seed_blocks (earlier ++ later) st in
        seed_scene with_block = seed_scene without_block
        /\ renamedLayers (seed_result with_block)
           = renamedLayers (seed_result without_block)
        /\ processedBlocks (seed_result with_block)
           = processedBlocks (seed_result without_block)
        /\ exists rest,
             issues (seed_result without_block)
             = (issues (seed_result reached) ++ rest)%list
             /\ issues (seed_result with_block)
                = (issues (seed_result reached)
                   ++ no_token_issue (seed_scene reached) block title
                      :: rest)%list)
  /\ (forall container sc,
        blocks_of container = [block] ->
        autoSeedRoomNames container sc
        = (mkResult 0 0 [no_token_issue sc block title], sc)).
Proof.
  intros Ht He Hi Ho Hd.
  assert (Hp : block_processed block = false).
  { unfold block_processed, usable_token. rewrite Ht, Ho, Hd.
    now rewrite andb_false_r. }
  assert (Hstep : forall st,
             seed_block block st
             = push_issue (no_token_issue (seed_scene st) block title) st).
  { intros st. destruct (seed_block_skipped block st Hp) as (issue & E & Hi').
    rewrite E. now rewrite (Hi' title Ht He Hi). }
  split; [|split].
  - intros st. rewrite Hstep. simpl. repeat split.
  - intros earlier later st reached with_block without_block.
    unfold with_block, without_block.
    rewrite !seed_blocks_app. fold reached. cbn [seed_blocks].
    rewrite Hstep.
    rewrite (seed_blocks_frame later (push_issue _ reached)).
    rewrite (seed_blocks_frame later reached).
    cbn zeta. simpl.
    repeat split.
    eexists. split; [reflexivity|].
    now rewrite <- app_assoc.
  - intros container sc Hb. unfold autoSeedRoomNames. rewrite Hb. simpl.
    rewrite Hstep. reflexivity.
Qed.

Lemma block_without_token_is_skipped_witness :
  block_title punctuation_block_example = Some "---"
  /\ deriveRoomTokenFromText "---" = None
  /\ (let with_block :=
        seed_blocks ([] ++ punctuation_block_example
                        :: [great_room_block_example]) empty_seed_state in
      let without_block :=
        seed_blocks ([] ++ [great_room_block_example]) empty_seed_state in
      seed_scene with_block = seed_scene without_block
      /\ renamedLayers (seed_result with_block)
         = renamedLayers (seed_result without_block)
      /\ processedBlocks (seed_result with_block)
         = processedBlocks (seed_result without_block)
      /\ exists rest,
           issues (seed_result without_block)
           = (issues (seed_result (seed_blocks [] empty_seed_state))
              ++ rest)%list
           /\ issues (seed_result with_block)
              = (issues (seed_result (seed_blocks [] empty_seed_state))
                 ++ no_token_issue
                      (seed_scene (seed_blocks [] empty_seed_state))
                      punctuation_block_example "---"
                    :: rest)%list).
Proof.
  split; [vm_compute; reflexivity|].
  split; [vm_compute; reflexivity|].
  apply (block_without_token_is_skipped punctuation_block_example "---").
  - vm_compute; reflexivity.
  - vm_compute; reflexivity.
  - vm_compute. discriminate.
  - vm_compute; reflexivity.
  - vm_compute; reflexivity.
Defined.

(** ** The examples of the source and of the specification, evaluated *)

Example resolver_examples :
  List.map parseFilenameToTargetLayer
    [ "Kitchen_3of4.png"; "Game_1of2.jpg"; "Bath3_F2.png";
      "CoveredPatio_1of2.png"; "Patio_1of2.png"; "random_document.txt";
      "Kitchenette_2.png"; "Owners_Bath_1.png" ]
  = [ Some "Kitchen_3"; Some "Game_1"; Some "Bath3_1";
      Some "CoveredPatio_1"; Some "Patio_1"; None;
      Some "Kitchenette_2"; Some "Owners_Bath_1" ].
Proof. vm_compute. reflexivity. Qed.

Example deriver_examples :
  List.map deriveRoomTokenFromText
    [ String.append "Bedroom 2" (String "010" "more text");
      "Bathroom 3"; "Game Room"; "Great Room"; "Kid's Room 2"; "---" ]
  = [ Some "Bed2"; Some "Bath3"; Some "Game"; Some "Great";
      Some "KidsRoom2"; None ].
Proof. vm_compute. reflexivity. Qed.

Example owners_suite_examples :
  isOwnersSuiteTitle "Owner's Suite" = true
  /\ isOwnersSuiteTitle "Bedroom 2" = false.
Proof. split; reflexivity. Qed.

(** Equal lengths in the catalog are settled by the order of declaration,
    not by the place in the filename. *)
Example resolver_tie_example :
  parseFilenameToTargetLayer "Bath_Bed2.png" = Some "Bed2_1".
Proof. vm_compute. reflexivity. Qed.

Example great_room_example :
  let st := seed_block great_room_block_example empty_seed_state in
  List.map (fun n => (node_id n, name_of (seed_scene st) n))
    (sorted_image_nodes great_room_block_example)
  = [ (54, "Great_1"); (53, "Great_2"); (52, "Great_3") ]
  /\ seed_result st = mkResult 3 1 [].
Proof. vm_compute. split; reflexivity. Qed.

(** * Further properties of the code *)

(** ** The normaliser and the extension *)

Lemma no_double_underscore_spec s :
  no_double_underscore s = true -> forall a b, s <> a ++ "__" ++ b.
Proof.
  intros H a. revert s H. induction a as [|c a IH]; intros s H b E.
  - subst s. simpl in H. discriminate.
  - subst s. rewrite append_cons in H.
    apply no_double_cons in H as [H _]. now apply (IH _ H b).
Qed.

Lemma no_leading_underscore_spec s :
  no_leading_underscore s = true -> forall r, s <> "_" ++ r.
Proof. intros H r E. subst s. discriminate. Qed.

Lemma no_trailing_underscore_spec s :
  no_trailing_underscore s = true -> forall r, s <> r ++ "_".
Proof.
  intros H r. revert s H. induction r as [|c r IH]; intros s H E.
  - subst s. discriminate.
  - subst s. rewrite append_cons in H.
    destruct r as [|d r]; [simpl in H; discriminate|].
    apply (IH (String d r ++ "_")); [|reflexivity].
    rewrite append_cons in *. exact H.
Qed.

(** The shape of every normalised text: lower-case letters, digits and
    underscores only, no underscore at either end and no two in a row. *)
Theorem normalizeToken_shape x :
  Str.all is_token_char (normalizeToken x) = true
  /\ (forall r, normalizeToken x <> "_" ++ r)
  /\ (forall r, normalizeToken x <> r ++ "_")
  /\ (forall a b, normalizeToken x <> a ++ "__" ++ b).
Proof.
  pose proof (normalizeToken_normal x) as H. unfold is_normal in H.
  apply andb_true_iff in H as [H Htr].
  apply andb_true_iff in H as [H Hle].
  apply andb_true_iff in H as [Ht Hd].
  split; [exact Ht|].
  split; [now apply no_leading_underscore_spec|].
  split; [now apply no_trailing_underscore_spec|].
  now apply no_double_underscore_spec.
Qed.

Lemma is_extension_body_with_dot a b :
  is_extension_body (a ++ "." ++ b) = false.
Proof.
  unfold is_extension_body. rewrite all_append.
  rewrite append_cons. simpl.
  now rewrite andb_false_r, andb_false_r.
Qed.

(** Where the extension is cut. *)
Lemma stripExtension_cut base ext :
  is_extension_body ext = true -> stripExtension (base ++ "." ++ ext) = base.
Proof.
  intros He. induction base as [|c base IH].
  - rewrite append_empty, append_cons, append_empty. simpl. now rewrite He.
  - rewrite append_cons. simpl. rewrite IH.
    rewrite is_extension_body_with_dot. now rewrite andb_false_r.
Qed.


(** The extension is the text after the last dot, when that text is not
    empty and holds no slash: it is cut off together with the dot, whatever
    stands before; a name without such an ending is left as it is. *)
Theorem stripExtension_cuts_last_extension :
  (forall base ext,
     is_extension_body ext = true ->
     stripExtension (base ++ "." ++ ext) = base)
  /\ (forall s,
        (forall base ext,
           s = base ++ "." ++ ext -> is_extension_body ext = false) ->
        stripExtension s = s).
Proof.
  split; [exact stripExtension_cut|].
  induction s as [|c s IH]; intros H; [reflexivity|]. simpl.
  destruct (Char.is_dot c && is_extension_body s) eqn:E.
  - apply andb_true_iff in E as [Hc Hs].
    unfold Char.is_dot in Hc. apply Ascii.eqb_eq in Hc. subst c.
    rewrite (H "" s) in Hs; [discriminate|reflexivity].
  - f_equal. apply IH. intros base ext ->.
    apply (H (String c base) ext). reflexivity.
Qed.

Lemma stripExtension_cuts_last_extension_witness :
  stripExtension ("plan.v2/Kitchen_3of4.final" ++ "." ++ "png")
  = "plan.v2/Kitchen_3of4.final"
  /\ stripExtension "plan.v2/Kitchen" = "plan.v2/Kitchen".
Proof.
  split.
  - apply (proj1 stripExtension_cuts_last_extension). vm_compute; reflexivity.
  - apply (proj2 stripExtension_cuts_last_extension).
    intros base ext E.
    destruct (is_extension_body ext) eqn:He; [|reflexivity].
    pose proof (stripExtension_cut base ext He) as C. rewrite <- E in C.
    vm_compute in C. subst base.
    apply (f_equal String.length) in E. rewrite !length_append in E.
    simpl in E. lia.
Defined.

(** ** The resolver and the case of letters *)

Lemma to_lower_keeps_dot_slash c :
  Char.is_dot (Char.to_lower c) = Char.is_dot c
  /\ Char.is_slash (Char.to_lower c) = Char.is_slash c.
Proof.
  assert (G : forall c,
             Bool.eqb (Char.is_dot (Char.to_lower c)) (Char.is_dot c)
             && Bool.eqb (Char.is_slash (Char.to_lower c)) (Char.is_slash c)
             = true) by check_chars.
  specialize (G c). apply andb_true_iff in G as [G1 G2].
  split; now apply Bool.eqb_prop.
Qed.

Lemma is_extension_body_toLowerCase s :
  is_extension_body (Str.toLowerCase s) = is_extension_body s.
Proof.
  unfold is_extension_body. f_equal; [now destruct s|].
  induction s as [|c s IH]; [reflexivity|].
  unfold Str.toLowerCase in *. simpl.
  destruct (to_lower_keeps_dot_slash c) as [-> ->]. now rewrite IH.
Qed.

Lemma stripExtension_toLowerCase s :
  stripExtension (Str.toLowerCase s) = Str.toLowerCase (stripExtension s).
Proof.
  induction s as [|c s IH]; [reflexivity|].
  change (Str.toLowerCase (String c s))
    with (String (Char.to_lower c) (Str.toLowerCase s)).
  simpl. rewrite (proj1 (to_lower_keeps_dot_slash c)).
  rewrite is_extension_body_toLowerCase.
  destruct (Char.is_dot c && is_extension_body s); [reflexivity|].
  rewrite IH. reflexivity.
Qed.

Lemma to_lower_idempotent c : Char.to_lower (Char.to_lower c) = Char.to_lower c.
Proof.
  assert (G : forall c,
             Ascii.eqb (Char.to_lower (Char.to_lower c)) (Char.to_lower c)
             = true) by check_chars.
  apply Ascii.eqb_eq, G.
Qed.

Lemma toLowerCase_idempotent s :
  Str.toLowerCase (Str.toLowerCase s) = Str.toLowerCase s.
Proof.
  induction s as [|c s IH]; [reflexivity|].
  unfold Str.toLowerCase in *. simpl. now rewrite to_lower_idempotent, IH.
Qed.

Lemma normalizeToken_toLowerCase x :
  normalizeToken (Str.toLowerCase x) = normalizeToken x.
Proof. unfold normalizeToken. now rewrite toLowerCase_idempotent. Qed.

(** The text on which the resolver works depends on the name up to the case
    of its letters only. *)
Lemma resolver_key_toLowerCase name :
  normalizeToken (stripExtension (Str.toLowerCase name))
  = normalizeToken (stripExtension name).
Proof.
  rewrite stripExtension_toLowerCase. apply normalizeToken_toLowerCase.
Qed.

(** Two filenames that differ in the case of letters only resolve alike, and
    two layer names that differ so match. *)
Theorem resolver_ignores_case a b :
  Str.toLowerCase a = Str.toLowerCase b ->
  parseFilenameToTargetLayer a = parseFilenameToTargetLayer b
  /\ namesMatch a b = true.
Proof.
  intros H. split.
  - unfold parseFilenameToTargetLayer.
    rewrite <- (resolver_key_toLowerCase a), <- (resolver_key_toLowerCase b).
    now rewrite H.
  - unfold namesMatch. apply String.eqb_eq.
    rewrite <- (normalizeToken_toLowerCase a), <- (normalizeToken_toLowerCase b).
    now rewrite H.
Qed.

Lemma resolver_ignores_case_witness :
  Str.toLowerCase "OWNERS_Bath_2OF3.PNG" = Str.toLowerCase "owners_bath_2of3.png"
  /\ parseFilenameToTargetLayer "OWNERS_Bath_2OF3.PNG"
     = parseFilenameToTargetLayer "owners_bath_2of3.png"
  /\ namesMatch "OWNERS_Bath_2OF3.PNG" "owners_bath_2of3.png" = true.
Proof.
  split; [vm_compute; reflexivity|].
  apply (resolver_ignores_case "OWNERS_Bath_2OF3.PNG" "owners_bath_2of3.png").
  vm_compute; reflexivity.
Defined.

(** ** Canonical layer names resolve to themselves *)

Lemma append_eq_append a b c d :
  a ++ b = c ++ d ->
  (exists m, c = a ++ m /\ b = m ++ d) \/ (exists m, a = c ++ m /\ d = m ++ b).
Proof.
  revert c. induction a as [|x a IH]; intros c H.
  - left. exists c. rewrite append_empty in *. now split.
  - destruct c as [|y c].
    + right. exists (String x a). rewrite append_empty in H. now split.
    + rewrite !append_cons in H. injection H as -> H.
      destruct (IH c H) as [(m & -> & ->)|(m & -> & ->)]; [left|right];
        exists m; rewrite ?append_cons; now split.
Qed.

Lemma lower_not_digit_underscore c :
  Char.is_lower c = true ->
  Char.is_digit c = false /\ Char.is_underscore c = false.
Proof.
  intros H.
  assert (G : forall c, implb (Char.is_lower c)
                          (negb (Char.is_digit c)
                           && negb (Char.is_underscore c)) = true)
    by check_chars.
  specialize (G c). rewrite H in G. simpl in G.
  apply andb_true_iff in G as [G1 G2]. now rewrite negb_true_iff in G1, G2.
Qed.

Lemma underscores_before_letters_at m n :
  underscores_before_letters (m ++ String "_" n) = true ->
  exists c r, n = String c r /\ Char.is_lower c = true.
Proof.
  induction m as [|x m IH].
  - rewrite append_empty. simpl. destruct n as [|c r]; [discriminate|].
    intros H. apply andb_true_iff in H as [H _]. now exists c, r.
  - rewrite append_cons. simpl. intros H.
    apply andb_true_iff in H as [_ H]. auto.
Qed.

Lemma letter_led_first E :
  letter_led E = true ->
  exists c r, E = String c r /\ Char.is_lower c = true.
Proof.
  unfold letter_led. destruct E as [|c r]; [discriminate|].
  intros H. apply andb_true_iff in H as [H _]. now exists c, r.
Qed.

(** An occurrence of a letter-led keyword as a whole token never reaches
    into a group of digits at the end. *)
Lemma whole_token_before_digits E K d :
  letter_led E = true -> digit_group d ->
  whole_token E (K ++ "_" ++ d) -> whole_token E K.
Proof.
  intros HE [_ Hd] (pre & post & Heq & Hpre & Hpost).
  destruct (letter_led_first E HE) as (e & E' & -> & He).
  destruct (lower_not_digit_underscore e He) as [Hed Heu].
  apply append_eq_append in Heq as [(m & -> & Hm)|(m & -> & Hm)].
  - exfalso. destruct m as [|c m].
    + rewrite append_empty, !append_cons in Hm. injection Hm as <- _.
      discriminate.
    + rewrite !append_cons, append_empty in Hm. injection Hm as _ Hm.
      rewrite Hm, all_append in Hd. simpl in Hd.
      rewrite Hed in Hd. simpl in Hd. now rewrite andb_false_r in Hd.
  - symmetry in Hm. apply append_eq_append in Hm as [(n & En & Hn)|(n & -> & Hn)].
    + destruct n as [|c n].
      * rewrite append_empty_r in En. subst m.
        exists pre, "". rewrite append_empty_r.
        split; [reflexivity|]. split; [exact Hpre | now left].
      * exfalso. rewrite !append_cons, append_empty in Hn.
        injection Hn as <- Hn.
        unfold letter_led in HE. apply andb_true_iff in HE as [_ HE].
        rewrite En in HE.
        apply underscores_before_letters_at in HE as (c & r & -> & Hc).
        destruct (lower_not_digit_underscore c Hc) as [Hcd _].
        rewrite Hn in Hd. rewrite append_cons in Hd. simpl in Hd.
        now rewrite Hcd in Hd.
    + exists pre, n. split; [reflexivity|]. split; [exact Hpre|].
      destruct n as [|c n]; [now left|]. right.
      destruct Hpost as [->|[q ->]].
      * rewrite append_cons in Hn. discriminate.
      * rewrite !append_cons, append_empty in Hn. injection Hn as -> _.
        now exists n.
Qed.

Lemma whole_token_with_suffix E K t :
  whole_token E K -> whole_token E (K ++ "_" ++ t).
Proof.
  intros (pre & post & -> & Hpre & Hpost).
  exists pre, (post ++ "_" ++ t). rewrite !append_assoc.
  split; [reflexivity|]. split; [exact Hpre|]. right.
  destruct Hpost as [->|[q ->]].
  - now exists t.
  - exists (q ++ "_" ++ t). now rewrite append_assoc.
Qed.

Lemma digit_is_token_char c :
  Char.is_digit c = true -> is_token_char c = true.
Proof.
  intros H. apply lower_alnum_is_token_char.
  unfold Char.is_lower_alnum. rewrite H. apply orb_true_r.
Qed.

Lemma all_weaken (P Q : ascii -> bool) s :
  (forall c, P c = true -> Q c = true) ->
  Str.all P s = true -> Str.all Q s = true.
Proof.
  intros HPQ. induction s as [|c s IH]; [reflexivity|]. simpl. intros H.
  apply andb_true_iff in H as [Hc Hs]. now rewrite (HPQ c Hc), IH.
Qed.

Lemma digits_token_chars K d :
  Str.all is_token_char K = true -> digit_group d ->
  Str.all is_token_char (K ++ "_" ++ d) = true.
Proof.
  intros HK [_ Hd]. rewrite !all_append, HK. simpl.
  apply (all_weaken _ _ d digit_is_token_char Hd).
Qed.

Lemma catalog_letter_led info :
  In info ROOM_KEYWORD_INFO -> letter_led (norm info) = true.
Proof.
  assert (G : forallb (fun i => letter_led (norm i)) ROOM_KEYWORD_INFO = true)
    by (vm_compute; reflexivity).
  rewrite forallb_forall in G. apply G.
Qed.

Lemma find_agree {A : Type} (f g : A -> bool) l :
  (forall x, In x l -> f x = g x) -> List.find f l = List.find g l.
Proof.
  induction l as [|a l IH]; intros H; [reflexivity|]. simpl.
  rewrite <- (H a (or_introl eq_refl)).
  destruct (f a); [reflexivity|]. apply IH. intros x Hx. apply H. now right.
Qed.

(** A group of digits appended after an underscore does not change the
    keyword that is matched. *)
Lemma first_matching_keyword_before_digits K d :
  Str.all is_token_char K = true -> digit_group d ->
  first_matching_keyword (K ++ "_" ++ d) = first_matching_keyword K.
Proof.
  intros HK Hd. unfold first_matching_keyword. apply find_agree.
  intros info Hin.
  pose proof (catalog_norm_token_chars info Hin) as Hn.
  pose proof (keyword_test_whole_token (norm info) K Hn HK) as A.
  pose proof (keyword_test_whole_token (norm info) (K ++ "_" ++ d) Hn
                (digits_token_chars K d HK Hd)) as B.
  destruct (keyword_test (norm info) K) eqn:EK.
  - exact (proj2 B (whole_token_with_suffix _ K d (proj1 A eq_refl))).
  - destruct (keyword_test (norm info) (K ++ "_" ++ d)) eqn:EKd;
      [|reflexivity].
    pose proof (whole_token_before_digits _ K d
                  (catalog_letter_led info Hin) Hd (proj1 B eq_refl)) as W.
    discriminate (proj2 A W).
Qed.

Lemma search_boundary_here kw b off s len :
  match_boundary_at kw b s = Some len ->
  search_boundary kw b off s = Some (off, len).
Proof. intros H. destruct s; simpl; now rewrite H. Qed.

Lemma keyword_match_at_start kw t :
  Str.all is_token_char kw = true -> Str.all is_token_char t = true ->
  keyword_match kw (kw ++ "_" ++ t) = Some (0, String.length kw + 1).
Proof.
  intros Hk Ht. unfold keyword_match. apply search_boundary_here.
  unfold match_boundary_at, match_keyword_end.
  assert (E : Str.strip_prefix_ci kw (kw ++ "_" ++ t) = Some ("_" ++ t)).
  { apply strip_prefix_ci_spec; [exact Hk| |reflexivity].
    rewrite !all_append, Hk. simpl. exact Ht. }
  rewrite E. reflexivity.
Qed.

Lemma drop_append a b : Str.drop (String.length a) (a ++ b) = b.
Proof. induction a as [|c a IH]; [reflexivity|]. exact IH. Qed.

Lemma drop_while_all P s : Str.all P s = true -> Str.drop_while P s = "".
Proof.
  induction s as [|c s IH]; [reflexivity|]. simpl. intros H.
  apply andb_true_iff in H as [-> H]. auto.
Qed.

(** A group of digits alone is read by the second index pattern. *)
Lemma extract_index_digit_group d :
  digit_group d -> extract_index d = Some d.
Proof.
  intros [Hne Hd]. unfold extract_index, ofMatch, underscoreMatch.
  assert (Hs : skip_underscore d = d).
  { destruct d as [|c d]; [reflexivity|]. simpl in *.
    apply andb_true_iff in Hd as [Hc _].
    now rewrite (digit_not_underscore c Hc). }
  rewrite Hs, (take_while_fixed _ d Hd), (drop_while_all _ d Hd).
  apply is_empty_false in Hne. rewrite Hne. reflexivity.
Qed.

Lemma no_trailing_append a b :
  b <> "" -> no_trailing_underscore (a ++ b) = no_trailing_underscore b.
Proof.
  intros Hb. induction a as [|c a IH]; [reflexivity|].
  rewrite append_cons. simpl.
  destruct (a ++ b) eqn:E; [|exact IH].
  destruct a; [rewrite append_empty in E; congruence | discriminate].
Qed.

Lemma no_double_append a b :
  no_double_underscore a = true -> no_double_underscore b = true ->
  no_trailing_underscore a = true ->
  no_double_underscore (a ++ b) = true.
Proof.
  intros Ha Hb Ht. induction a as [|c a IH]; [exact Hb|].
  rewrite append_cons. apply no_double_cons in Ha as [Ha Hc].
  destruct a as [|x a].
  - rewrite append_empty. apply no_double_cons_intro; [exact Hb|].
    intros Hu. simpl in Ht. now rewrite Hu in Ht.
  - apply no_double_cons_intro; [apply IH; [exact Ha | exact Ht]|].
    intros Hu. specialize (Hc Hu). exact Hc.
Qed.

Lemma digits_no_double d :
  Str.all Char.is_digit d = true -> no_double_underscore d = true.
Proof.
  induction d as [|c d IH]; [reflexivity|]. simpl. intros H.
  apply andb_true_iff in H as [Hc Hd]. destruct d; [reflexivity|].
  rewrite (digit_not_underscore c Hc). simpl. auto.
Qed.

Lemma digits_no_trailing d :
  Str.all Char.is_digit d = true -> no_trailing_underscore d = true.
Proof.
  induction d as [|c d IH]; [reflexivity|]. simpl. intros H.
  apply andb_true_iff in H as [Hc Hd].
  destruct d; [now rewrite (digit_not_underscore c Hc) | auto].
Qed.

(** A normalised text followed by an underscore and digits is normalised. *)
Lemma is_normal_digit_suffix K d :
  is_normal K = true -> K <> "" -> digit_group d ->
  is_normal (K ++ "_" ++ d) = true.
Proof.
  intros HK Hne Hd. pose proof Hd as [Hdne Hdd].
  pose proof (is_normal_token_chars K HK) as Ht.
  unfold is_normal in *.
  apply andb_true_iff in HK as [HK Htr].
  apply andb_true_iff in HK as [HK Hle].
  apply andb_true_iff in HK as [_ Hdb].
  rewrite (digits_token_chars K d Ht Hd).
  rewrite no_double_append; [| exact Hdb | | exact Htr].
  - rewrite no_trailing_append by discriminate.
    assert (Hlead : no_leading_underscore (K ++ "_" ++ d) = true)
      by (destruct K as [|c K]; [congruence|]; exact Hle).
    assert (Htrail : no_trailing_underscore ("_" ++ d) = true).
    { rewrite append_cons, append_empty.
      destruct d as [|x d]; [congruence|].
      change (no_trailing_underscore (String x d) = true).
      now apply digits_no_trailing. }
    now rewrite Hlead, Htrail.
  - rewrite append_cons, append_empty. apply no_double_cons_intro.
    + now apply digits_no_double.
    + intros _. destruct d as [|x d]; [reflexivity|]. simpl in *.
      apply andb_true_iff in Hdd as [Hx _].
      now rewrite (digit_not_underscore x Hx).
Qed.

Lemma map_append f a b : Str.map f (a ++ b) = Str.map f a ++ Str.map f b.
Proof.
  induction a as [|c a IH]; [reflexivity|].
  rewrite append_cons. simpl. now rewrite IH.
Qed.

(** What is computed once for each keyword of the list. *)
Lemma keyword_facts kw :
  In kw ROOM_KEYWORDS ->
  first_matching_keyword (normalizeToken kw)
  = Some (mkInfo kw (normalizeToken kw))
  /\ Str.toLowerCase kw = normalizeToken kw
  /\ Str.is_empty kw = false
  /\ Str.all (fun c => negb (Char.is_dot c)) kw = true.
Proof.
  intros H. unfold ROOM_KEYWORDS in H. simpl in H.
  repeat (destruct H as [<-|H]; [vm_compute; repeat split; reflexivity|]).
  destruct H.
Qed.

Lemma normalizeToken_canonical kw d :
  In kw ROOM_KEYWORDS -> digit_group d ->
  normalizeToken (kw ++ "_" ++ d) = normalizeToken kw ++ "_" ++ d.
Proof.
  intros Hin Hd. destruct (keyword_facts kw Hin) as (_ & Hl & Hne & _).
  rewrite <- normalizeToken_toLowerCase.
  unfold Str.toLowerCase at 1. rewrite !map_append.
  fold (Str.toLowerCase kw). fold (Str.toLowerCase "_"). fold (Str.toLowerCase d).
  rewrite Hl.
  rewrite (toLowerCase_identity d)
    by (apply (all_weaken _ _ d digit_is_token_char), Hd).
  change (Str.toLowerCase "_") with "_".
  apply normalizeToken_fixpoint, is_normal_digit_suffix;
    [apply normalizeToken_normal | | exact Hd].
  rewrite <- Hl. destruct kw; [discriminate|]. discriminate.
Qed.

Lemma no_dot_no_extension s :
  Str.all (fun c => negb (Char.is_dot c)) s = true -> stripExtension s = s.
Proof.
  induction s as [|c s IH]; [reflexivity|]. simpl. intros H.
  apply andb_true_iff in H as [Hc Hs]. apply negb_true_iff in Hc.
  now rewrite Hc, IH.
Qed.

Lemma digit_not_dot c : Char.is_digit c = true -> Char.is_dot c = false.
Proof. intros H. apply token_char_not_dot, digit_is_token_char, H. Qed.

(** The resolver on the text [<keyword>_<digits>], with no extension left. *)
Lemma resolve_canonical_base kw d :
  In kw ROOM_KEYWORDS -> digit_group d ->
  stripExtension (kw ++ "_" ++ d) = kw ++ "_" ++ d
  /\ forall name,
       stripExtension name = kw ++ "_" ++ d ->
       parseFilenameToTargetLayer name = Some (kw ++ "_" ++ d).
Proof.
  intros Hin Hd. destruct (keyword_facts kw Hin) as (Hf & _ & _ & Hdot).
  split.
  - apply no_dot_no_extension. rewrite !all_append, Hdot. simpl.
    apply (all_weaken Char.is_digit).
    + intros c Hc. now rewrite (digit_not_dot c Hc).
    + apply Hd.
  - intros name Hname.
    pose proof (normalizeToken_canonical kw d Hin Hd) as Hn.
    assert (Ht : Str.all is_token_char (normalizeToken kw) = true)
      by apply is_normal_token_chars, normalizeToken_normal.
    assert (Hfirst : first_matching_keyword
                       (normalizeToken (stripExtension name))
                     = Some (mkInfo kw (normalizeToken kw))).
    { rewrite Hname, Hn.
      now rewrite first_matching_keyword_before_digits. }
    destruct (parse_matched name _ Hfirst) as (i & len & Hm & ->).
    rewrite Hname, Hn in Hm |- *. simpl in Hm.
    rewrite keyword_match_at_start in Hm;
      [| exact Ht | apply (all_weaken _ _ d digit_is_token_char), Hd].
    injection Hm as <- <-. simpl.
    replace (normalizeToken kw ++ "_" ++ d)
      with ((normalizeToken kw ++ "_") ++ d) by apply append_assoc.
    replace (String.length (normalizeToken kw) + 1)
      with (String.length (normalizeToken kw ++ "_"))
      by (rewrite length_append; reflexivity).
    rewrite drop_append, (extract_index_digit_group d Hd). reflexivity.
Qed.

Lemma string_of_uint_digits u :
  Str.all Char.is_digit (NilEmpty.string_of_uint u) = true.
Proof. induction u; simpl; auto. Qed.

Lemma of_nat_digit_group n : digit_group (Str.of_nat n).
Proof.
  unfold Str.of_nat, digit_group, NilZero.string_of_uint.
  destruct (Nat.to_uint n) eqn:E; (split; [discriminate|]);
    try reflexivity; apply string_of_uint_digits.
Qed.

(** A filename made of a keyword of the list, an underscore and a group of
    digits, with or without an extension, resolves to that very text: the
    resolver reads back the canonical layer names. *)
Theorem resolver_reads_canonical_names kw d :
  In kw ROOM_KEYWORDS -> digit_group d ->
  parseFilenameToTargetLayer (kw ++ "_" ++ d) = Some (kw ++ "_" ++ d)
  /\ forall ext,
       is_extension_body ext = true ->
       parseFilenameToTargetLayer ((kw ++ "_" ++ d) ++ "." ++ ext)
       = Some (kw ++ "_" ++ d).
Proof.
  intros Hin Hd. destruct (resolve_canonical_base kw d Hin Hd) as [Hs Hp].
  split; [exact (Hp _ Hs)|].
  intros ext He. exact (Hp _ (stripExtension_cut _ ext He)).
Qed.

Lemma resolver_reads_canonical_names_witness :
  In "Owners_WIC" ROOM_KEYWORDS
  /\ digit_group "007"
  /\ parseFilenameToTargetLayer ("Owners_WIC" ++ "_" ++ "007")
     = Some ("Owners_WIC" ++ "_" ++ "007").
Proof.
  assert (Hin : In "Owners_WIC" ROOM_KEYWORDS) by (vm_compute; tauto).
  assert (Hd : digit_group "007") by (split; [discriminate | reflexivity]).
  split; [exact Hin|]. split; [exact Hd|].
  exact (proj1 (resolver_reads_canonical_names "Owners_WIC" "007" Hin Hd)).
Defined.

(** The names that the auto-seeder gives resolve to themselves: the names of
    an Owners-Suite block at every position, and the names of the default
    branch at every counter when the token is a keyword of the list. *)
Theorem seeded_names_resolve_to_themselves :
  (forall i,
     parseFilenameToTargetLayer (owners_name i) = Some (owners_name i))
  /\ (forall kw n,
        In kw ROOM_KEYWORDS ->
        parseFilenameToTargetLayer (kw ++ "_" ++ Str.of_nat n)
        = Some (kw ++ "_" ++ Str.of_nat n)).
Proof.
  split.
  - intros i. unfold owners_name.
    destruct (i <? List.length owners_pattern) eqn:E.
    + apply Nat.ltb_lt in E. simpl in E.
      do 5 (destruct i as [|i]; [vm_compute; reflexivity|]). lia.
    + change ("Owners_" ++ Str.of_nat (i + 1))
        with ("Owners" ++ "_" ++ Str.of_nat (i + 1)).
      assert (Hin : In "Owners" ROOM_KEYWORDS) by (vm_compute; tauto).
      destruct (resolve_canonical_base "Owners" _ Hin
                  (of_nat_digit_group (i + 1))) as [Hs Hp].
      exact (Hp _ Hs).
  - intros kw n Hin.
    destruct (resolve_canonical_base kw _ Hin (of_nat_digit_group n))
      as [Hs Hp].
    exact (Hp _ Hs).
Qed.

Lemma seeded_names_resolve_to_themselves_witness :
  In "Great" ROOM_KEYWORDS
  /\ parseFilenameToTargetLayer ("Great" ++ "_" ++ Str.of_nat 12)
     = Some "Great_12".
Proof.
  assert (Hin : In "Great" ROOM_KEYWORDS) by (vm_compute; tauto).
  split; [exact Hin|].
  exact (proj2 seeded_names_resolve_to_themselves "Great" 12 Hin).
Defined.

(** ** The tokens of the title deriver *)

Lemma eqb_ci_alnum a b :
  Char.eqb_ci a b = true -> Char.is_alnum a = true -> Char.is_alnum b = true.
Proof.
  intros Hab Ha.
  assert (G : forall c,
             Bool.eqb (Char.is_alnum c)
               (Char.is_upper (Char.canonicalize c)
                || Char.is_digit (Char.canonicalize c)) = true)
    by check_chars.
  pose proof (Bool.eqb_prop _ _ (G a)) as Ga.
  pose proof (Bool.eqb_prop _ _ (G b)) as Gb.
  unfold Char.eqb_ci in Hab. apply Ascii.eqb_eq in Hab.
  rewrite Gb, <- Hab, <- Ga. exact Ha.
Qed.

Lemma strip_prefix_ci_no_alnum a lit s :
  Char.is_alnum a = true -> some_char Char.is_alnum s = false ->
  Str.strip_prefix_ci (String a lit) s = None.
Proof.
  intros Ha Hs. destruct s as [|b s]; [reflexivity|]. simpl in *.
  apply orb_false_iff in Hs as [Hb _].
  destruct (Char.eqb_ci a b) eqn:E; [|reflexivity].
  now rewrite (eqb_ci_alnum a b E Ha) in Hb.
Qed.

Lemma search_room_number_no_alnum a lit s :
  Char.is_alnum a = true -> some_char Char.is_alnum s = false ->
  search_room_number (String a lit) s = None.
Proof.
  intros Ha. induction s as [|b s IH]; intros Hs.
  - reflexivity.
  - cbn [search_room_number]. unfold match_room_number_at.
    rewrite (strip_prefix_ci_no_alnum a lit _ Ha Hs).
    simpl in Hs. apply orb_false_iff in Hs as [_ Hs]. auto.
Qed.

Lemma test_ci_no_alnum a lit s :
  Char.is_alnum a = true -> some_char Char.is_alnum s = false ->
  test_ci (String a lit) s = false.
Proof.
  intros Ha. induction s as [|b s IH]; intros Hs.
  - reflexivity.
  - cbn [test_ci]. rewrite (strip_prefix_ci_no_alnum a lit _ Ha Hs).
    simpl in Hs. apply orb_false_iff in Hs as [_ Hs]. auto.
Qed.

Lemma some_char_all P s :
  some_char P s = false <-> Str.all (fun c => negb (P c)) s = true.
Proof.
  induction s as [|c s IH]; simpl; [tauto|].
  rewrite orb_false_iff, andb_true_iff, negb_true_iff. tauto.
Qed.

Lemma replace_runs_all P rep b s :
  Str.all P s = true ->
  Str.replace_runs_from P rep b s = ""
  \/ Str.replace_runs_from P rep b s = rep.
Proof.
  revert b. induction s as [|c s IH]; intros b H; [now left|].
  simpl in H. apply andb_true_iff in H as [Hc Hs]. simpl. rewrite Hc.
  assert (T : Str.replace_runs_from P rep true s = "").
  { clear -Hs. induction s as [|d s IH]; [reflexivity|]. simpl in *.
    apply andb_true_iff in Hs as [-> Hs]. auto. }
  rewrite T. destruct b; [now left | right; apply append_empty_r].
Qed.

Lemma all_stripExtension P s :
  Str.all P s = true -> Str.all P (stripExtension s) = true.
Proof.
  induction s as [|c s IH]; [reflexivity|]. simpl. intros H.
  apply andb_true_iff in H as [Hc Hs].
  destruct (Char.is_dot c && is_extension_body s); [reflexivity|].
  simpl. now rewrite Hc, IH.
Qed.

Lemma to_lower_not_alnum c :
  Char.is_alnum c = false -> Char.is_lower_alnum (Char.to_lower c) = false.
Proof.
  intros H.
  assert (G : forall c, implb (negb (Char.is_alnum c))
                          (negb (Char.is_lower_alnum (Char.to_lower c)))
                        = true) by check_chars.
  specialize (G c). rewrite H in G. now apply negb_true_iff.
Qed.

(** A text without letters and digits normalises to the empty text. *)
Lemma normalizeToken_no_alnum s :
  some_char Char.is_alnum s = false -> normalizeToken s = "".
Proof.
  intros H. unfold normalizeToken, Str.replace_runs.
  assert (A : Str.all (fun c => negb (Char.is_lower_alnum c))
                (stripExtension (Str.toLowerCase s)) = true).
  { apply all_stripExtension. apply some_char_all in H.
    clear -H. induction s as [|c s IH]; [reflexivity|].
    unfold Str.toLowerCase in *. simpl in *.
    apply andb_true_iff in H as [Hc Hs]. apply negb_true_iff in Hc.
    now rewrite (to_lower_not_alnum c Hc), IH. }
  destruct (replace_runs_all _ "_" false _ A) as [-> | ->]; reflexivity.
Qed.

Lemma replace_runs_keeps P rep b s :
  some_char (fun c => negb (P c)) s = true ->
  Str.is_empty (Str.replace_runs_from P rep b s) = false.
Proof.
  revert b. induction s as [|c s IH]; intros b H; [discriminate|].
  simpl in *. destruct (P c); simpl in H; [|reflexivity].
  destruct b; [auto|].
  specialize (IH true H).
  destruct rep; [rewrite append_empty; exact IH | reflexivity].
Qed.

Lemma some_char_negb_negb P s :
  some_char (fun c => negb (negb (P c))) s = some_char P s.
Proof.
  induction s as [|c s IH]; [reflexivity|]. simpl.
  now rewrite negb_involutive, IH.
Qed.

(** The deriver gives no token exactly when the line it works on, the first
    line of the trimmed title, holds no letter [a-z], [A-Z] and no digit. *)
Theorem deriver_fails_without_letters_and_digits text :
  deriveRoomTokenFromText text = None
  <-> some_char Char.is_alnum (Str.trim (Str.first_line (Str.trim text)))
      = false.
Proof.
  unfold deriveRoomTokenFromText.
  set (line := Str.trim (Str.first_line (Str.trim text))).
  destruct (Str.is_empty (Str.trim text)) eqn:He.
  - split; [|reflexivity]. intros _. unfold line.
    destruct (Str.trim text); [reflexivity | discriminate].
  - destruct (some_char Char.is_alnum line) eqn:Ha.
    + split; [|discriminate]. intros H. exfalso.
      destruct (search_room_number "bed" line); [discriminate|].
      destruct (search_room_number "bath" line); [discriminate|].
      destruct (test_ci "game" line); [discriminate|].
      destruct (first_matching_keyword (normalizeToken line));
        [discriminate|].
      unfold Str.replace_runs in H.
      rewrite replace_runs_keeps in H; [discriminate|].
      now rewrite some_char_negb_negb.
    + split; [reflexivity|]. intros _.
      rewrite (search_room_number_no_alnum "b" "ed" line eq_refl Ha).
      rewrite (search_room_number_no_alnum "b" "ath" line eq_refl Ha).
      rewrite (test_ci_no_alnum "g" "ame" line eq_refl Ha).
      rewrite (normalizeToken_no_alnum line Ha).
      change (first_matching_keyword "") with (@None RoomKeywordInfo).
      apply some_char_all in Ha.
      destruct (replace_runs_all _ "" false line Ha) as [E | E];
        unfold Str.replace_runs; rewrite E; reflexivity.
Qed.

Lemma match_spaces_digits_group s d :
  match_spaces_digits s = Some d -> digit_group d.
Proof.
  unfold match_spaces_digits.
  destruct (Str.is_empty _) eqn:E; [discriminate|]. intros [= <-].
  split; [now apply is_empty_false | apply take_while_all].
Qed.

Lemma search_room_number_group word s d :
  search_room_number word s = Some d -> digit_group d.
Proof.
  induction s as [|c s IH]; cbn [search_room_number];
    unfold match_room_number_at;
    destruct (Str.strip_prefix_ci word _) as [r|]; try discriminate;
    try (destruct (Str.strip_prefix_ci "room" r) as [r'|];
         [destruct (match_spaces_digits r') eqn:E1|];
         try (intros [= <-]; eauto using match_spaces_digits_group);
         destruct (match_spaces_digits r) eqn:E2;
         try (intros [= <-]; eauto using match_spaces_digits_group);
         try discriminate; auto);
    auto.
Qed.

Lemma replace_runs_chars P b s :
  Str.all (fun c => negb (P c)) (Str.replace_runs_from P "" b s) = true.
Proof.
  revert b. induction s as [|c s IH]; intros b; [reflexivity|]. simpl.
  destruct (P c) eqn:Hc.
  - destruct b; [apply IH | rewrite append_empty; apply IH].
  - simpl. now rewrite Hc, IH.
Qed.

(** Every token of the deriver is of one of five kinds: [Bed] or [Bath]
    followed by a group of digits, [Game], a keyword of the list, or a
    non-empty text of letters and digits. *)
Theorem deriver_token_kinds text token :
  deriveRoomTokenFromText text = Some token ->
  (exists d, digit_group d /\ token = "Bed" ++ d)
  \/ (exists d, digit_group d /\ token = "Bath" ++ d)
  \/ token = "Game"
  \/ In token ROOM_KEYWORDS
  \/ (token <> "" /\ Str.all Char.is_alnum token = true).
Proof.
  unfold deriveRoomTokenFromText.
  set (line := Str.trim (Str.first_line (Str.trim text))).
  destruct (Str.is_empty (Str.trim text)); [discriminate|].
  destruct (search_room_number "bed" line) as [d|] eqn:Ebed.
  { intros [= <-]. left. exists d.
    split; [exact (search_room_number_group _ _ _ Ebed) | reflexivity]. }
  destruct (search_room_number "bath" line) as [d|] eqn:Ebath.
  { intros [= <-]. right. left. exists d.
    split; [exact (search_room_number_group _ _ _ Ebath) | reflexivity]. }
  destruct (test_ci "game" line).
  { intros [= <-]. right. right. now left. }
  destruct (first_matching_keyword (normalizeToken line)) as [info|] eqn:Ef.
  { intros [= <-]. right. right. right. left.
    unfold first_matching_keyword in Ef. apply find_some in Ef as [Hin _].
    exact (proj1 (catalog_in info Hin)). }
  destruct (Str.is_empty _) eqn:Ee; [discriminate|].
  intros [= <-]. right. right. right. right.
  split; [now apply is_empty_false|].
  unfold Str.replace_runs.
  pose proof (replace_runs_chars (fun c => negb (Char.is_alnum c)) false line)
    as H.
  eapply all_weaken; [|exact H]. intros c. simpl. now rewrite negb_involutive.
Qed.

Lemma deriver_token_kinds_witness :
  deriveRoomTokenFromText "Kid's Room 2" = Some "KidsRoom2"
  /\ ((exists d, digit_group d /\ "KidsRoom2" = "Bed" ++ d)
      \/ (exists d, digit_group d /\ "KidsRoom2" = "Bath" ++ d)
      \/ "KidsRoom2" = "Game"
      \/ In "KidsRoom2" ROOM_KEYWORDS
      \/ ("KidsRoom2" <> "" /\ Str.all Char.is_alnum "KidsRoom2" = true)).
Proof.
  assert (H : deriveRoomTokenFromText "Kid's Room 2" = Some "KidsRoom2")
    by (vm_compute; reflexivity).
  split; [exact H|].
  exact (deriver_token_kinds "Kid's Room 2" "KidsRoom2" H).
Defined.

(** ** The auto-seeder on whole containers *)

Lemma auto_seed_scene container sc :
  snd (autoSeedRoomNames container sc) = seeded_scene (blocks_of container) sc.
Proof.
  unfold autoSeedRoomNames, seeded_scene, zero_state.
  destruct (List.length (blocks_of container) =? 0) eqn:E; [|reflexivity].
  apply Nat.eqb_eq in E. now destruct (blocks_of container).
Qed.

Lemma seed_block_accounting block st :
  processedBlocks (seed_result (seed_block block st))
  + List.length (issues (seed_result (seed_block block st)))
  = processedBlocks (seed_result st)
    + List.length (issues (seed_result st)) + 1.
Proof.
  destruct (block_processed block) eqn:Hp.
  - destruct (seed_block_processed block st Hp) as (f & k & -> & _).
    simpl. rewrite app_nil_r. lia.
  - destruct (seed_block_skipped block st Hp) as (issue & -> & _).
    simpl. rewrite length_app. simpl. lia.
Qed.

Lemma seed_blocks_accounting blocks : forall st,
  processedBlocks (seed_result (seed_blocks blocks st))
  + List.length (issues (seed_result (seed_blocks blocks st)))
  = processedBlocks (seed_result st)
    + List.length (issues (seed_result st)) + List.length blocks.
Proof.
  induction blocks as [|b blocks IH]; intros st; simpl; [lia|].
  rewrite IH, seed_block_accounting. lia.
Qed.

(** Every block is accounted for once: it is counted as processed or it has
    one issue.  A container without blocks has the one issue that says so,
    and its scene is left as it is. *)
Theorem auto_seed_accounts_for_every_block container sc :
  let result := fst (autoSeedRoomNames container sc) in
  match blocks_of container with
  | [] =>
      result
      = mkResult 0 0
          ["No room blocks found. Expected child groups/frames under the selected node."]
      /\ snd (autoSeedRoomNames container sc) = sc
  | _ :: _ =>
      processedBlocks result + List.length (issues result)
      = List.length (blocks_of container)
  end.
Proof.
  unfold autoSeedRoomNames.
  destruct (blocks_of container) as [|b blocks] eqn:E.
  - simpl. split; reflexivity.
  - cbn [List.length Nat.eqb fst].
    rewrite seed_blocks_accounting. simpl. lia.
Qed.

(** *** What the run writes *)

Lemma repaint_all_fills name_at imageNodes : forall k sc id,
  In id (List.map node_id imageNodes) ->
  fills (repaint_all name_at k imageNodes sc) !! id = Some placeholder_fills.
Proof.
  induction imageNodes as [|img rest IH]; intros k sc id Hid; [destruct Hid|].
  cbn [repaint_all].
  destruct (in_dec Nat.eq_dec id (List.map node_id rest)) as [Hr|Hr].
  - now apply IH.
  - destruct (repaint_all_frame name_at rest (S k)
                (repaint img (name_at k) sc) id Hr) as [_ ->].
    destruct Hid as [<-|Hid]; [|contradiction].
    unfold repaint. simpl. apply lookup_insert_eq.
Qed.

(** What one iteration does to the scene, for processed and skipped blocks
    alike. *)
Lemma seed_block_scene block st :
  exists name_at k,
    seed_scene (seed_block block st)
    = repaint_all name_at k
        (if block_processed block then sorted_image_nodes block else [])
        (seed_scene st).
Proof.
  destruct (block_processed block) eqn:Hp.
  - destruct (seed_block_processed block st Hp) as (f & k & -> & _).
    now exists f, k.
  - destruct (seed_block_skipped block st Hp) as (issue & -> & _).
    now exists owners_name, 0.
Qed.

Lemma renamed_nodes_cons block blocks :
  renamed_nodes (block :: blocks)
  = ((if block_processed block then sorted_image_nodes block else [])
     ++ renamed_nodes blocks)%list.
Proof.
  unfold renamed_nodes. simpl. now destruct (block_processed block).
Qed.

Lemma seed_blocks_frame_ids blocks : forall st id,
  ~ In id (List.map node_id (renamed_nodes blocks)) ->
  names (seed_scene (seed_blocks blocks st)) !! id
  = names (seed_scene st) !! id
  /\ fills (seed_scene (seed_blocks blocks st)) !! id
     = fills (seed_scene st) !! id.
Proof.
  induction blocks as [|b blocks IH]; intros st id Hid; [now split|].
  rewrite renamed_nodes_cons, map_app, in_app_iff in Hid.
  cbn [seed_blocks].
  destruct (IH (seed_block b st) id) as [-> ->]; [tauto|].
  destruct (seed_block_scene b st) as (f & k & ->).
  apply repaint_all_frame. tauto.
Qed.

Lemma seed_blocks_fills blocks : forall st id,
  In id (List.map node_id (renamed_nodes blocks)) ->
  fills (seed_scene (seed_blocks blocks st)) !! id = Some placeholder_fills.
Proof.
  induction blocks as [|b blocks IH]; intros st id Hid; [destruct Hid|].
  rewrite renamed_nodes_cons, map_app, in_app_iff in Hid.
  cbn [seed_blocks].
  destruct (in_dec Nat.eq_dec id (List.map node_id (renamed_nodes blocks)))
    as [Hr|Hr]; [now apply IH|].
  destruct (seed_blocks_frame_ids blocks (seed_block b st) id Hr) as [_ ->].
  destruct (seed_block_scene b st) as (f & k & ->).
  apply repaint_all_fills. tauto.
Qed.

Lemma renamed_nodes_are_image_layers blocks n :
  In n (renamed_nodes blocks) ->
  isImageLayer n = true
  /\ exists block, In block blocks /\ In n (descendants block).
Proof.
  unfold renamed_nodes. intros H.
  apply in_flat_map in H as (block & Hb & Hn).
  apply filter_In in Hb as [Hb _].
  apply (Permutation_in _ (Permutation_sym (sorted_image_nodes_perm block)))
    in Hn.
  unfold findAll in Hn. apply filter_In in Hn as [Hd Hi].
  split; [exact Hi|]. now exists block.
Qed.

(** The auto-seeder writes to image layers under its blocks and to nothing
    else: the nodes it renames are image layers that descend from a block of
    the container and each ends with the placeholder fill, and every other
    node keeps its name and its fills. *)
Theorem auto_seed_writes_image_layers_only container sc :
  let renamed := renamed_nodes (blocks_of container) in
  let after := snd (autoSeedRoomNames container sc) in
  (forall n, In n renamed ->
     isImageLayer n = true
     /\ (exists block,
           In block (blocks_of container) /\ In n (descendants block))
     /\ fills after !! node_id n = Some placeholder_fills)
  /\ (forall id, ~ In id (List.map node_id renamed) ->
        names after !! id = names sc !! id
        /\ fills after !! id = fills sc !! id).
Proof.
  intros renamed after. unfold after. rewrite auto_seed_scene.
  unfold seeded_scene. split.
  - intros n Hn.
    destruct (renamed_nodes_are_image_layers _ n Hn) as [Hi Hb].
    split; [exact Hi|]. split; [exact Hb|].
    apply seed_blocks_fills. now apply in_map.
  - intros id Hid.
    apply (seed_blocks_frame_ids (blocks_of container) (zero_state sc) id Hid).
Qed.

Lemma auto_seed_writes_image_layers_only_witness :
  ~ In 11 (List.map node_id (renamed_nodes (blocks_of container_example)))
  /\ names (snd (autoSeedRoomNames container_example
                   (mkScene {[11 := "Title"]} ∅))) !! 11
     = Some "Title".
Proof.
  assert (H : ~ In 11 (List.map node_id
                         (renamed_nodes (blocks_of container_example))))
    by (vm_compute; intuition lia).
  split; [exact H|].
  exact (proj1 (proj2 (auto_seed_writes_image_layers_only container_example
                         (mkScene {[11 := "Title"]} ∅)) 11 H)).
Defined.

(** *** Running the auto-seeder again *)

Lemma repaint_all_union name_at imageNodes : forall k,
  exists (wn : gmap nat string) (wf : gmap nat (list Paint)),
    forall sc,
      names (repaint_all name_at k imageNodes sc) = wn ∪ names sc
      /\ fills (repaint_all name_at k imageNodes sc) = wf ∪ fills sc.
Proof.
  induction imageNodes as [|img rest IH]; intros k.
  - exists ∅, ∅. intros sc. simpl. now rewrite !(left_id_L ∅ (∪)).
  - destruct (IH (S k)) as (wn & wf & H).
    exists (wn ∪ {[node_id img := name_at k]}),
           (wf ∪ {[node_id img := placeholder_fills]}).
    intros sc. cbn [repaint_all].
    destruct (H (repaint img (name_at k) sc)) as [-> ->].
    unfold repaint. simpl.
    rewrite !insert_union_singleton_l, !(assoc_L (∪)). now split.
Qed.

Lemma seed_block_union block :
  exists (wn : gmap nat string) (wf : gmap nat (list Paint)),
    forall st,
      names (seed_scene (seed_block block st)) = wn ∪ names (seed_scene st)
      /\ fills (seed_scene (seed_block block st))
         = wf ∪ fills (seed_scene st).
Proof.
  destruct (block_processed block) eqn:Hp.
  - assert (Ht : exists title, block_title block = Some title).
    { unfold block_processed in Hp.
      destruct (block_title block) as [title|]; [now exists title|].
      discriminate. }
    destruct Ht as [title Ht].
    destruct (isOwnersSuiteTitle title) eqn:Ho.
    + destruct (repaint_all_union owners_name (sorted_image_nodes block) 0)
        as (wn & wf & H).
      exists wn, wf. intros st.
      destruct (seed_block_processed block st Hp) as (f & k & -> & Hk).
      specialize (Hk title Ht). rewrite Ho in Hk. destruct Hk as [-> ->].
      apply H.
    + destruct (usable_token title) as [token|] eqn:Hu.
      * destruct (repaint_all_union (default_name token)
                    (sorted_image_nodes block) 1) as (wn & wf & H).
        exists wn, wf. intros st.
        destruct (seed_block_processed block st Hp) as (f & k & -> & Hk).
        specialize (Hk title Ht). rewrite Ho in Hk.
        destruct Hk as (t & Et & -> & ->).
        rewrite Hu in Et. injection Et as <-. apply H.
      * exists ∅, ∅. intros st.
        destruct (seed_block_processed block st Hp) as (f & k & _ & Hk).
        specialize (Hk title Ht). rewrite Ho in Hk.
        destruct Hk as (t & Et & _). rewrite Hu in Et. discriminate.
  - exists ∅, ∅. intros st.
    destruct (seed_block_skipped block st Hp) as (issue & -> & _).
    simpl. now rewrite !(left_id_L ∅ (∪)).
Qed.

Lemma seed_blocks_union blocks :
  exists (wn : gmap nat string) (wf : gmap nat (list Paint)),
    forall st,
      names (seed_scene (seed_blocks blocks st)) = wn ∪ names (seed_scene st)
      /\ fills (seed_scene (seed_blocks blocks st))
         = wf ∪ fills (seed_scene st).
Proof.
  induction blocks as [|b blocks IH].
  - exists ∅, ∅. intros st. simpl. now rewrite !(left_id_L ∅ (∪)).
  - destruct IH as (wn & wf & H).
    destruct (seed_block_union b) as (wn' & wf' & H').
    exists (wn ∪ wn'), (wf ∪ wf'). intros st. cbn [seed_blocks].
    destruct (H (seed_block b st)) as [-> ->].
    destruct (H' st) as [-> ->].
    now rewrite !(assoc_L (∪)).
Qed.

(** The auto-seeder is idempotent on the scene: a second run on the scene
    that a run leaves changes no name and no fill, and it counts the same
    renamed layers and processed blocks. *)
Theorem auto_seed_twice container sc :
  let first := autoSeedRoomNames container sc in
  let second := autoSeedRoomNames container (snd first) in
  snd second = snd first
  /\ renamedLayers (fst second) = renamedLayers (fst first)
  /\ processedBlocks (fst second) = processedBlocks (fst first).
Proof.
  intros first second. split.
  - unfold second, first. rewrite !auto_seed_scene. unfold seeded_scene.
    destruct (seed_blocks_union (blocks_of container)) as (wn & wf & H).
    destruct (H (zero_state sc)) as [Hn Hf].
    destruct (H (zero_state
                   (seed_scene (seed_blocks (blocks_of container)
                                  (zero_state sc))))) as [Hn2 Hf2].
    simpl in *.
    destruct (seed_scene (seed_blocks (blocks_of container)
                (zero_state (seed_scene _)))) as [n2 f2].
    destruct (seed_scene (seed_blocks (blocks_of container) (zero_state sc)))
      as [n1 f1].
    simpl in *. subst.
    now rewrite !(assoc_L (∪)), !(idemp_L (∪)).
  - unfold second, first, autoSeedRoomNames.
    destruct (List.length (blocks_of container) =? 0); [now split|].
    simpl.
    destruct (seed_blocks_counts (blocks_of container)
                (mkSeed (mkResult 0 0 []) sc)) as [-> ->].
    destruct (seed_blocks_counts (blocks_of container)
                (mkSeed (mkResult 0 0 [])
                   (seed_scene (seed_blocks (blocks_of container)
                                  (mkSeed (mkResult 0 0 []) sc)))))
      as [-> ->].
    now split.
Qed.

(** ** Finding a layer by its name *)

Lemma descendants_children n cs c :
  node_children n = Some cs -> In c cs ->
  In c (descendants n)
  /\ forall m, In m (descendants c) -> In m (descendants n).
Proof.
  destruct n as [id ty x y chars hf ch]. simpl. intros -> Hc. simpl.
  induction cs as [|a cs IH]; [destruct Hc|].
  destruct Hc as [->|Hc].
  - split; [now left|]. intros m Hm. right. apply in_app_iff. now left.
  - destruct (IH Hc) as [H1 H2]. split.
    + right. apply in_app_iff. now right.
    + intros m Hm. right. apply in_app_iff. right. now apply H2.
Qed.

Lemma blocks_of_children container block :
  In block (blocks_of container) ->
  In block (descendants container)
  /\ forall m, In m (descendants block) -> In m (descendants container).
Proof.
  unfold blocks_of. intros H. apply filter_In in H as [H _].
  destruct (node_children container) as [cs|] eqn:E; [|destruct H].
  now apply (descendants_children container cs).
Qed.

Lemma image_layer_has_fills n : isImageLayer n = true -> hasFills n = true.
Proof. unfold isImageLayer. now destruct (hasFills n). Qed.

(** What [findLayerByName] returns is a descendant of the container with a
    [fills] property whose name matches the target, and the first such node
    in document order; it returns nothing exactly when no descendant with
    fills has a matching name.  The target counts up to normalisation. *)
Theorem findLayerByName_first_match container sc target :
  match findLayerByName container sc target with
  | Some n =>
      exists earlier later,
        descendants container = (earlier ++ n :: later)%list
        /\ hasFills n = true
        /\ namesMatch (name_of sc n) target = true
        /\ forall m, In m earlier ->
             hasFills m = false \/ namesMatch (name_of sc m) target = false
  | None =>
      forall m, In m (descendants container) ->
        hasFills m = false \/ namesMatch (name_of sc m) target = false
  end
  /\ findLayerByName container sc (normalizeToken target)
     = findLayerByName container sc target.
Proof.
  split.
  - unfold findLayerByName, findOne, namesMatch.
    destruct (List.find _ (descendants container)) as [n|] eqn:E.
    + apply find_first in E as (earlier & later & Hs & Hn & Hpre).
      exists earlier, later. split; [exact Hs|].
      destruct (hasFills n); [|discriminate]. simpl in Hn.
      split; [reflexivity|]. split; [exact Hn|].
      intros m Hm. specialize (Hpre m Hm). simpl in Hpre.
      destruct (hasFills m); [now right | now left].
    + intros m Hm. pose proof (find_none _ _ E m Hm) as H. simpl in H.
      destruct (hasFills m); [now right | now left].
  - unfold findLayerByName.
    now rewrite (normalizeToken_fixpoint _ (normalizeToken_normal target)).
Qed.

Lemma renamed_node_in_container container n :
  In n (renamed_nodes (blocks_of container)) ->
  In n (descendants container) /\ hasFills n = true.
Proof.
  intros Hn.
  destruct (renamed_nodes_are_image_layers _ n Hn) as (Hi & block & Hb & Hd).
  split; [apply (blocks_of_children container block Hb), Hd|].
  now apply image_layer_has_fills.
Qed.

(** ** From the names of the auto-seeder to the layers *)

Lemma descendants_flat_map n :
  descendants n
  = List.flat_map (fun c => c :: descendants c)
      (default [] (node_children n)).
Proof.
  destruct n as [id ty x y chars hf [cs|]]; [|reflexivity].
  simpl. induction cs as [|c cs IH]; [reflexivity|].
  simpl. now rewrite IH.
Qed.

Lemma NoDup_map_filter {A B : Type} (f : A -> B) (p : A -> bool) l :
  List.NoDup (List.map f l) -> List.NoDup (List.map f (List.filter p l)).
Proof.
  induction l as [|a l IH]; intros H; [constructor|].
  simpl in H. inversion H as [|? ? Hnotin Hnd]. subst. simpl.
  destruct (p a); [|now apply IH].
  simpl. constructor; [|now apply IH].
  intros Hin. apply Hnotin.
  apply in_map_iff in Hin as (b & E & Hb). apply filter_In in Hb as [Hb _].
  rewrite <- E. now apply in_map.
Qed.

Lemma sorted_image_nodes_ids block :
  List.NoDup (List.map node_id (descendants block)) ->
  List.NoDup (List.map node_id (sorted_image_nodes block)).
Proof.
  intros H. eapply Permutation_NoDup.
  - apply Permutation_map, sorted_image_nodes_perm.
  - unfold findAll. now apply NoDup_map_filter.
Qed.

Lemma sorted_image_nodes_In block n :
  In n (sorted_image_nodes block) -> In n (descendants block).
Proof.
  intros H.
  apply (Permutation_in _ (Permutation_sym (sorted_image_nodes_perm block)))
    in H.
  unfold findAll in H. now apply filter_In in H as [H _].
Qed.

(** When the nodes under the children are distinct objects, no node is
    renamed twice. *)
Lemma renamed_nodes_distinct cs :
  List.NoDup
    (List.map node_id (List.flat_map (fun c => c :: descendants c) cs)) ->
  List.NoDup (List.map node_id (renamed_nodes (List.filter has_children cs))).
Proof.
  induction cs as [|c cs IH]; intros H; [constructor|].
  cbn [List.flat_map] in H. rewrite map_app in H.
  apply NoDup_app_parts in H as (Hc & Hcs & Hdisj).
  specialize (IH Hcs). cbn [List.filter].
  destruct (has_children c); [|exact IH].
  rewrite renamed_nodes_cons, map_app.
  apply List.NoDup_app; [| exact IH |].
  - destruct (block_processed c); [|constructor].
    apply sorted_image_nodes_ids. simpl in Hc. now inversion Hc.
  - intros id Hid Hid'. apply (Hdisj id).
    + destruct (block_processed c); [|destruct Hid].
      apply in_map_iff in Hid as (n & <- & Hn).
      apply in_map. right. now apply sorted_image_nodes_In.
    + apply in_map_iff in Hid' as (n & <- & Hn). apply in_map.
      destruct (renamed_nodes_are_image_layers _ n Hn)
        as (_ & block & Hb & Hd).
      apply filter_In in Hb as [Hb _].
      apply in_flat_map. exists block. split; [exact Hb | now right].
Qed.

Lemma renamed_nodes_distinct_ids container :
  List.NoDup (List.map node_id (descendants container)) ->
  List.NoDup (List.map node_id (renamed_nodes (blocks_of container))).
Proof.
  rewrite descendants_flat_map. apply renamed_nodes_distinct.
Qed.

Lemma find_only {A : Type} (p : A -> bool) l x :
  In x l -> p x = true ->
  (forall y, In y l -> p y = true -> y = x) ->
  List.find p l = Some x.
Proof.
  intros Hx Hp Hu. destruct (List.find p l) as [y|] eqn:E.
  - apply find_some in E as [Hy Hpy]. now rewrite (Hu y Hy Hpy).
  - rewrite (find_none _ _ E x Hx) in Hp. discriminate.
Qed.

(** No node is named twice by a run on distinct objects, so that each
    renamed node has the name of its renaming. *)
Lemma seeded_layer_name container sc w :
  List.NoDup (List.map node_id (descendants container)) ->
  In w (seed_writes (blocks_of container)) ->
  name_of (snd (autoSeedRoomNames container sc)) (fst w) = snd w.
Proof.
  intros Hids Hw. rewrite auto_seed_writes. unfold name_of.
  assert (Hwid : List.NoDup
                   (List.map written_id (seed_writes (blocks_of container)))).
  { rewrite seed_writes_ids. now apply renamed_nodes_distinct_ids. }
  fold (written_id w).
  now rewrite (proj1 (apply_writes_lookup _ sc w Hwid Hw)).
Qed.

(** The layer of a renaming is the only layer with fills whose name matches
    afterwards, when the nodes are distinct objects, the names of the run
    differ in their normal forms, and no layer with fills that the run leaves
    alone has a matching name. *)
Lemma seeded_layer_only container sc w y :
  List.NoDup (List.map node_id (descendants container)) ->
  List.NoDup (List.map written_norm (seed_writes (blocks_of container))) ->
  (forall m,
     In m (descendants container) -> hasFills m = true ->
     ~ In m (renamed_nodes (blocks_of container)) ->
     namesMatch (name_of sc m) (snd w) = false) ->
  In w (seed_writes (blocks_of container)) ->
  In y (descendants container) -> hasFills y = true ->
  namesMatch (name_of (snd (autoSeedRoomNames container sc)) y) (snd w)
  = true ->
  y = fst w.
Proof.
  intros Hids Hnames Hothers Hw Hy Hfy Hmatch.
  unfold namesMatch in Hmatch. apply String.eqb_eq in Hmatch.
  destruct (in_dec Nat.eq_dec (node_id y)
              (List.map written_id (seed_writes (blocks_of container))))
    as [Hr|Hr].
  - apply in_map_iff in Hr as (v & Ev & Hv).
    assert (Ey : fst v = y).
    { apply (NoDup_map_In_eq node_id (descendants container));
        [exact Hids | | exact Hy | exact Ev].
      apply (renamed_node_in_container container).
      rewrite <- seed_writes_nodes. now apply in_map. }
    assert (Evw : v = w).
    { apply (NoDup_map_In_eq written_norm
               (seed_writes (blocks_of container))); try assumption.
      unfold written_norm. rewrite <- Hmatch, <- Ey.
      now rewrite (seeded_layer_name container sc v Hids Hv). }
    now rewrite <- Ey, Evw.
  - exfalso.
    assert (Hnot : ~ In y (renamed_nodes (blocks_of container))).
    { intros Hin. apply Hr. rewrite seed_writes_ids. now apply in_map. }
    pose proof (Hothers y Hy Hfy Hnot) as Hno.
    unfold namesMatch in Hno. apply String.eqb_neq in Hno. apply Hno.
    rewrite <- Hmatch. unfold name_of. rewrite auto_seed_writes.
    now rewrite (proj1 (apply_writes_frame _ sc (node_id y) Hr)).
Qed.

(** After a run of the auto-seeder every layer it renamed is found by the
    name it was given, and it is that layer that is found and no other layer
    with fills has a name that matches: provided the nodes under the
    container are distinct objects, no two names of the run have one normal
    form (as they have with two blocks of one title), and no layer with fills
    that the run leaves alone has a name that matches. *)
Theorem seeded_layers_are_found container sc n name :
  List.NoDup (List.map node_id (descendants container)) ->
  List.NoDup (List.map written_norm (seed_writes (blocks_of container))) ->
  (forall m,
     In m (descendants container) -> hasFills m = true ->
     ~ In m (renamed_nodes (blocks_of container)) ->
     namesMatch (name_of sc m) name = false) ->
  In (n, name) (seed_writes (blocks_of container)) ->
  let after := snd (autoSeedRoomNames container sc) in
  (exists block i,
     In block (blocks_of container) /\ block_processed block = true
     /\ nth_error (sorted_image_nodes block) i = Some n
     /\ name = seed_name block i)
  /\ name_of after n = name
  /\ findLayerByName container after name = Some n
  /\ forall m,
       In m (descendants container) -> hasFills m = true -> m <> n ->
       namesMatch (name_of after m) name = false.
Proof.
  intros Hids Hnames Hothers Hw after.
  pose proof (seeded_layer_name container sc (n, name) Hids Hw) as Hn.
  cbn [fst snd] in Hn. fold after in Hn.
  assert (Hren : In n (renamed_nodes (blocks_of container))).
  { rewrite <- seed_writes_nodes. exact (in_map fst _ _ Hw). }
  destruct (renamed_node_in_container container n Hren) as [Hin Hfills].
  split.
  { apply seed_writes_In in Hw as (block & i & Hb & Hi & Hs).
    apply filter_In in Hb as [Hb Hp]. now exists block, i. }
  split; [exact Hn|]. split.
  - unfold findLayerByName, findOne. apply find_only.
    + exact Hin.
    + rewrite Hfills, Hn. cbn [negb]. apply String.eqb_refl.
    + intros y Hy Hpy. destruct (hasFills y) eqn:Hfy; [|discriminate].
      exact (seeded_layer_only container sc (n, name) y Hids Hnames Hothers
               Hw Hy Hfy Hpy).
  - intros m Hm Hfm Hne.
    destruct (namesMatch (name_of after m) name) eqn:E; [|reflexivity].
    exfalso. apply Hne.
    exact (seeded_layer_only container sc (n, name) m Hids Hnames Hothers
             Hw Hm Hfm E).
Qed.

Lemma seeded_layers_are_found_witness :
  let layer := mkNode 14 RECTANGLE 100 100 "" true None in
  let sc := mkScene {[10 := "Owner's Suite"; 30 := "Logo"]} ∅ in
  let after := snd (autoSeedRoomNames container_example sc) in
  In (layer, "Owners_WIC_1") (seed_writes (blocks_of container_example))
  /\ name_of after layer = "Owners_WIC_1"
  /\ findLayerByName container_example after "Owners_WIC_1" = Some layer.
Proof.
  intros layer sc after.
  assert (Hw : In (layer, "Owners_WIC_1")
                 (seed_writes (blocks_of container_example)))
    by (vm_compute; tauto).
  split; [exact Hw|].
  destruct (seeded_layers_are_found container_example sc
              layer "Owners_WIC_1") as (_ & Hn & Hf & _).
  - vm_compute. repeat (constructor; [simpl; lia|]). constructor.
  - vm_compute.
    repeat (constructor; [simpl; intuition discriminate|]). constructor.
  - intros m Hm Hf Hnot. vm_compute in Hm.
    repeat (destruct Hm as [<-|Hm]; [vm_compute; reflexivity|]).
    destruct Hm.
  - exact Hw.
  - split; [exact Hn | exact Hf].
Defined.

(** ** The selection and the handler *)

Lemma getSelectedContainer_spec selection :
  match getSelectedContainer selection with
  | inr container => selection = [container] /\ has_children container = true
  | inl _ =>
      forall container,
        selection = [container] -> has_children container = false
  end.
Proof.
  unfold getSelectedContainer.
  destruct selection as [|n [|n' rest]]; simpl.
  - intros c. discriminate.
  - destruct (has_children n) eqn:E; [now split|].
    intros c [= <-]. exact E.
  - intros c. discriminate.
Qed.

(** Without a single selected node that can hold children the handler
    changes nothing and reports one diagnostic with zero counts; a message of
    another type is not answered.  (An upload without images is answered
    before the selection is looked at.) *)
Theorem handler_needs_one_container host selection msg sc :
  (forall container,
     selection = [container] -> has_children container = false) ->
  snd (onmessage host selection msg sc) = sc
  /\ match msg with
     | UploadImages msg_images =>
         exists diagnostic,
           fst (onmessage host selection msg sc)
           = Some (UploadComplete 0 (List.length (default [] msg_images))
                     [diagnostic])
     | AutoSeedRoomNamesRequest =>
         exists diagnostic,
           fst (onmessage host selection msg sc)
           = Some (AutoSeedComplete 0 0 [diagnostic])
     | OtherMessage => fst (onmessage host selection msg sc) = None
     end.
Proof.
  intros H.
  pose proof (getSelectedContainer_spec selection) as S.
  destruct (getSelectedContainer selection) as [e|c] eqn:E.
  - destruct msg as [imgs| |]; simpl.
    + unfold handle_upload.
      destruct (List.length (default [] imgs) =? 0) eqn:E0.
      * apply Nat.eqb_eq in E0. rewrite E0. split; [reflexivity|].
        now eexists.
      * rewrite E. split; [reflexivity|]. now eexists.
    + unfold handle_auto_seed. rewrite E. split; [reflexivity|]. now eexists.
    + split; reflexivity.
  - destruct S as [-> Hc]. rewrite (H c eq_refl) in Hc. discriminate.
Qed.

Lemma handler_needs_one_container_witness :
  snd (onmessage (mkHost (fun _ => ImageFailure "none") (fun _ => false))
         [owners_block_example; great_room_block_example]
         AutoSeedRoomNamesRequest (mkScene ∅ ∅))
  = mkScene ∅ ∅.
Proof.
  apply (handler_needs_one_container
           (mkHost (fun _ => ImageFailure "none") (fun _ => false))
           [owners_block_example; great_room_block_example]
           AutoSeedRoomNamesRequest (mkScene ∅ ∅)).
  intros c. discriminate.
Defined.

(** ** The upload loop *)

(** The two ways an iteration can end: with one diagnostic and nothing else,
    or with the image applied to the first matching layer, which has fills
    and is not locked. *)
Lemma upload_image_cases host container img st :
  (exists msg, upload_image host container img st = push_not_found msg st)
  \/ (exists target n hash,
        parseFilenameToTargetLayer (image_name img) = Some target
        /\ findLayerByName container (upload_scene st) target = Some n
        /\ hasFills n = true
        /\ locked host (node_id n) = false
        /\ createImage host (image_data img) = ImageHandle hash
        /\ upload_image host container img st
           = mkUpload (updatedCount st + 1) (notFoundLayers st)
               (apply_image container n (image_name img) target hash
                  (upload_scene st))).
Proof.
  unfold upload_image.
  destruct (parseFilenameToTargetLayer (image_name img)) as [target|];
    [|left; now eexists].
  destruct (Str.is_empty target); [left; now eexists|].
  destruct (findLayerByName container (upload_scene st) target) as [n|] eqn:Ef;
    [|left; now eexists].
  destruct (hasFills n) eqn:Hf; simpl; [|left; now eexists].
  destruct (locked host (node_id n)) eqn:Hl; [left; now eexists|].
  destruct (createImage host (image_data img)) as [hash|err] eqn:Hc;
    [|left; now eexists].
  right. exists target, n, hash. now repeat split.
Qed.

Lemma upload_image_accounting host container img st :
  updatedCount (upload_image host container img st)
  + List.length (notFoundLayers (upload_image host container img st))
  = updatedCount st + List.length (notFoundLayers st) + 1.
Proof.
  destruct (upload_image_cases host container img st)
    as [(msg & ->)|(t & n & h & _ & _ & _ & _ & _ & ->)]; simpl.
  - rewrite length_app. simpl. lia.
  - lia.
Qed.

Lemma upload_loop_accounting host container images : forall st,
  updatedCount (upload_loop host container images st)
  + List.length (notFoundLayers (upload_loop host container images st))
  = updatedCount st + List.length (notFoundLayers st) + List.length images.
Proof.
  induction images as [|img images IH]; intros st; simpl; [lia|].
  rewrite IH, upload_image_accounting. lia.
Qed.

(** Every image of an upload is accounted for once: it is counted as updated
    or it has one diagnostic.  An upload without images, with the list missing
    or empty, has the one diagnostic that says so, whatever is selected. *)
Theorem upload_accounts_for_every_image host selection msg_images sc :
  match fst (handle_upload host selection msg_images sc) with
  | UploadComplete updated total notFound =>
      total = List.length (default [] msg_images)
      /\ match default [] msg_images, getSelectedContainer selection with
         | [], _ =>
             updated = 0
             /\ notFound = ["No images received from the UI."]
             /\ snd (handle_upload host selection msg_images sc) = sc
         | _ :: _, inr _ => updated + List.length notFound = total
         | _ :: _, inl error => updated = 0 /\ notFound = [error]
         end
  | AutoSeedComplete _ _ _ => False
  end.
Proof.
  unfold handle_upload.
  destruct (default [] msg_images) as [|img images] eqn:E.
  - simpl. repeat split.
  - cbn [List.length Nat.eqb].
    destruct (getSelectedContainer selection) as [e|c]; simpl.
    + repeat split.
    + split; [reflexivity|].
      pose proof (upload_loop_accounting host c (img :: images)
                    (mkUpload 0 [] sc)) as H.
      simpl in H. simpl. lia.
Qed.

(** *** What an upload writes *)

Lemma apply_image_fills container n name target hash sc :
  fills (apply_image container n name target hash sc)
  = <[node_id n := [IMAGE hash]]> (fills sc).
Proof.
  unfold apply_image.
  destruct (parent_of container n) as [p|]; [|reflexivity].
  now destruct (namesMatch _ target).
Qed.

Lemma set_name_lookup m new_name s id :
  names (set_name m new_name s) !! id = names s !! id
  \/ names (set_name m new_name s) !! id = Some new_name.
Proof.
  unfold set_name. simpl.
  destruct (decide (node_id m = id)) as [<-|Hne].
  - right. apply lookup_insert_eq.
  - left. now apply lookup_insert_ne.
Qed.

Lemma apply_image_names container n name target hash sc id :
  names (apply_image container n name target hash sc) !! id = names sc !! id
  \/ names (apply_image container n name target hash sc) !! id
     = Some (stripExtension name).
Proof.
  unfold apply_image.
  set (s1 := set_fills n [IMAGE hash] sc).
  assert (E1 : names s1 = names sc) by reflexivity.
  pose proof (set_name_lookup n (stripExtension name) s1 id) as A.
  rewrite E1 in A.
  destruct (parent_of container n) as [p|]; [|exact A].
  destruct (namesMatch _ target); [|exact A].
  destruct (set_name_lookup p (stripExtension name)
              (set_name n (stripExtension name) s1) id) as [-> | ->];
    [exact A | now right].
Qed.

Lemma apply_image_own_name container n name target hash sc :
  names (apply_image container n name target hash sc) !! node_id n
  = Some (stripExtension name).
Proof.
  unfold apply_image.
  set (s2 := set_name n (stripExtension name) _).
  assert (E : names s2 !! node_id n = Some (stripExtension name))
    by apply lookup_insert_eq.
  destruct (parent_of container n) as [p|]; [|exact E].
  destruct (namesMatch _ target); [|exact E].
  destruct (set_name_lookup p (stripExtension name) s2 (node_id n))
    as [-> | ->]; [exact E | reflexivity].
Qed.

Lemma upload_image_count host container img st :
  updatedCount st <= updatedCount (upload_image host container img st)
  /\ (updatedCount (upload_image host container img st) = updatedCount st ->
      upload_scene (upload_image host container img st) = upload_scene st).
Proof.
  destruct (upload_image_cases host container img st)
    as [(msg & ->)|(t & n & h & _ & _ & _ & _ & _ & ->)]; simpl.
  - split; [lia | reflexivity].
  - split; lia.
Qed.

Lemma upload_loop_count host container images : forall st,
  updatedCount st <= updatedCount (upload_loop host container images st)
  /\ (updatedCount (upload_loop host container images st) = updatedCount st ->
      upload_scene (upload_loop host container images st) = upload_scene st).
Proof.
  induction images as [|img images IH]; intros st; simpl.
  - split; [lia | reflexivity].
  - destruct (IH (upload_image host container img st)) as [H1 H2].
    destruct (upload_image_count host container img st) as [H3 H4].
    split; [lia|]. intros E. rewrite H2 by lia. apply H4. lia.
Qed.

(** An upload that updates no layer changes nothing: whenever the count of
    updated layers is 0 the scene is the one before. *)
Theorem upload_without_update_changes_nothing
    host selection msg_images sc total notFound :
  fst (handle_upload host selection msg_images sc)
  = UploadComplete 0 total notFound ->
  snd (handle_upload host selection msg_images sc) = sc.
Proof.
  unfold handle_upload.
  destruct (List.length (default [] msg_images) =? 0); [reflexivity|].
  destruct (getSelectedContainer selection) as [e|c]; [reflexivity|].
  simpl. intros [= H0 _ _].
  destruct (upload_loop_count host c (default [] msg_images)
              (mkUpload 0 [] sc)) as [_ H].
  apply H. exact H0.
Qed.

Lemma upload_without_update_changes_nothing_witness :
  fst (handle_upload (mkHost (fun _ => ImageHandle "h") (fun _ => false))
         [container_example]
         (Some [mkImage "random_document.txt" []; mkImage "Den_1.png" []])
         (mkScene {[21 := "Kitchen_1"]} ∅))
  = UploadComplete 0 2
      [ "random_document.txt" ++ arrow
        ++ "No room keyword found (expected something like Kitchen, Owners, Bed2, Bath3, Game, CoveredPatio, Patio, etc.).";
        "Den_1.png" ++ arrow ++ "Could not find layer " ++ dquote ++ "Den_1"
        ++ dquote ++ " in the selected frame." ]
  /\ snd (handle_upload (mkHost (fun _ => ImageHandle "h") (fun _ => false))
            [container_example]
            (Some [mkImage "random_document.txt" []; mkImage "Den_1.png" []])
            (mkScene {[21 := "Kitchen_1"]} ∅))
     = mkScene {[21 := "Kitchen_1"]} ∅.
Proof.
  assert (H : fst (handle_upload
                     (mkHost (fun _ => ImageHandle "h") (fun _ => false))
                     [container_example]
                     (Some [mkImage "random_document.txt" [];
                            mkImage "Den_1.png" []])
                     (mkScene {[21 := "Kitchen_1"]} ∅))
              = UploadComplete 0 2
                  [ "random_document.txt" ++ arrow
                    ++ "No room keyword found (expected something like Kitchen, Owners, Bed2, Bath3, Game, CoveredPatio, Patio, etc.).";
                    "Den_1.png" ++ arrow ++ "Could not find layer " ++ dquote
                    ++ "Den_1" ++ dquote ++ " in the selected frame." ])
    by (vm_compute; reflexivity).
  split; [exact H|].
  exact (upload_without_update_changes_nothing _ _ _ _ _ _ H).
Defined.

(** The upload loop keeps what is said of every node id about the fills and
    the names. *)
Lemma upload_loop_writes host container images sc0 : forall rest st,
  (forall img, In img rest -> In img images) ->
  (forall id,
     (fills (upload_scene st) !! id = fills sc0 !! id
      \/ (locked host id = false
          /\ exists n img hash,
               In n (descendants container) /\ node_id n = id
               /\ hasFills n = true /\ In img images
               /\ createImage host (image_data img) = ImageHandle hash
               /\ fills (upload_scene st) !! id = Some [IMAGE hash]))
     /\ (names (upload_scene st) !! id = names sc0 !! id
         \/ exists img,
              In img images
              /\ names (upload_scene st) !! id
                 = Some (stripExtension (image_name img)))) ->
  forall id,
    (fills (upload_scene (upload_loop host container rest st)) !! id
     = fills sc0 !! id
     \/ (locked host id = false
         /\ exists n img hash,
              In n (descendants container) /\ node_id n = id
              /\ hasFills n = true /\ In img images
              /\ createImage host (image_data img) = ImageHandle hash
              /\ fills (upload_scene (upload_loop host container rest st))
                 !! id = Some [IMAGE hash]))
    /\ (names (upload_scene (upload_loop host container rest st)) !! id
        = names sc0 !! id
        \/ exists img,
             In img images
             /\ names (upload_scene (upload_loop host container rest st))
                !! id = Some (stripExtension (image_name img))).
Proof.
  induction rest as [|img rest IH]; intros st Hsub Hinv; [exact Hinv|].
  cbn [upload_loop]. apply IH; [intros i Hi; apply Hsub; now right|].
  assert (Himg : In img images) by (apply Hsub; now left).
  destruct (upload_image_cases host container img st)
    as [(msg & ->)|(t & n & h & _ & Hfind & Hf & Hl & Hc & ->)];
    [exact Hinv|].
  intros id. specialize (Hinv id). destruct Hinv as [HF HN].
  cbn [upload_scene]. split.
  - rewrite apply_image_fills.
    destruct (decide (node_id n = id)) as [<-|Hne].
    + right. split; [exact Hl|]. exists n, img, h.
      unfold findLayerByName, findOne in Hfind.
      apply find_some in Hfind as [Hin _].
      repeat split; try assumption. apply lookup_insert_eq.
    + rewrite lookup_insert_ne by exact Hne. exact HF.
  - destruct (apply_image_names container n (image_name img) t h
                (upload_scene st) id) as [-> | ->]; [exact HN|].
    right. now exists img.
Qed.

(** What an upload may write.  The fills of a node either stay or become the
    one image made from an uploaded file, and then the node is a descendant
    of the selected container, has a [fills] property and is not locked; so
    a locked node keeps its fills.  The name of a node either stays or
    becomes the name of an uploaded file without its extension. *)
Theorem upload_writes host selection msg_images sc id :
  let after := snd (handle_upload host selection msg_images sc) in
  (fills after !! id = fills sc !! id
   \/ (locked host id = false
       /\ exists container n img hash,
            selection = [container]
            /\ In n (descendants container) /\ node_id n = id
            /\ hasFills n = true /\ In img (default [] msg_images)
            /\ createImage host (image_data img) = ImageHandle hash
            /\ fills after !! id = Some [IMAGE hash]))
  /\ (names after !! id = names sc !! id
      \/ exists img,
           In img (default [] msg_images)
           /\ names after !! id = Some (stripExtension (image_name img))).
Proof.
  unfold handle_upload.
  destruct (List.length (default [] msg_images) =? 0);
    [split; now left|].
  pose proof (getSelectedContainer_spec selection) as S.
  destruct (getSelectedContainer selection) as [e|c]; [split; now left|].
  destruct S as [-> _]. cbn [snd].
  destruct (upload_loop_writes host c (default [] msg_images) sc
              (default [] msg_images) (mkUpload 0 [] sc)
              (fun _ H => H) (fun _ => conj (or_introl eq_refl)
                                         (or_introl eq_refl)) id)
    as [HF HN].
  split; [|exact HN].
  destruct HF as [HF|(Hl & n & img & h & H)]; [now left|].
  right. split; [exact Hl|]. now exists c, n, img, h.
Qed.

Lemma append_not_empty a c b : Str.is_empty (a ++ String c b) = false.
Proof. destruct a; reflexivity. Qed.

Lemma parse_not_empty name target :
  parseFilenameToTargetLayer name = Some target ->
  Str.is_empty target = false.
Proof.
  unfold parseFilenameToTargetLayer.
  destruct (first_matching_keyword _); [|discriminate].
  intros [= <-]. apply append_not_empty.
Qed.

(** The iteration of the upload loop that applies the image. *)
Lemma upload_image_success host container name data st target n hash :
  parseFilenameToTargetLayer name = Some target ->
  findLayerByName container (upload_scene st) target = Some n ->
  locked host (node_id n) = false ->
  createImage host data = ImageHandle hash ->
  upload_image host container (mkImage name data) st
  = mkUpload (updatedCount st + 1) (notFoundLayers st)
      (apply_image container n name target hash (upload_scene st)).
Proof.
  intros Hp Hf Hl Hi.
  assert (Hh : hasFills n = true).
  { unfold findLayerByName, findOne in Hf. apply find_some in Hf as [_ Hf].
    now destruct (hasFills n). }
  unfold upload_image. cbn [image_name image_data].
  rewrite Hp, (parse_not_empty name target Hp), Hf, Hh.
  cbn [negb]. now rewrite Hl, Hi.
Qed.

Lemma single_selection container :
  has_children container = true ->
  getSelectedContainer [container] = inr container.
Proof.
  intros Hc. unfold getSelectedContainer.
  cbn [List.length Nat.eqb Nat.ltb Nat.leb]. now rewrite Hc.
Qed.

(** The upload of one file whose name resolves to a target for which the
    lookup finds a layer that is not locked, when the host makes the image:
    one layer is updated and there is no diagnostic; the layer has the image
    as its only fill and the name of the file without its extension; no other
    node has its fills changed. *)
Theorem upload_applies_image host container name data sc target n hash :
  has_children container = true ->
  parseFilenameToTargetLayer name = Some target ->
  findLayerByName container sc target = Some n ->
  locked host (node_id n) = false ->
  createImage host data = ImageHandle hash ->
  let after :=
    snd (handle_upload host [container] (Some [mkImage name data]) sc) in
  fst (handle_upload host [container] (Some [mkImage name data]) sc)
  = UploadComplete 1 1 []
  /\ fills after !! node_id n = Some [IMAGE hash]
  /\ names after !! node_id n = Some (stripExtension name)
  /\ forall id, id <> node_id n -> fills after !! id = fills sc !! id.
Proof.
  intros Hc Hp Hf Hl Hi.
  unfold handle_upload.
  change (default [] (Some [mkImage name data])) with [mkImage name data].
  cbn [List.length Nat.eqb]. rewrite (single_selection container Hc).
  cbn [upload_loop].
  rewrite (upload_image_success host container name data (mkUpload 0 [] sc)
             target n hash Hp Hf Hl Hi).
  cbn [fst snd updatedCount notFoundLayers upload_scene].
  split; [reflexivity|]. rewrite apply_image_fills.
  split; [apply lookup_insert_eq|].
  split; [apply apply_image_own_name|].
  intros id Hne. now apply lookup_insert_ne.
Qed.

Lemma upload_applies_image_witness :
  let host := mkHost (fun _ => ImageHandle "hash-1") (fun _ => false) in
  let seeded := snd (autoSeedRoomNames container_example (mkScene ∅ ∅)) in
  let layer := mkNode 15 RECTANGLE 200 0 "" true None in
  let after :=
    snd (handle_upload host [container_example]
           (Some [mkImage "Owners_Bath_1.png" []]) seeded) in
  findLayerByName container_example seeded "Owners_Bath_1" = Some layer
  /\ fst (handle_upload host [container_example]
            (Some [mkImage "Owners_Bath_1.png" []]) seeded)
     = UploadComplete 1 1 []
  /\ fills after !! 15 = Some [IMAGE "hash-1"]
  /\ names after !! 15 = Some "Owners_Bath_1".
Proof.
  intros host seeded layer after.
  assert (Hf : findLayerByName container_example seeded "Owners_Bath_1"
               = Some layer) by (vm_compute; reflexivity).
  split; [exact Hf|].
  destruct (upload_applies_image host container_example "Owners_Bath_1.png"
              [] seeded "Owners_Bath_1" layer "hash-1")
    as (H1 & H2 & H3 & _).
  - vm_compute; reflexivity.
  - vm_compute; reflexivity.
  - exact Hf.
  - reflexivity.
  - reflexivity.
  - split; [exact H1|]. split; [exact H2 | exact H3].
Defined.

(** ** The most specific keyword *)

Lemma strongly_sorted_after {A : Type} (R : A -> A -> Prop) l1 x l2 :
  StronglySorted R (l1 ++ x :: l2) -> forall y, In y l2 -> R x y.
Proof.
  induction l1 as [|a l1 IH]; simpl; intros H y Hy.
  - inversion H as [|? ? _ Hall]. subst.
    rewrite List.Forall_forall in Hall. now apply Hall.
  - inversion H. auto.
Qed.

(** The keyword of a result is a most specific one: no keyword of the catalog
    that occurs in the normalised name as a whole token is longer than the
    one the resolver takes. *)
Theorem resolver_takes_longest_keyword name target :
  parseFilenameToTargetLayer name = Some target ->
  exists info index,
    In info ROOM_KEYWORD_INFO
    /\ target = raw info ++ "_" ++ index
    /\ whole_token (norm info) (normalizeToken (stripExtension name))
    /\ forall other,
         In other ROOM_KEYWORD_INFO ->
         whole_token (norm other) (normalizeToken (stripExtension name)) ->
         norm_length other <= norm_length info.
Proof.
  unfold parseFilenameToTargetLayer.
  set (normalized := normalizeToken (stripExtension name)).
  assert (Hn : Str.all is_token_char normalized = true)
    by apply is_normal_token_chars, normalizeToken_normal.
  destruct (first_matching_keyword normalized) as [info|] eqn:E;
    [|discriminate].
  intros [= <-]. unfold first_matching_keyword in E.
  pose proof (find_some _ _ E) as [Hin Ht].
  apply find_first in E as (earlier & later & Hs & _ & Hpre).
  eexists info, _. split; [exact Hin|]. split; [reflexivity|].
  split.
  - exact (proj1 (keyword_test_whole_token (norm info) normalized
                    (catalog_norm_token_chars info Hin) Hn) Ht).
  - intros other Ho Hw'.
    pose proof (proj2 (keyword_test_whole_token (norm other) normalized
                         (catalog_norm_token_chars other Ho) Hn) Hw') as Hw.
    rewrite Hs in Ho. apply in_app_iff in Ho as [Ho|[<-|Ho]].
    + rewrite (Hpre other Ho) in Hw. discriminate.
    + lia.
    + pose proof catalog_sorted as Hsorted. rewrite Hs in Hsorted.
      exact (strongly_sorted_after _ _ _ _ Hsorted other Ho).
Qed.

Lemma resolver_takes_longest_keyword_witness :
  parseFilenameToTargetLayer "Kitchenette_2.png" = Some "Kitchenette_2"
  /\ exists info index,
       In info ROOM_KEYWORD_INFO
       /\ "Kitchenette_2" = raw info ++ "_" ++ index
       /\ whole_token (norm info)
            (normalizeToken (stripExtension "Kitchenette_2.png"))
       /\ forall other,
            In other ROOM_KEYWORD_INFO ->
            whole_token (norm other)
              (normalizeToken (stripExtension "Kitchenette_2.png")) ->
            norm_length other <= norm_length info.
Proof.
  assert (H : parseFilenameToTargetLayer "Kitchenette_2.png"
              = Some "Kitchenette_2") by (vm_compute; reflexivity).
  split; [exact H|].
  exact (resolver_takes_longest_keyword "Kitchenette_2.png" "Kitchenette_2" H).
Defined.

(** ** The default branch of the auto-seeder *)

Lemma deriver_token_not_empty text token :
  deriveRoomTokenFromText text = Some token -> Str.is_empty token = false.
Proof.
  unfold deriveRoomTokenFromText.
  destruct (Str.is_empty (Str.trim text)); [discriminate|].
  destruct (search_room_number "bed" _); [intros [= <-]; reflexivity|].
  destruct (search_room_number "bath" _); [intros [= <-]; reflexivity|].
  destruct (test_ci "game" _); [intros [= <-]; reflexivity|].
  destruct (first_matching_keyword _) as [info|] eqn:Ef.
  - intros [= <-]. unfold first_matching_keyword in Ef.
    apply find_some in Ef as [Hin _].
    exact (proj1 (proj2 (proj2 (keyword_facts _ (proj1 (catalog_in info Hin)))))).
  - destruct (Str.is_empty _) eqn:Ee; [discriminate|]. now intros [= <-].
Qed.

Lemma derived_title_not_empty title token :
  deriveRoomTokenFromText title = Some token -> Str.is_empty title = false.
Proof. destruct title; [discriminate | reflexivity]. Qed.

(** In a block that is no Owners-Suite block and whose title gives a token,
    the image nodes, taken in visual reading order, get the names
    [<token>_1], [<token>_2] and so on, each with the placeholder fill. *)
Theorem default_branch_names block title token st :
  block_title block = Some title ->
  isOwnersSuiteTitle title = false ->
  deriveRoomTokenFromText title = Some token ->
  List.NoDup (List.map node_id (findAll block isImageLayer)) ->
  forall i img,
    nth_error (sorted_image_nodes block) i = Some img ->
    name_of (seed_scene (seed_block block st)) img
    = token ++ "_" ++ Str.of_nat (i + 1)
    /\ fills (seed_scene (seed_block block st)) !! node_id img
       = Some placeholder_fills.
Proof.
  intros Ht Ho Hd Hnd i img Hi.
  assert (Hu : usable_token title = Some token).
  { unfold usable_token. now rewrite Hd, (deriver_token_not_empty _ _ Hd). }
  assert (Hp : block_processed block = true).
  { unfold block_processed. rewrite Ht, Ho, Hu.
    rewrite (derived_title_not_empty title token Hd). simpl.
    rewrite andb_true_r. apply negb_true_iff, Nat.eqb_neq.
    rewrite <- sorted_image_nodes_length.
    destruct (sorted_image_nodes block); [destruct i; discriminate|].
    discriminate. }
  assert (Hnd' : List.NoDup (List.map node_id (sorted_image_nodes block))).
  { eapply Permutation_NoDup; [|exact Hnd].
    apply Permutation_map, sorted_image_nodes_perm. }
  destruct (seed_block_processed block st Hp) as (f & k & E & Hk).
  specialize (Hk title Ht). rewrite Ho in Hk.
  destruct Hk as (t & Et & -> & ->). rewrite Hu in Et. injection Et as <-.
  rewrite E. cbn [seed_scene].
  destruct (repaint_all_lookup (default_name token) (sorted_image_nodes block)
              1 (seed_scene st) i img Hnd' Hi) as [Hn Hf].
  split; [|exact Hf]. unfold name_of. rewrite Hn.
  unfold default_name. change (1 + i) with (S i).
  rewrite Nat.add_1_r. reflexivity.
Qed.

Lemma default_branch_names_witness :
  block_title great_room_block_example = Some "Great Room"
  /\ nth_error (sorted_image_nodes great_room_block_example) 2
     = Some (mkNode 52 RECTANGLE 0 50 "" true None)
  /\ name_of (seed_scene (seed_block great_room_block_example empty_seed_state))
       (mkNode 52 RECTANGLE 0 50 "" true None)
     = "Great" ++ "_" ++ Str.of_nat (2 + 1).
Proof.
  assert (Ht : block_title great_room_block_example = Some "Great Room")
    by (vm_compute; reflexivity).
  assert (Hi : nth_error (sorted_image_nodes great_room_block_example) 2
               = Some (mkNode 52 RECTANGLE 0 50 "" true None))
    by (vm_compute; reflexivity).
  split; [exact Ht|]. split; [exact Hi|].
  refine (proj1 (default_branch_names great_room_block_example "Great Room"
                   "Great" empty_seed_state Ht _ _ _ 2 _ Hi)).
  - vm_compute; reflexivity.
  - vm_compute; reflexivity.
  - simpl. repeat (constructor; [simpl; lia|]). constructor.
Defined.

(** Image nodes at one and the same position keep the order in which the
    document has them, so the numbering of a block is settled by the
    positions and the document order alone. *)
Theorem reading_order_keeps_document_order block x y :
  let here n := ((node_x n =? x)%Z && (node_y n =? y)%Z)%bool in
  List.filter here (sorted_image_nodes block)
  = List.filter here (findAll block isImageLayer).
Proof.
  intros here. apply Array_sort_stable. intros a b Ha Hb.
  unfold here in *. apply andb_true_iff in Ha as [Hax Hay].
  apply andb_true_iff in Hb as [Hbx Hby].
  apply Z.eqb_eq in Hax, Hay, Hbx, Hby.
  unfold before, by_position. rewrite Hay, Hby, Z.eqb_refl. simpl. lia.
Qed.

(** ** Two extensions *)

(** The resolver cuts an extension off the filename and the normaliser cuts
    one more: of a name with two extensions both are ignored, so that
    [Kitchen_2.5.png] resolves like [Kitchen_2]. *)
Theorem resolver_ignores_two_extensions s ext1 ext2 :
  stripExtension s = s ->
  is_extension_body ext1 = true -> is_extension_body ext2 = true ->
  parseFilenameToTargetLayer ((s ++ "." ++ ext1) ++ "." ++ ext2)
  = parseFilenameToTargetLayer s
  /\ parseFilenameToTargetLayer (s ++ "." ++ ext1)
     = parseFilenameToTargetLayer s.
Proof.
  intros Hs H1 H2.
  assert (K : normalizeToken (s ++ "." ++ ext1) = normalizeToken s).
  { unfold normalizeToken. rewrite !stripExtension_toLowerCase.
    now rewrite (stripExtension_cut s ext1 H1), Hs. }
  split; unfold parseFilenameToTargetLayer.
  - now rewrite (stripExtension_cut _ ext2 H2), K, Hs.
  - now rewrite (stripExtension_cut s ext1 H1), Hs.
Qed.

Lemma resolver_ignores_two_extensions_witness :
  stripExtension "Kitchen_2" = "Kitchen_2"
  /\ parseFilenameToTargetLayer (("Kitchen_2" ++ "." ++ "5") ++ "." ++ "png")
     = parseFilenameToTargetLayer "Kitchen_2"
  /\ parseFilenameToTargetLayer "Kitchen_2" = Some "Kitchen_2".
Proof.
  assert (Hs : stripExtension "Kitchen_2" = "Kitchen_2")
    by (vm_compute; reflexivity).
  split; [exact Hs|].
  split; [|vm_compute; reflexivity].
  exact (proj1 (resolver_ignores_two_extensions "Kitchen_2" "5" "png" Hs
                  eq_refl eq_refl)).
Defined.

(** ** From the auto-seeder to the upload *)

Lemma apply_image_other_names container n name target hash sc id :
  id <> node_id n ->
  (forall p, parent_of container n = Some p -> id <> node_id p) ->
  names (apply_image container n name target hash sc) !! id = names sc !! id.
Proof.
  intros Hn Hp. unfold apply_image.
  destruct (parent_of container n) as [p|] eqn:E.
  - specialize (Hp p eq_refl).
    destruct (namesMatch _ target); unfold set_name, set_fills; simpl;
      now rewrite ?lookup_insert_ne by congruence.
  - unfold set_name, set_fills. simpl.
    now rewrite lookup_insert_ne by congruence.
Qed.

(** After a run of the auto-seeder on the selected container, the upload of
    a file named like a renamed layer, whose name is a keyword of the list,
    an underscore and digits, puts the image on that layer and on no other:
    the answer counts one update and has no diagnostic, the layer has the
    image as its only fill and keeps its name, no other node has its fills
    changed, so that every other renamed layer keeps the placeholder, and no
    name changes but, at most, that of the parent of the layer.  This needs
    that the layer is not locked and the host makes the image, that the nodes
    under the container are distinct objects, that no two names of the run
    have one normal form, and that no layer with fills that the run leaves
    alone has a name that matches. *)
Theorem seed_then_upload host container sc n kw d ext data hash :
  has_children container = true ->
  List.NoDup (List.map node_id (descendants container)) ->
  List.NoDup (List.map written_norm (seed_writes (blocks_of container))) ->
  (forall m,
     In m (descendants container) -> hasFills m = true ->
     ~ In m (renamed_nodes (blocks_of container)) ->
     namesMatch (name_of sc m) (kw ++ "_" ++ d) = false) ->
  In (n, kw ++ "_" ++ d) (seed_writes (blocks_of container)) ->
  In kw ROOM_KEYWORDS -> digit_group d -> is_extension_body ext = true ->
  locked host (node_id n) = false ->
  createImage host data = ImageHandle hash ->
  let seeded := snd (autoSeedRoomNames container sc) in
  let upload :=
    handle_upload host [container]
      (Some [mkImage ((kw ++ "_" ++ d) ++ "." ++ ext) data]) seeded in
  names seeded !! node_id n = Some (kw ++ "_" ++ d)
  /\ fills seeded !! node_id n = Some placeholder_fills
  /\ fst upload = UploadComplete 1 1 []
  /\ fills (snd upload) !! node_id n = Some [IMAGE hash]
  /\ names (snd upload) !! node_id n = Some (kw ++ "_" ++ d)
  /\ (forall id, id <> node_id n ->
        fills (snd upload) !! id = fills seeded !! id)
  /\ (forall m, In m (renamed_nodes (blocks_of container)) -> m <> n ->
        fills (snd upload) !! node_id m = Some placeholder_fills)
  /\ (forall id,
        (forall p, parent_of container n = Some p -> id <> node_id p) ->
        names (snd upload) !! id = names seeded !! id).
Proof.
  intros Hc Hids Hnames Hothers Hw Hkw Hd He Hl Hi seeded upload.
  set (name := kw ++ "_" ++ d) in *.
  destruct (resolve_canonical_base kw d Hkw Hd) as [_ Hp]. fold name in Hp.
  pose proof (stripExtension_cut name ext He) as Hcut.
  pose proof (Hp _ Hcut) as Hparse.
  assert (Hren : In n (renamed_nodes (blocks_of container))).
  { rewrite <- seed_writes_nodes. exact (in_map fst _ _ Hw). }
  destruct (renamed_node_in_container container n Hren) as [Hin Hfills].
  assert (Hwid : List.NoDup
                   (List.map written_id (seed_writes (blocks_of container)))).
  { rewrite seed_writes_ids. now apply renamed_nodes_distinct_ids. }
  assert (Hseeded : seeded = apply_writes (seed_writes (blocks_of container))
                               sc) by apply auto_seed_writes.
  destruct (apply_writes_lookup _ sc (n, name) Hwid Hw) as [Hn0 Hf0].
  rewrite <- Hseeded in Hn0, Hf0. unfold written_id in Hn0, Hf0.
  cbn [fst snd] in Hn0, Hf0.
  assert (Hfind : findLayerByName container seeded name = Some n).
  { unfold findLayerByName, findOne. apply find_only.
    - exact Hin.
    - rewrite Hfills. cbn [negb]. unfold name_of. rewrite Hn0.
      apply String.eqb_refl.
    - intros y Hy Hpy. destruct (hasFills y) eqn:Hfy; [|discriminate].
      exact (seeded_layer_only container sc (n, name) y Hids Hnames Hothers
               Hw Hy Hfy Hpy). }
  split; [exact Hn0|]. split; [exact Hf0|].
  subst upload. unfold handle_upload.
  change (default [] (Some [?x])) with [x].
  cbn [List.length Nat.eqb]. rewrite (single_selection container Hc).
  cbn [upload_loop].
  rewrite (upload_image_success host container _ data (mkUpload 0 [] seeded)
             name n hash Hparse Hfind Hl Hi).
  cbn [fst snd updatedCount notFoundLayers upload_scene].
  split; [reflexivity|].
  rewrite apply_image_fills, apply_image_own_name, Hcut.
  split; [apply lookup_insert_eq|]. split; [reflexivity|]. split.
  { intros id Hne. now apply lookup_insert_ne. }
  split.
  - intros m Hm Hne.
    assert (Hid : node_id n <> node_id m).
    { intros E. apply Hne. symmetry.
      apply (NoDup_map_In_eq node_id (descendants container));
        [exact Hids | exact Hin | | exact E].
      now apply (renamed_node_in_container container). }
    rewrite lookup_insert_ne by exact Hid.
    rewrite Hseeded.
    apply in_map with (f := node_id) in Hm. rewrite <- seed_writes_ids in Hm.
    destruct (apply_writes_last _ sc _ Hm) as (v & _ & _ & _ & Hf).
    exact Hf.
  - intros id Hpar.
    destruct (Nat.eq_dec id (node_id n)) as [->|Hne].
    + now rewrite apply_image_own_name, Hcut, Hn0.
    + now apply apply_image_other_names.
Qed.

Lemma seed_then_upload_witness :
  let host := mkHost (fun _ => ImageHandle "hash-1") (fun _ => false) in
  let layer15 := mkNode 15 RECTANGLE 200 0 "" true None in
  let sc := mkScene {[10 := "Owner's Suite"; 30 := "Logo"]} ∅ in
  let seeded := snd (autoSeedRoomNames container_example sc) in
  let upload :=
    handle_upload host [container_example]
      (Some [mkImage (("Owners_Bath" ++ "_" ++ "1") ++ "." ++ "png") []])
      seeded in
  In (layer15, "Owners_Bath" ++ "_" ++ "1")
     (seed_writes (blocks_of container_example))
  /\ fst upload = UploadComplete 1 1 []
  /\ fills (snd upload) !! 15 = Some [IMAGE "hash-1"]
  /\ names (snd upload) !! 15 = Some ("Owners_Bath" ++ "_" ++ "1")
  /\ fills (snd upload) !! 14 = Some placeholder_fills.
Proof.
  intros host layer15 sc seeded upload.
  assert (Hw : In (layer15, "Owners_Bath" ++ "_" ++ "1")
                 (seed_writes (blocks_of container_example)))
    by (vm_compute; tauto).
  split; [exact Hw|].
  destruct (seed_then_upload host container_example sc layer15
              "Owners_Bath" "1" "png" [] "hash-1")
    as (_ & _ & H1 & H2 & H3 & _ & H4 & _).
  - vm_compute; reflexivity.
  - vm_compute. repeat (constructor; [simpl; lia|]). constructor.
  - vm_compute.
    repeat (constructor; [simpl; intuition discriminate|]). constructor.
  - intros m Hm Hf Hnot. vm_compute in Hm.
    repeat (destruct Hm as [<-|Hm]; [vm_compute; reflexivity|]).
    destruct Hm.
  - exact Hw.
  - vm_compute; tauto.
  - split; [discriminate | reflexivity].
  - vm_compute; reflexivity.
  - reflexivity.
  - reflexivity.
  - split; [exact H1|]. split; [exact H2|]. split; [exact H3|].
    refine (H4 (mkNode 14 RECTANGLE 100 100 "" true None) _ _).
    + vm_compute; tauto.
    + discriminate.
Defined.

(** ** The parent of an updated layer *)

Lemma parent_of_child container n p :
  parent_of container n = Some p ->
  In p (container :: descendants container) /\ is_child_of n p = true.
Proof. unfold parent_of. apply find_some. Qed.

(** When an image is applied, two names at most change: the layer gets the
    name of the file without its extension, and so does its parent when the
    name of the parent matches the target; the name of the parent stays when
    it does not match, and every other node keeps its name.  The parent is
    the first node, from the container on, that has the layer among its
    children. *)
Theorem upload_renames_layer_and_matching_parent
    container n name target hash sc :
  let after := apply_image container n name target hash sc in
  names after !! node_id n = Some (stripExtension name)
  /\ (forall p,
        parent_of container n = Some p ->
        In p (container :: descendants container)
        /\ is_child_of n p = true
        /\ (node_id p <> node_id n ->
            names after !! node_id p
            = if namesMatch (name_of sc p) target
              then Some (stripExtension name)
              else names sc !! node_id p))
  /\ (forall id,
        id <> node_id n ->
        (forall p, parent_of container n = Some p -> id <> node_id p) ->
        names after !! id = names sc !! id).
Proof.
  intros after. split; [apply apply_image_own_name|]. split.
  - intros p Hp. destruct (parent_of_child container n p Hp) as [Hin Hch].
    split; [exact Hin|]. split; [exact Hch|]. intros Hne.
    unfold after, apply_image. rewrite Hp.
    assert (E : name_of (set_name n (stripExtension name)
                           (set_fills n [IMAGE hash] sc)) p
                = name_of sc p).
    { unfold name_of, set_name, set_fills. simpl.
      now rewrite lookup_insert_ne by congruence. }
    rewrite E. destruct (namesMatch (name_of sc p) target).
    + unfold set_name. simpl. apply lookup_insert_eq.
    + unfold set_name, set_fills. simpl.
      now rewrite lookup_insert_ne by congruence.
  - intros id Hn Hp. unfold after, apply_image.
    destruct (parent_of container n) as [p|] eqn:E.
    + specialize (Hp p eq_refl).
      destruct (namesMatch _ target); unfold set_name, set_fills; simpl;
        now rewrite ?lookup_insert_ne by congruence.
    + unfold set_name, set_fills. simpl.
      now rewrite lookup_insert_ne by congruence.
Qed.

Lemma upload_renames_layer_and_matching_parent_witness :
  let wrapper :=
    mkNode 61 GROUP 0 0 "" false
      (Some [mkNode 62 RECTANGLE 0 0 "" true None]) in
  let container := mkNode 60 FRAME 0 0 "" true (Some [wrapper]) in
  let layer := mkNode 62 RECTANGLE 0 0 "" true None in
  let sc := mkScene {[61 := "kitchen 1"; 62 := "Kitchen_1"]} ∅ in
  let after := apply_image container layer "Kitchen_1of2.png" "Kitchen_1"
                 "hash-1" sc in
  parent_of container layer = Some wrapper
  /\ names after !! 61 = Some "Kitchen_1of2".
Proof.
  intros wrapper container layer sc after.
  assert (Hp : parent_of container layer = Some wrapper)
    by (vm_compute; reflexivity).
  split; [exact Hp|].
  refine (proj2 (proj2 (proj1 (proj2
            (upload_renames_layer_and_matching_parent container layer
               "Kitchen_1of2.png" "Kitchen_1" "hash-1" sc)) wrapper Hp)) _).
  simpl. lia.
Defined.

(** ** Separators *)

Lemma char_alike_classes a b :
  char_alike a b = true ->
  Char.is_dot a = Char.is_dot b
  /\ Char.is_slash a = Char.is_slash b
  /\ (Char.to_lower a = Char.to_lower b
      \/ (Char.is_lower_alnum (Char.to_lower a) = false
          /\ Char.is_lower_alnum (Char.to_lower b) = false)).
Proof.
  unfold char_alike, is_separator. intros H.
  apply orb_true_iff in H as [H|H].
  - apply Ascii.eqb_eq in H.
    destruct (to_lower_keeps_dot_slash a) as [<- <-].
    destruct (to_lower_keeps_dot_slash b) as [<- <-].
    rewrite H. split; [reflexivity|]. split; [reflexivity|]. now left.
  - apply andb_true_iff in H as [Ha Hb].
    apply andb_true_iff in Ha as [Ha Has]. apply andb_true_iff in Ha as [Ha Had].
    apply andb_true_iff in Hb as [Hb Hbs]. apply andb_true_iff in Hb as [Hb Hbd].
    rewrite negb_true_iff in Ha, Had, Has, Hb, Hbd, Hbs.
    rewrite Had, Hbd, Has, Hbs. split; [reflexivity|]. split; [reflexivity|].
    right. split; now apply to_lower_not_alnum.
Qed.

Lemma alike_extension_body s t :
  alike s t = true -> is_extension_body s = is_extension_body t.
Proof.
  unfold is_extension_body. revert t.
  induction s as [|a s IH]; intros [|b t] H; try discriminate; [reflexivity|].
  simpl in H. apply andb_true_iff in H as [Hc Hs].
  destruct (char_alike_classes a b Hc) as (Hd & Hsl & _).
  specialize (IH t Hs). simpl in *. rewrite Hd, Hsl.
  destruct (negb (Char.is_slash b || Char.is_dot b)); [|reflexivity].
  simpl. destruct s, t; try discriminate; [reflexivity|]. exact IH.
Qed.

Lemma alike_stripExtension s : forall t,
  alike s t = true -> alike (stripExtension s) (stripExtension t) = true.
Proof.
  induction s as [|a s IH]; intros [|b t] H; try discriminate; [reflexivity|].
  simpl in H. apply andb_true_iff in H as [Hc Hs].
  destruct (char_alike_classes a b Hc) as (Hd & _ & _).
  simpl. rewrite Hd, (alike_extension_body s t Hs).
  destruct (Char.is_dot b && is_extension_body t); [reflexivity|].
  simpl. now rewrite Hc, IH.
Qed.

Lemma alike_replace_runs s : forall t b,
  alike s t = true ->
  Str.replace_runs_from (fun c => negb (Char.is_lower_alnum c)) "_" b
    (Str.toLowerCase s)
  = Str.replace_runs_from (fun c => negb (Char.is_lower_alnum c)) "_" b
      (Str.toLowerCase t).
Proof.
  induction s as [|a s IH]; intros [|c t] b H; try discriminate; [reflexivity|].
  simpl in H. apply andb_true_iff in H as [Hc Hs].
  destruct (char_alike_classes a c Hc) as (_ & _ & [E|[Ea Ec]]).
  - unfold Str.toLowerCase. simpl. rewrite E.
    fold (Str.toLowerCase s). fold (Str.toLowerCase t).
    now rewrite !(IH t _ Hs).
  - unfold Str.toLowerCase. simpl. rewrite Ea, Ec. simpl.
    fold (Str.toLowerCase s). fold (Str.toLowerCase t).
    now rewrite (IH t true Hs).
Qed.

Lemma alike_normalizeToken s t :
  alike s t = true -> normalizeToken s = normalizeToken t.
Proof.
  intros H. unfold normalizeToken, Str.replace_runs.
  rewrite !stripExtension_toLowerCase.
  now rewrite (alike_replace_runs _ _ false (alike_stripExtension s t H)).
Qed.

(** The normaliser tells no separator from another and no capital from its
    small letter: two texts of one length that differ only in the case of
    letters and in which separator stands where have the same normal form,
    resolve alike as filenames and match as layer names. *)
Theorem normaliser_ignores_separators s t :
  alike s t = true ->
  normalizeToken s = normalizeToken t
  /\ parseFilenameToTargetLayer s = parseFilenameToTargetLayer t
  /\ namesMatch s t = true.
Proof.
  intros H. pose proof (alike_normalizeToken s t H) as N.
  split; [exact N|]. split.
  - unfold parseFilenameToTargetLayer.
    now rewrite (alike_normalizeToken _ _ (alike_stripExtension s t H)).
  - unfold namesMatch. rewrite N. apply String.eqb_refl.
Qed.

Lemma normaliser_ignores_separators_witness :
  alike "Owners Bath-2 of 3.PNG" "owners_bath_2_OF_3.png" = true
  /\ normalizeToken "Owners Bath-2 of 3.PNG"
     = normalizeToken "owners_bath_2_OF_3.png"
  /\ parseFilenameToTargetLayer "Owners Bath-2 of 3.PNG"
     = parseFilenameToTargetLayer "owners_bath_2_OF_3.png"
  /\ namesMatch "Owners Bath-2 of 3.PNG" "owners_bath_2_OF_3.png" = true.
Proof.
  assert (H : alike "Owners Bath-2 of 3.PNG" "owners_bath_2_OF_3.png" = true)
    by (vm_compute; reflexivity).
  split; [exact H|].
  exact (normaliser_ignores_separators _ _ H).
Defined.
